(** * A shallow embedding of the FMxAI layout solver

    The repository positions organisation dots and circle labels of a Venn
    style diagram by reducing the placement problem to CNF and deciding it
    with a small backtracking solver.

    - [SATSolver] embeds [src/sat.js] (class [SATSolver]).
    - [UnifiedLayoutOptimizer] embeds the optimizer class of
      [src/unnamed/part_000].

    Conventions of the embedding.
    - A JavaScript array of [true | false | undefined] is a
      [list (option bool)]; [undefined] and array holes are both [None],
      since the code only ever reads entries with [a[i]].
    - Reading outside the array yields [undefined]; writing outside the
      array extends it (see [js_get] and [js_set]).
    - Variable identifiers and array indices are [nat]; literals are signed
      and live in [Z].
    - The shared, mutated assignment is threaded explicitly: [dpll] returns
      the state of the array on return next to its return value.
    - JavaScript numbers that carry geometry are IEEE-754 binary64 values,
      embedded as Rocq's primitive [float]. *)

From Stdlib Require Import ZArith Floats.PrimFloat Uint63 Strings.String.
From stdpp Require Import base option list numbers.

Set Default Proof Using "Type".
Open Scope Z_scope.
Open Scope nat_scope.

(** ** JavaScript arrays of optional booleans *)

Abbreviation Assignment := (list (option bool)).

(** [a[i]]: out-of-range reads give [undefined]. *)
Definition js_get (a : Assignment) (i : nat) : option bool :=
  match a !! i with
  | Some v => v
  | None => None
  end.

(** [a[i] = v]: an in-range write replaces the entry, an out-of-range write
    extends the array, leaving holes in between. *)
Definition js_set (a : Assignment) (i : nat) (v : option bool) : Assignment :=
  if decide (i < length a) then <[i:=v]> a
  else a ++ replicate (i - length a) None ++ [v].

(** [val === undefined] *)
Definition is_undefined (v : option bool) : bool :=
  match v with
  | None => true
  | Some _ => false
  end.

(** ** The SAT engine ([src/sat.js]) *)

Module SATSolver.

Record t := mk {
  clauses : list (list Z);
  numVars : nat
}.

(** [constructor()] *)
Definition new : t := {| clauses := []; numVars := 0 |}.

(** [newVar()]: [return ++this.numVars]. *)
Definition newVar (s : t) : nat * t :=
  (S (numVars s), {| clauses := clauses s; numVars := S (numVars s) |}).

(** [addClause(literals)]: [this.clauses.push(literals)]. *)
Definition addClause (s : t) (literals : list Z) : t :=
  {| clauses := clauses s ++ [literals]; numVars := numVars s |}.

(** [lit > 0 ? val : !val] *)
Definition litVal (lit : Z) (val : bool) : bool :=
  if (0 <? lit)%Z then val else negb val.

(** The loop of [evalClause], with the local [hasUndefined] as accumulator. *)
Fixpoint evalClause_loop (clause : list Z) (assignment : Assignment)
    (hasUndefined : bool) : option bool :=
  match clause with
  | [] => if hasUndefined then None else Some false
  | lit :: rest =>
      let varIdx := Z.abs_nat lit in
      match js_get assignment varIdx with
      | None => evalClause_loop rest assignment true
      | Some val =>
          if litVal lit val then Some true
          else evalClause_loop rest assignment hasUndefined
      end
  end.

(** [evalClause(clause, assignment)]: [Some true] = satisfied,
    [Some false] = conflict, [None] = unknown. *)
Definition evalClause (clause : list Z) (assignment : Assignment) : option bool :=
  evalClause_loop clause assignment false.

(** Outcome of the clause loop that opens [dpll]. *)
Inductive Scan :=
  | Conflict            (* [return null] inside the loop *)
  | Scanned (allSatisfied : bool).

Fixpoint scanClauses (cls : list (list Z)) (assignment : Assignment)
    (allSatisfied : bool) : Scan :=
  match cls with
  | [] => Scanned allSatisfied
  | clause :: rest =>
      match evalClause clause assignment with
      | Some false => Conflict
      | None => scanClauses rest assignment false
      | Some true => scanClauses rest assignment allSatisfied
      end
  end.

(** The loop choosing [nextVar]; [None] stands for [-1]. *)
Definition chooseVar (s : t) (assignment : Assignment) : option nat :=
  List.find (fun i => is_undefined (js_get assignment i)) (seq 1 (numVars s)).

(** [dpll(assignment)].  The result [(r, a')] gives the return value
    ([r = true]: the shared array itself, [r = false]: [null]) and the
    contents [a'] of the shared array on return.  The recursion is bounded by
    [fuel]; [None] means the bound was hit. *)
Fixpoint dpll (s : t) (fuel : nat) (assignment : Assignment)
    : option (bool * Assignment) :=
  match fuel with
  | 0 => None
  | S fuel =>
      match scanClauses (clauses s) assignment true with
      | Conflict => Some (false, assignment)
      | Scanned true => Some (true, assignment)
      | Scanned false =>
          match chooseVar s assignment with
          | None => Some (true, assignment)
          | Some nextVar =>
              match dpll s fuel (js_set assignment nextVar (Some true)) with
              | None => None
              | Some (true, a1) => Some (true, a1)
              | Some (false, a1) =>
                  match dpll s fuel (js_set a1 nextVar (Some false)) with
                  | None => None
                  | Some (true, a2) => Some (true, a2)
                  | Some (false, a2) => Some (false, js_set a2 nextVar None)
                  end
              end
          end
      end
  end.

(** [new Array(this.numVars + 1).fill(undefined)] *)
Definition freshAssignment (s : t) : Assignment :=
  replicate (S (numVars s)) None.

(** [solve()].  The outer option is the fuel bound (never hit, see
    [solve_returns]); the inner one is the JavaScript result, [None] being
    [null]. *)
Definition solve (s : t) : option (option Assignment) :=
  match dpll s (S (numVars s)) (freshAssignment s) with
  | None => None
  | Some (true, a) => Some (Some a)
  | Some (false, _) => Some None
  end.

End SATSolver.


(** ** The reference search of the design document

    A second, independent definition that follows the prose of the design
    (section 4.1, steps 1 to 4) rather than the JavaScript: clauses are
    classified with three-valued logic, the assignment is a persistent value
    handed to each recursive call (no undo), and the variables still to be
    branched on are kept as an explicit increasing list, so that its head is
    the lowest-numbered unassigned variable. *)

Module Reference.

Inductive Status := Satisfied | Violated | Undecided.

(** The current value of a literal, if its variable is assigned. *)
Definition literal_value (a : Assignment) (lit : Z) : option bool :=
  match js_get a (Z.abs_nat lit) with
  | None => None
  | Some b => Some (if (0 <? lit)%Z then b else negb b)
  end.

(** Step 1: satisfied if at least one literal currently evaluates true,
    violated if every literal currently evaluates false, else undecided. *)
Definition clause_status (a : Assignment) (clause : list Z) : Status :=
  if existsb (fun lit => bool_decide (literal_value a lit = Some true)) clause
  then Satisfied
  else if forallb (fun lit => bool_decide (literal_value a lit = Some false)) clause
  then Violated
  else Undecided.

Definition is_violated (st : Status) : bool :=
  match st with Violated => true | _ => false end.

Definition is_satisfied (st : Status) : bool :=
  match st with Satisfied => true | _ => false end.

(** Steps 2 to 4.  [vars] lists the unassigned variables in increasing
    order.  The design leaves open what happens when clauses are undecided
    and no variable is left; the reference then stops with the assignment it
    has. *)
Fixpoint search (cls : list (list Z)) (vars : list nat) (a : Assignment)
    : option Assignment :=
  if existsb (fun c => is_violated (clause_status a c)) cls then None
  else if forallb (fun c => is_satisfied (clause_status a c)) cls then Some a
  else
    match vars with
    | [] => Some a
    | v :: rest =>
        match search cls rest (<[v:=Some true]> a) with
        | Some model => Some model
        | None => search cls rest (<[v:=Some false]> a)
        end
    end.

(** All variables [1..numVars] unassigned at the start. *)
Definition decide_formula (cls : list (list Z)) (numVars : nat)
    : option Assignment :=
  search cls (seq 1 numVars) (replicate (S numVars) None).

End Reference.

(** ** The placement encoder and decoder ([src/unnamed/part_000]) *)

Module UnifiedLayoutOptimizer.

Import SATSolver.

(** *** Data *)

(** An entry of [data.categories]. *)
Record Category := {
  cat_name : string;
  cat_color : string
}.

(** An entry of [data.organizations]; [x] and [y] are absent until a layout
    writes them. *)
Record Organization := {
  org_name : string;
  org_categories : list string;
  org_x : option float;
  org_y : option float
}.

Record Data := {
  categories : list Category;
  organizations : list Organization
}.

(** An element of the array built by [analyzeRelationships]. *)
Record Analysis := {
  an_index : nat;
  an_name : string;
  an_color : string;
  an_overlaps : list nat;
  an_orgCount : nat
}.

(** A circle of a layout.  The scratch fields [fx], [fy] of the force
    simulation are never read outside [createCircleLayout] and are left
    out. *)
Record Circle := {
  c_index : nat;
  c_name : string;
  c_color : string;
  c_x : float;
  c_y : float;
  c_r : float;
  c_labelX : option float;
  c_labelY : option float
}.

(** An organisation candidate [{x, y, score}]. *)
Record Position := {
  pos_x : float;
  pos_y : float;
  pos_score : float
}.

(** A label candidate [{x, y, angle}]. *)
Record LabelPosition := {
  lp_x : float;
  lp_y : float;
  lp_angle : float
}.

(** The object returned by [encodeSAT]. *)
Record Encoding := {
  orgVars : list (list nat);
  labelVars : list (list nat);
  enc_circles : list Circle
}.

(** The object returned by [extractSolution] and [fallbackLayout]. *)
Record Layout := {
  lay_circles : list Circle;
  lay_organizations : list Organization
}.

(** [{left, right, top, bottom}] *)
Record Bounds := {
  b_left : float;
  b_right : float;
  b_top : float;
  b_bottom : float
}.

(** *** Numbers *)

(** An array or string length as a JavaScript number (exact below 2^53). *)
Definition float_of_nat (n : nat) : float :=
  PrimFloat.of_uint63 (Uint63.of_Z (Z.of_nat n)).

(** [Math.max(a, b)]: NaN is contagious and [+0] is larger than [-0]. *)
Definition Math_max (a b : float) : float :=
  if PrimFloat.is_nan a || PrimFloat.is_nan b then PrimFloat.nan
  else if (a <? b)%float then b
  else if (b <? a)%float then a
  else if PrimFloat.get_sign a then b else a.

(** [Math.min(a, b)] *)
Definition Math_min (a b : float) : float :=
  if PrimFloat.is_nan a || PrimFloat.is_nan b then PrimFloat.nan
  else if (a <? b)%float then a
  else if (b <? a)%float then b
  else if PrimFloat.get_sign a then a else b.

(** [arr.includes(name)] on an array of strings. *)
Definition includes (arr : list string) (name : string) : bool :=
  existsb (String.eqb name) arr.

(** *** Overlap predicates *)

(** [positionsOverlap(pos1, pos2, minDist)] *)
Definition positionsOverlap (pos1 pos2 : Position) (minDist : float) : bool :=
  let dx := (pos_x pos1 - pos_x pos2)%float in
  let dy := (pos_y pos1 - pos_y pos2)%float in
  (PrimFloat.sqrt (dx * dx + dy * dy) <? minDist)%float.

(** [getTextBounds(text, x, y)] *)
Definition getTextBounds (text : string) (x y : float) : Bounds :=
  let charWidth := 10%float in
  let textWidth := (float_of_nat (String.length text) * charWidth + 20)%float in
  let textHeight := (14 * 1.5)%float in
  {| b_left := (x - textWidth / 2)%float;
     b_right := (x + textWidth / 2)%float;
     b_top := (y - textHeight)%float;
     b_bottom := (y + 8)%float |}.

(** [labelsOverlap(pos1, text1, pos2, text2)] *)
Definition labelsOverlap (pos1 : LabelPosition) (text1 : string)
    (pos2 : LabelPosition) (text2 : string) : bool :=
  let bounds1 := getTextBounds text1 (lp_x pos1) (lp_y pos1) in
  let bounds2 := getTextBounds text2 (lp_x pos2) (lp_y pos2) in
  let padding := 15%float in
  negb
    ((b_right bounds1 + padding <? b_left bounds2)%float
     || (b_right bounds2 + padding <? b_left bounds1)%float
     || (b_bottom bounds1 + padding <? b_top bounds2)%float
     || (b_bottom bounds2 + padding <? b_top bounds1)%float).

(** [labelOverlapsCircle(labelPos, labelText, circle)] *)
Definition labelOverlapsCircle (labelPos : LabelPosition) (labelText : string)
    (circle : Circle) : bool :=
  let bounds := getTextBounds labelText (lp_x labelPos) (lp_y labelPos) in
  let closestX := Math_max (b_left bounds) (Math_min (c_x circle) (b_right bounds)) in
  let closestY := Math_max (b_top bounds) (Math_min (c_y circle) (b_bottom bounds)) in
  let dx := (closestX - c_x circle)%float in
  let dy := (closestY - c_y circle)%float in
  (dx * dx + dy * dy <? c_r circle * c_r circle)%float.

(** *** Encoding *)

(** [positions.map(() => sat.newVar())] *)
Fixpoint allocRow {A : Type} (positions : list A) (sat : t) : list nat * t :=
  match positions with
  | [] => ([], sat)
  | _ :: rest =>
      let '(v, sat1) := newVar sat in
      let '(vs, sat2) := allocRow rest sat1 in
      (v :: vs, sat2)
  end.

(** [candidates.map(positions => positions.map(() => sat.newVar()))] *)
Fixpoint allocVars {A : Type} (candidates : list (list A)) (sat : t)
    : list (list nat) * t :=
  match candidates with
  | [] => ([], sat)
  | positions :: rest =>
      let '(row, sat1) := allocRow positions sat in
      let '(rows, sat2) := allocVars rest sat1 in
      (row :: rows, sat2)
  end.

(** The literal [v] and the literal [-v] of a variable. *)
Definition pos (v : nat) : Z := Z.of_nat v.
Definition neg (v : nat) : Z := (- Z.of_nat v)%Z.

(** [for (let i = start; i < start + count; i++) body(i)], threading the
    solver; [None] is a thrown [TypeError] (a property read on
    [undefined]), which nothing in the class catches. *)
Fixpoint for_range (start count : nat) (body : nat -> t -> option t) (sat : t)
    : option t :=
  match count with
  | 0 => Some sat
  | S count =>
      match body start sat with
      | None => None
      | Some sat1 => for_range (S start) count body sat1
      end
  end.

(** The two nested loops over [p1 < p2] adding [[-row[p1], -row[p2]]]. *)
Fixpoint atMostOne (row : list nat) (sat : t) : t :=
  match row with
  | [] => sat
  | v1 :: rest =>
      atMostOne rest
        (fold_left (fun sat v2 => addClause sat [neg v1; neg v2]) rest sat)
  end.

(** The body of the two "exactly one position" callbacks for the row of
    selector variables of one entity. *)
Definition exactlyOne (row : list nat) (sat : t) : t :=
  match row with
  | [] => sat
  | _ => atMostOne row (addClause sat (map pos row))
  end.

(** [things.forEach((_, i) => { ... vars[i] ... })] for [count] things. *)
Definition exactlyOneEach (count : nat) (vars : list (list nat)) (sat : t)
    : option t :=
  for_range 0 count
    (fun i sat =>
       match vars !! i with
       | None => None
       | Some row => Some (exactlyOne row sat)
       end)
    sat.

(** The four nested loops of a "no overlaps" block over [count] entities.
    [overlap i ai j aj] is the test of the innermost [if], [None] when an
    operand it reads is missing.  A selector missing from [vars] would put
    [NaN] into the clause; [encodeSAT] builds [vars] from [candidates], row
    by row, so that every candidate has its selector. *)
Definition noOverlaps {A : Type} (count : nat) (candidates : list (list A))
    (vars : list (list nat)) (overlap : nat -> A -> nat -> A -> option bool)
    (sat : t) : option t :=
  for_range 0 count (fun i =>
    for_range (S i) (count - S i) (fun j sat =>
      match candidates !! i with
      | None => None
      | Some ci =>
          for_range 0 (length ci) (fun pi sat =>
            match candidates !! j with
            | None => None
            | Some cj =>
                for_range 0 (length cj) (fun pj sat =>
                  match ci !! pi, cj !! pj with
                  | Some ai, Some aj =>
                      match overlap i ai j aj with
                      | None => None
                      | Some false => Some sat
                      | Some true =>
                          match vars !! i ≫= (.!! pi), vars !! j ≫= (.!! pj) with
                          | Some vi, Some vj =>
                              Some (addClause sat [neg vi; neg vj])
                          | _, _ => None
                          end
                      end
                  | _, _ => None
                  end) sat
            end) sat
      end)) sat.

(** The last block of [encodeSAT]: the body of its [if] is a comment. *)
Definition labelCircleBlock (circles : list Circle)
    (labelCandidates : list (list LabelPosition)) (sat : t) : option t :=
  for_range 0 (length circles) (fun circleIdx sat =>
    match circles !! circleIdx, labelCandidates !! circleIdx with
    | Some circle, Some cands =>
        Some (fold_left (fun sat labelPos =>
                fold_left (fun sat otherCircle =>
                  if labelOverlapsCircle labelPos (c_name circle) otherCircle
                  then sat else sat) circles sat) cands sat)
    | _, _ => None
    end) sat.

(** [encodeSAT(sat, data, analysis, circleCandidates, orgCandidates,
    labelCandidates)]; the result pairs the mutated solver with the returned
    object. *)
Definition encodeSAT (sat : t) (data : Data) (analysis : list Analysis)
    (circleCandidates : list (list Circle))
    (orgCandidates : list (list Position))
    (labelCandidates : list (list LabelPosition)) : option (t * Encoding) :=
  let '(orgVars, sat) := allocVars orgCandidates sat in
  let '(labelVars, sat) := allocVars labelCandidates sat in
  let nOrgs := length (organizations data) in
  sat ← exactlyOneEach nOrgs orgVars sat;
  circles ← circleCandidates !! 0;
  sat ← exactlyOneEach (length circles) labelVars sat;
  sat ← noOverlaps nOrgs orgCandidates orgVars
          (fun _ a _ b => Some (positionsOverlap a b 60)) sat;
  sat ← noOverlaps (length circles) labelCandidates labelVars
          (fun i a j b =>
             match circles !! i, circles !! j with
             | Some ci, Some cj => Some (labelsOverlap a (c_name ci) b (c_name cj))
             | _, _ => None
             end) sat;
  sat ← labelCircleBlock circles labelCandidates sat;
  Some (sat, {| orgVars := orgVars; labelVars := labelVars; enc_circles := circles |}).

(** *** Decoding *)

(** The inner [for] of the two callbacks of [extractSolution]: the first
    [pi] in [pi .. pi + count) with [solution[row[pi]] === true]. *)
Fixpoint firstTrue (solution : Assignment) (row : list nat) (pi count : nat)
    : option nat :=
  match count with
  | 0 => None
  | S count =>
      let selected :=
        match row !! pi with
        | Some v => bool_decide (js_get solution v = Some true)
        | None => false
        end in
      if selected then Some pi else firstTrue solution row (S pi) count
  end.

(** The candidate picked for entity [i].  The outer [None] is a
    [TypeError] ([candidates[i]] or [vars[i]] missing), the inner one an
    entity left without placement. *)
Definition chosen {A : Type} (solution : Assignment) (vars : list (list nat))
    (candidates : list (list A)) (i : nat) : option (option A) :=
  match candidates !! i with
  | None => None
  | Some [] => Some None
  | Some cands =>
      match vars !! i with
      | None => None
      | Some row =>
          match firstTrue solution row 0 (length cands) with
          | None => Some None
          | Some pi => Some (cands !! pi)
          end
      end
  end.

(** [arr.forEach((x, i) => ...)] where the callback updates [x] in place. *)
Fixpoint forEach_from {A : Type} (i : nat) (f : nat -> A -> option A)
    (arr : list A) : option (list A) :=
  match arr with
  | [] => Some []
  | x :: rest =>
      match f i x with
      | None => None
      | Some x' =>
          match forEach_from (S i) f rest with
          | None => None
          | Some rest' => Some (x' :: rest')
          end
      end
  end.

Definition placeOrg (org : Organization) (p : option Position) : Organization :=
  match p with
  | None => org
  | Some p =>
      {| org_name := org_name org; org_categories := org_categories org;
         org_x := Some (pos_x p); org_y := Some (pos_y p) |}
  end.

Definition placeLabel (circle : Circle) (x y : float) : Circle :=
  {| c_index := c_index circle; c_name := c_name circle;
     c_color := c_color circle; c_x := c_x circle; c_y := c_y circle;
     c_r := c_r circle; c_labelX := Some x; c_labelY := Some y |}.

(** [extractSolution(solution, encoding, data, circleCandidates,
    orgCandidates, labelCandidates)] *)
Definition extractSolution (solution : Assignment) (encoding : Encoding)
    (data : Data) (circleCandidates : list (list Circle))
    (orgCandidates : list (list Position))
    (labelCandidates : list (list LabelPosition)) : option Layout :=
  orgs ← forEach_from 0
            (fun i org =>
               placeOrg org <$> chosen solution (orgVars encoding) orgCandidates i)
            (organizations data);
  circles ← forEach_from 0
               (fun i circle =>
                  p ← chosen solution (labelVars encoding) labelCandidates i;
                  Some (match p with
                        | None => circle
                        | Some p => placeLabel circle (lp_x p) (lp_y p)
                        end))
               (enc_circles encoding);
  Some {| lay_circles := circles; lay_organizations := orgs |}.

(** *** The optimizer object *)

(** The instance fields, and the methods that are not embedded:
    [createCircleLayout] and [generateLabelCandidates] call [Math.cos] and
    [Math.sin], [generateOrgCandidates] runs float-stepped grid loops and a
    comparator sort.  They are the candidate suppliers of section 6 of the
    design and enter only through what they return. *)
Class Optimizer := {
  width : float;
  height : float;
  createCircleLayout : list Analysis -> float -> float -> list Circle;
  generateOrgCandidates :
    list Organization -> list (list Circle) -> list (list Position);
  generateLabelCandidates : list (list Circle) -> list (list LabelPosition)
}.

(** The number of organisations whose categories satisfy [p]:
    [data.organizations.filter(org => ...).length]. *)
Definition countOrgs (data : Data) (p : Organization -> bool) : nat :=
  length (List.filter p (organizations data)).

(** [analyzeRelationships(data)] *)
Definition analyzeRelationships (data : Data) : list Analysis :=
  imap (fun i cat =>
          {| an_index := i;
             an_name := cat_name cat;
             an_color := cat_color cat;
             an_overlaps :=
               imap (fun j other =>
                       if Nat.eqb i j then 0
                       else countOrgs data (fun org =>
                              includes (org_categories org) (cat_name cat)
                              && includes (org_categories org) (cat_name other)))
                    (categories data);
             an_orgCount :=
               countOrgs data (fun org =>
                 includes (org_categories org) (cat_name cat)) |})
       (categories data).

Section Methods.
Context `{this : Optimizer}.

(** [generateCircleCandidates(analysis)] *)
Definition generateCircleCandidates (analysis : list Analysis)
    : list (list Circle) :=
  let centerX := (width / 2)%float in
  let centerY := (height / 2)%float in
  let defaultLayout := createCircleLayout analysis centerX centerY in
  defaultLayout ::
  map (fun variant =>
         createCircleLayout analysis
           (centerX + (variant - 2) * 50)%float
           (centerY + (variant - 2) * 50)%float)
      [0; 1; 2; 3; 4]%float.

(** [fallbackLayout(data, analysis)] *)
Definition fallbackLayout (data : Data) (analysis : list Analysis) : Layout :=
  let circles :=
    createCircleLayout analysis (width / 2)%float (height / 2)%float in
  let orgs :=
    map (fun org =>
           let relevantCircles :=
             List.filter (fun c => includes (org_categories org) (c_name c))
                         circles in
           if Nat.ltb 0 (length relevantCircles) then
             let n := float_of_nat (length relevantCircles) in
             {| org_name := org_name org;
                org_categories := org_categories org;
                org_x := Some (fold_left (fun sum c => sum + c_x c)
                                  relevantCircles 0 / n)%float;
                org_y := Some (fold_left (fun sum c => sum + c_y c)
                                  relevantCircles 0 / n)%float |}
           else org)
        (organizations data) in
  let circles :=
    map (fun circle =>
           placeLabel circle (c_x circle) (c_y circle - c_r circle - 30)%float)
        circles in
  {| lay_circles := circles; lay_organizations := orgs |}.

(** Which of the two layout producers [optimize] invoked. *)
Inductive Call := CallFallbackLayout | CallExtractSolution.

(** [optimize(data)].  The result pairs the calls made after solving with
    the returned layout; [None] is an uncaught exception (or the fuel bound
    of [solve], which is never hit). *)
Definition optimize (data : Data) : option (list Call * Layout) :=
  let analysis := analyzeRelationships data in
  let circleCandidates := generateCircleCandidates analysis in
  let orgCandidates :=
    generateOrgCandidates (organizations data) circleCandidates in
  let labelCandidates := generateLabelCandidates circleCandidates in
  '(sat, encoding) ← encodeSAT SATSolver.new data analysis circleCandidates
                        orgCandidates labelCandidates;
  solution ← solve sat;
  match solution with
  | None => Some ([CallFallbackLayout], fallbackLayout data analysis)
  | Some solution =>
      layout ← extractSolution solution encoding data circleCandidates
                 orgCandidates labelCandidates;
      Some ([CallExtractSolution], layout)
  end.

End Methods.

End UnifiedLayoutOptimizer.

Import SATSolver.
Import UnifiedLayoutOptimizer.

(** ** The suppliers of circles and label candidates

    [generateLabelCandidates] and [createCircleLayout] of
    [src/unnamed/part_000], with [Math.cos] and [Math.sin] as parameters:
    ECMAScript leaves their results to the implementation. *)

Module Suppliers.

#[local] Set Warnings "-inexact-float".

(** [Math.PI] *)
Definition Math_PI : float := 0x1.921fb54442d18p+1%float.

(** The loop counter [i] of the 24 directions, as JavaScript numbers. *)
Definition directions : list float := map float_of_nat (seq 0 24).

(** [generateLabelCandidates(circleCandidates)]; [None] is the [TypeError] of
    [referenceCircles.map] when there is no first layout. *)
Definition generateLabelCandidates (cos sin : float → float)
    (circleCandidates : list (list Circle))
    : option (list (list LabelPosition)) :=
  let numDirections := 24%float in
  let labelDistance := 65%float in
  match circleCandidates !! 0 with
  | None => None
  | Some referenceCircles =>
      Some (map (λ circle,
              map (λ i,
                let angle := (i / numDirections * Math_PI * 2)%float in
                let x := (c_x circle + (c_r circle + labelDistance) * cos angle)%float in
                let y := (c_y circle + (c_r circle + labelDistance) * sin angle)%float in
                {| lp_x := x; lp_y := y;
                   lp_angle := (i * 360 / numDirections)%float |})
              directions)
            referenceCircles)
  end.

(** *** [createCircleLayout]

    Also with [Math.cos] and [Math.sin] as parameters.  During the force
    simulation every circle carries the scratch fields [fx] and [fy]; they
    are reset at the start of each iteration and dropped from the result, as
    in [Circle]. *)

Record SimCircle := {
  sim_circle : Circle;
  sim_fx : float;
  sim_fy : float
}.

(** [x || d] on numbers: [0], [-0] and [NaN] are falsy. *)
Definition js_or (x d : float) : float :=
  if PrimFloat.is_zero x || PrimFloat.is_nan x then d else x.

(** [Math.max(...xs)] *)
Definition Math_max_all (xs : list float) : float :=
  fold_left Math_max xs PrimFloat.neg_infinity.

Definition moveTo (c : Circle) (x y : float) : Circle :=
  {| c_index := c_index c; c_name := c_name c; c_color := c_color c;
     c_x := x; c_y := y; c_r := c_r c;
     c_labelX := c_labelX c; c_labelY := c_labelY c |}.

(** [circles[i].fx += dfx; circles[i].fy += dfy] *)
Definition addForce (i : nat) (dfx dfy : float) (sims : list SimCircle)
    : list SimCircle :=
  alter (λ s, {| sim_circle := sim_circle s;
                 sim_fx := (sim_fx s + dfx)%float;
                 sim_fy := (sim_fy s + dfy)%float |}) i sims.

(** [circles[i].fx -= dfx; circles[i].fy -= dfy] *)
Definition subForce (i : nat) (dfx dfy : float) (sims : list SimCircle)
    : list SimCircle :=
  alter (λ s, {| sim_circle := sim_circle s;
                 sim_fx := (sim_fx s - dfx)%float;
                 sim_fy := (sim_fy s - dfy)%float |}) i sims.

(** The body of the two nested loops over [i < j]. *)
Definition pairForce (analysis : list Analysis) (i j : nat)
    (sims : list SimCircle) : list SimCircle :=
  match sims !! i, sims !! j with
  | Some si, Some sj =>
      let ci := sim_circle si in
      let cj := sim_circle sj in
      let dx := (c_x cj - c_x ci)%float in
      let dy := (c_y cj - c_y ci)%float in
      let dist := js_or (PrimFloat.sqrt (dx * dx + dy * dy)) 1 in
      let shouldOverlap :=
        match analysis !! i ≫= (λ a, an_overlaps a !! j) with
        | Some n => Nat.ltb 0 n
        | None => false
        end in
      if shouldOverlap then
        let target := ((c_r ci + c_r cj) * 0.7)%float in
        let force := ((dist - target) * 0.02)%float in
        subForce j (dx / dist * force)%float (dy / dist * force)%float
          (addForce i (dx / dist * force)%float (dy / dist * force)%float sims)
      else
        let minSep := (c_r ci + c_r cj + 180)%float in
        if (dist <? minSep)%float then
          let force := ((minSep - dist) * 0.03)%float in
          addForce j (dx / dist * force)%float (dy / dist * force)%float
            (subForce i (dx / dist * force)%float (dy / dist * force)%float sims)
        else sims
  | _, _ => sims
  end.

(** The pairs [(i, j)], [i < j < n], in the order the loops visit them. *)
Definition pairs (n : nat) : list (nat * nat) :=
  flat_map (λ i, map (pair i) (seq (S i) (n - S i))) (seq 0 n).

(** One iteration of the simulation. *)
Definition simulate (analysis : list Analysis) (sims : list SimCircle)
    : list SimCircle :=
  let reset :=
    map (λ s, {| sim_circle := sim_circle s; sim_fx := 0; sim_fy := 0 |}) sims in
  let forced :=
    fold_left (λ sims ij, pairForce analysis (fst ij) (snd ij) sims)
      (pairs (length sims)) reset in
  map (λ s,
         {| sim_circle :=
              moveTo (sim_circle s)
                (c_x (sim_circle s) + sim_fx s * 0.9)%float
                (c_y (sim_circle s) + sim_fy s * 0.9)%float;
            sim_fx := sim_fx s; sim_fy := sim_fy s |}) forced.

(** The radius given to a category. *)
Definition radiusOf (analysis : list Analysis) (cat : Analysis) : float :=
  (80 + float_of_nat (an_orgCount cat)
        / Math_max_all (map (λ c, float_of_nat (an_orgCount c)) analysis)
        * 80)%float.

Definition createCircleLayout (cos sin : float → float)
    (analysis : list Analysis) (centerX centerY : float) : list Circle :=
  let circles :=
    imap (λ i cat,
            let radius := radiusOf analysis cat in
            let angle :=
              (float_of_nat i / float_of_nat (length analysis) * Math_PI * 2)%float in
            let distance := 150%float in
            {| c_index := i; c_name := an_name cat; c_color := an_color cat;
               c_x := (centerX + cos angle * distance)%float;
               c_y := (centerY + sin angle * distance)%float;
               c_r := radius; c_labelX := None; c_labelY := None |})
         analysis in
  let sims :=
    map (λ c, {| sim_circle := c; sim_fx := 0; sim_fy := 0 |}) circles in
  map sim_circle (Nat.iter 200 (simulate analysis) sims).

End Suppliers.

(** ** Vocabulary of the statements *)

(** Two arrays that answer every read alike. *)
Definition same_reads (a b : Assignment) : Prop :=
  ∀ i, js_get a i = js_get b i.

(** Two calls of [dpll] that cannot be told apart: both hit the fuel bound,
    or both return the same value and leave arrays that read alike. *)
Definition same_outcome (o1 o2 : option (bool * Assignment)) : Prop :=
  match o1, o2 with
  | None, None => True
  | Some (r1, a1), Some (r2, a2) => r1 = r2 ∧ same_reads a1 a2
  | _, _ => False
  end.

(** A literal that currently evaluates to [b]. *)
Definition lit_is (a : Assignment) (lit : Z) (b : bool) : Prop :=
  ∃ val, js_get a (Z.abs_nat lit) = Some val ∧ litVal lit val = b.

(** The search as a relation: [dpll_run s a r a'] holds when a call
    [dpll(a)] returns [r] and leaves the shared array as [a']; one
    constructor per return path of the JavaScript function. *)
Inductive dpll_run (s : t) : Assignment → bool → Assignment → Prop :=
  | run_conflict a :
      scanClauses (clauses s) a true = Conflict →
      dpll_run s a false a
  | run_satisfied a :
      scanClauses (clauses s) a true = Scanned true →
      dpll_run s a true a
  | run_all_assigned a :
      scanClauses (clauses s) a true = Scanned false →
      chooseVar s a = None →
      dpll_run s a true a
  | run_true a v a1 :
      scanClauses (clauses s) a true = Scanned false →
      chooseVar s a = Some v →
      dpll_run s (js_set a v (Some true)) true a1 →
      dpll_run s a true a1
  | run_false a v a1 a2 :
      scanClauses (clauses s) a true = Scanned false →
      chooseVar s a = Some v →
      dpll_run s (js_set a v (Some true)) false a1 →
      dpll_run s (js_set a1 v (Some false)) true a2 →
      dpll_run s a true a2
  | run_backtrack a v a1 a2 :
      scanClauses (clauses s) a true = Scanned false →
      chooseVar s a = Some v →
      dpll_run s (js_set a v (Some true)) false a1 →
      dpll_run s (js_set a1 v (Some false)) false a2 →
      dpll_run s a false (js_set a2 v None).

(** The number of variables that are still unassigned. *)
Definition unassigned (s : t) (a : Assignment) : nat :=
  length (List.filter (fun i => is_undefined (js_get a i)) (seq 1 (numVars s))).

(** Every clause mentions allocated variables only. *)
Definition well_formed (s : t) : Prop :=
  ∀ c, In c (clauses s) → ∀ lit, In lit c → 1 ≤ Z.abs_nat lit ≤ numVars s.

(** A total boolean assignment. *)
Definition Valuation := nat → bool.

(** The literal [lit] is true under [v]. *)
Definition holds (v : Valuation) (lit : Z) : Prop :=
  litVal lit (v (Z.abs_nat lit)) = true.

(** Every clause has a literal that is true under [v]. *)
Definition models (v : Valuation) (cls : list (list Z)) : Prop :=
  ∀ c, In c cls → ∃ lit, In lit c ∧ holds v lit.

(** [v] agrees with everything [a] has assigned. *)
Definition extends (v : Valuation) (a : Assignment) : Prop :=
  ∀ i b, js_get a i = Some b → v i = b.

(** Every clause has a literal that is true under the array [a]. *)
Definition satisfies (a : Assignment) (cls : list (list Z)) : Prop :=
  ∀ c, In c cls → ∃ lit, In lit c ∧ lit_is a lit true.

(** The variables [1..k] are assigned; index 0 and everything above [k] is
    not. *)
Definition assigned_upto (k : nat) (a : Assignment) : Prop :=
  (∀ i, 1 ≤ i ≤ k → ∃ b, js_get a i = Some b) ∧
  (∀ i, i = 0 ∨ k < i → js_get a i = None).

(** [s'] has the variables of [s] and its clauses, followed by new ones. *)
Definition grows (s s' : t) : Prop :=
  numVars s' = numVars s ∧ ∃ extra, clauses s' = clauses s ++ extra.

(** All clauses of a solver satisfy [good]. *)
Definition all_clauses (good : list Z → Prop) (s : t) : Prop :=
  ∀ c, In c (clauses s) → good c.

(** Rows of variables as [allocVars] hands them out from [n] on: one row
    per candidate list, of the same length, holding fresh consecutive
    identifiers. *)
Fixpoint rows_from {A} (n : nat) (candidates : list (list A)) : list (list nat) :=
  match candidates with
  | [] => []
  | positions :: rest =>
      seq (S n) (length positions) :: rows_from (n + length positions) rest
  end.

(** The number of candidates over all entities. *)
Definition total_length {A} (candidates : list (list A)) : nat :=
  list_sum (map length candidates).

(** The solver after the two allocation passes of [encodeSAT]. *)
Definition allocated (sat : t) (orgCandidates : list (list Position))
    (labelCandidates : list (list LabelPosition)) : t :=
  {| clauses := clauses sat;
     numVars := numVars sat + total_length orgCandidates
                + total_length labelCandidates |}.

(** Position [p] of [row] holds the one selector that is [true] in [a]. *)
Definition exactly_one_true (a : Assignment) (row : list nat) (p : nat) : Prop :=
  (∃ v, row !! p = Some v ∧ js_get a v = Some true) ∧
  (∀ q w, row !! q = Some w → js_get a w = Some true → q = p).

(** A decidable form of [well_formed]. *)
Definition well_formedb (s : t) : bool :=
  forallb (λ c,
    forallb (λ lit, (1 <=? Z.abs_nat lit) && (Z.abs_nat lit <=? numVars s)) c)
    (clauses s).

(** What a layout must not change: the fields of an organisation other than
    its coordinates, and the fields of a circle other than its label
    coordinates. *)
Definition org_identity (org : Organization) : string * list string :=
  (org_name org, org_categories org).

Definition circle_geometry (c : Circle)
    : nat * string * string * float * float * float :=
  (c_index c, c_name c, c_color c, c_x c, c_y c, c_r c).

(** The clauses of an "exactly one" block over the first [count] rows of
    [vars]: the row itself, if it is not empty, and one clause per pair of
    positions of a row. *)
Inductive exactly_one_clause (count : nat) (vars : list (list nat))
    : list Z → Prop :=
  | at_least_one_clause i row :
      i < count → vars !! i = Some row → row ≠ [] →
      exactly_one_clause count vars (map pos row)
  | at_most_one_clause i row p1 p2 v1 v2 :
      i < count → vars !! i = Some row → p1 < p2 →
      row !! p1 = Some v1 → row !! p2 = Some v2 →
      exactly_one_clause count vars [neg v1; neg v2].

(** The clauses of a "no overlaps" block: one per pair of candidates of two
    different entities, the first before the second, that the test flags. *)
Inductive overlap_clause {A : Type} (count : nat) (candidates : list (list A))
    (vars : list (list nat)) (overlap : nat → A → nat → A → option bool)
    : list Z → Prop :=
  | flagged_pair_clause i j pi pj ai aj vi vj :
      i < j < count →
      candidates !! i ≫= (.!! pi) = Some ai →
      candidates !! j ≫= (.!! pj) = Some aj →
      overlap i ai j aj = Some true →
      vars !! i ≫= (.!! pi) = Some vi →
      vars !! j ≫= (.!! pj) = Some vj →
      overlap_clause count candidates vars overlap [neg vi; neg vj].

(** A placement problem has a solution: [selO] and [selL] pick a candidate
    for every organisation and every label that has candidates, and no two
    picks of the same kind are flagged by the overlap predicate of
    [encodeSAT]. *)
Definition conflict_free_choice (data : Data) (circles : list Circle)
    (orgCandidates : list (list Position))
    (labelCandidates : list (list LabelPosition))
    (selO selL : nat → nat) : Prop :=
  (∀ i cands, i < length (organizations data) →
     orgCandidates !! i = Some cands → cands ≠ [] → selO i < length cands) ∧
  (∀ i cands, i < length circles →
     labelCandidates !! i = Some cands → cands ≠ [] → selL i < length cands) ∧
  (∀ i j ci cj, i < j < length (organizations data) →
     orgCandidates !! i ≫= (.!! selO i) = Some ci →
     orgCandidates !! j ≫= (.!! selO j) = Some cj →
     positionsOverlap ci cj 60 = false) ∧
  (∀ i j li lj circle_i circle_j, i < j →
     circles !! i = Some circle_i → circles !! j = Some circle_j →
     labelCandidates !! i ≫= (.!! selL i) = Some li →
     labelCandidates !! j ≫= (.!! selL j) = Some lj →
     labelsOverlap li (c_name circle_i) lj (c_name circle_j) = false).

(** The selectors picked by [sel] from the first [count] rows. *)
Definition picked (count : nat) (vars : list (list nat)) (sel : nat → nat)
    : list nat :=
  omap (λ i, vars !! i ≫= (.!! sel i)) (seq 0 count).

(** The valuation that makes exactly the picked selectors true. *)
Definition choice_model (enc : Encoding) (nOrgs nCircles : nat)
    (selO selL : nat → nat) : Valuation :=
  λ v, bool_decide (v ∈ picked nOrgs (orgVars enc) selO
                        ++ picked nCircles (labelVars enc) selL).

(** [m] is true on a selector of the first [count] rows exactly when [sel]
    picks its position. *)
Definition picks (m : Valuation) (count : nat) (vars : list (list nat))
    (sel : nat → nat) : Prop :=
  ∀ i p v, i < count → vars !! i ≫= (.!! p) = Some v →
           (m v = true ↔ p = sel i).

(** The tests of the two "no overlaps" blocks of [encodeSAT]. *)
Definition orgTest : nat → Position → nat → Position → option bool :=
  λ _ a _ b, Some (positionsOverlap a b 60).

Definition labelTest (circles : list Circle)
    : nat → LabelPosition → nat → LabelPosition → option bool :=
  λ i a j b,
    match circles !! i, circles !! j with
    | Some ci, Some cj => Some (labelsOverlap a (c_name ci) b (c_name cj))
    | _, _ => None
    end.

(** What the force simulation must not change in a circle. *)
Definition circle_static (c : Circle)
    : nat * string * string * float * option float * option float :=
  (c_index c, c_name c, c_color c, c_r c, c_labelX c, c_labelY c).

(** An optimizer whose circles and label candidates come from the code of
    [createCircleLayout] and [generateLabelCandidates]; only the organisation
    candidates remain a parameter.  [optimize] calls
    [generateLabelCandidates] on six layouts, so the [TypeError] case of the
    supplier does not arise there. *)
Definition code_optimizer (cos sin : float → float) (w h : float)
    (genOrg : list Organization → list (list Circle) → list (list Position))
    : Optimizer :=
  {| width := w; height := h;
     createCircleLayout := Suppliers.createCircleLayout cos sin;
     generateOrgCandidates := genOrg;
     generateLabelCandidates := λ circleCandidates,
       default [] (Suppliers.generateLabelCandidates cos sin circleCandidates) |}.

(** ** Small inputs used to exercise the statements *)

Definition demo_circle (name : string) : Circle :=
  {| c_index := 0; c_name := name; c_color := "red";
     c_x := 0; c_y := 0; c_r := 100; c_labelX := None; c_labelY := None |}.

Definition demo_circles : list Circle := [demo_circle "A"; demo_circle "B"].

Definition demo_org (name : string) : Organization :=
  {| org_name := name; org_categories := ["A"%string];
     org_x := None; org_y := None |}.

Definition demo_data : Data :=
  {| categories := [{| cat_name := "A"; cat_color := "red" |};
                    {| cat_name := "B"; cat_color := "red" |}];
     organizations := [demo_org "first"; demo_org "second"] |}.

Definition at_point (x y : float) : Position :=
  {| pos_x := x; pos_y := y; pos_score := 0 |}.

Definition label_at (x y : float) : LabelPosition :=
  {| lp_x := x; lp_y := y; lp_angle := 0 |}.

(** The first organisation may sit at (0,0) or (100,0), the second only at
    (10,0), which is too close to (0,0). *)
Definition demo_orgCandidates : list (list Position) :=
  [[at_point 0 0; at_point 100 0]; [at_point 10 0]].

(** Both organisations have a single candidate, and the two collide. *)
Definition clash_orgCandidates : list (list Position) :=
  [[at_point 0 0]; [at_point 10 0]].

(** The first label may sit at (0,0), on the centre of its own circle, or at
    (0,100); the second only at (5,0), which collides with (0,0). *)
Definition demo_labelCandidates : list (list LabelPosition) :=
  [[label_at 0 0; label_at 0 100]; [label_at 5 0]].

Definition demo_formula : t :=
  {| clauses := [[1; 2]; [-1; -2]; [3]; [4; 5]; [-4; -5]; [6];
                 [-1; -3]; [-4; -6]]%Z;
     numVars := 6 |}.

Definition demo_encoding : Encoding :=
  {| orgVars := [[1; 2]; [3]]; labelVars := [[4; 5]; [6]];
     enc_circles := demo_circles |}.

Definition demo_solution : Assignment :=
  [None; Some false; Some true; Some true; Some false; Some true; Some true].

Definition demo_optimizer (orgCandidates : list (list Position)) : Optimizer :=
  {| width := 1000; height := 800;
     createCircleLayout := λ _ _ _, demo_circles;
     generateOrgCandidates := λ _ _, orgCandidates;
     generateLabelCandidates := λ _, demo_labelCandidates |}.

(** * Part II: properties *)

(** ** Scenarios of the design document *)

Example solve_scenario_A :
  solve (mk [[1; 2]%Z] 2) = Some (Some [None; Some true; None]).
Proof. reflexivity. Qed.

Example solve_scenario_B : solve (mk [[1]; [-1]]%Z 1) = Some None.
Proof. reflexivity. Qed.

Example solve_out_of_range :
  solve (mk [[5]%Z] 1) = Some (Some [None; Some true]).
Proof. reflexivity. Qed.

(** ** Arrays *)

Lemma js_get_set (a : Assignment) (i j : nat) (v : option bool) :
  js_get (js_set a i v) j = if decide (i = j) then v else js_get a j.
Proof.
  unfold js_get, js_set.
  destruct (decide (i < length a)) as [Hlt | Hge].
  - destruct (decide (i = j)) as [-> | Hne].
    + by rewrite list_lookup_insert_eq.
    + by rewrite list_lookup_insert_ne.
  - destruct (decide (i = j)) as [<- | Hne].
    + rewrite lookup_app_r by lia.
      rewrite lookup_app_r by (rewrite length_replicate; lia).
      rewrite length_replicate.
      by replace (i - length a - (i - length a)) with 0 by lia.
    + destruct (decide (j < length a)) as [Hj | Hj].
      * by rewrite lookup_app_l.
      * rewrite (lookup_ge_None_2 a j) by lia.
        rewrite lookup_app_r by lia.
        destruct (decide (j - length a < i - length a)) as [Hk | Hk].
        -- rewrite lookup_app_l by (rewrite length_replicate; lia).
           rewrite lookup_replicate_2; [done | lia].
        -- rewrite lookup_app_r by (rewrite length_replicate; lia).
           rewrite length_replicate.
           rewrite lookup_ge_None_2; [done | simpl; lia].
Qed.

Lemma js_get_set_eq (a : Assignment) (i : nat) (v : option bool) :
  js_get (js_set a i v) i = v.
Proof. rewrite js_get_set. by rewrite decide_True. Qed.

Lemma js_get_set_ne (a : Assignment) (i j : nat) (v : option bool) :
  i ≠ j → js_get (js_set a i v) j = js_get a j.
Proof. intros. rewrite js_get_set. by rewrite decide_False. Qed.

Lemma js_set_in_range (a : Assignment) (i : nat) (v : option bool) :
  i < length a → js_set a i v = <[i:=v]> a.
Proof. intros. unfold js_set. by rewrite decide_True. Qed.

Lemma length_js_set (a : Assignment) (i : nat) (v : option bool) :
  i < length a → length (js_set a i v) = length a.
Proof. intros. rewrite js_set_in_range by done. apply length_insert. Qed.

Lemma js_get_fresh (n i : nat) : js_get (replicate n None) i = None.
Proof.
  unfold js_get. destruct (replicate n None !! i) as [v|] eqn:E; [|done].
  by apply lookup_replicate in E as [-> _].
Qed.

(** Overwriting an entry three times, the last time with the value it had,
    gives back the array. *)
Lemma js_set_undo (a : Assignment) (i : nat) (v1 v2 : option bool) :
  i < length a →
  js_set (js_set (js_set a i v1) i v2) i (js_get a i) = a.
Proof.
  intros Hi.
  rewrite (js_set_in_range a) by done.
  rewrite (js_set_in_range (<[i:=v1]> a)) by (by rewrite length_insert).
  rewrite js_set_in_range by (by rewrite !length_insert).
  rewrite !list_insert_insert_eq.
  apply list_insert_id. unfold js_get.
  destruct (a !! i) as [v|] eqn:E; [done|].
  apply lookup_ge_None in E. lia.
Qed.

Lemma same_reads_set a b i v :
  same_reads a b → same_reads (js_set a i v) (js_set b i v).
Proof. intros H j. rewrite !js_get_set. by destruct (decide (i = j)). Qed.

(** ** Clause evaluation *)

Lemma evalClause_loop_true clause a h :
  evalClause_loop clause a h = Some true ↔ ∃ lit, In lit clause ∧ lit_is a lit true.
Proof.
  revert h. induction clause as [|lit rest IH]; intros h; simpl.
  - split; [by destruct h | intros (? & [] & _)].
  - destruct (js_get a (Z.abs_nat lit)) as [val|] eqn:Eg.
    + destruct (litVal lit val) eqn:El.
      * split; [|done]. intros _. exists lit. split; [by left|]. by exists val.
      * rewrite IH. split.
        -- intros (l & Hin & Hl). exists l. split; [by right | done].
        -- intros (l & [<- | Hin] & Hl); [|by exists l].
           destruct Hl as (val' & Hv & Ht). congruence.
    + rewrite IH. split.
      * intros (l & Hin & Hl). exists l. split; [by right | done].
      * intros (l & [<- | Hin] & Hl); [|by exists l].
        destruct Hl as (val' & Hv & _). congruence.
Qed.

Lemma evalClause_loop_false clause a h :
  evalClause_loop clause a h = Some false ↔
  h = false ∧ ∀ lit, In lit clause → lit_is a lit false.
Proof.
  revert h. induction clause as [|lit rest IH]; intros h; simpl.
  - destruct h.
    + split; [done | by intros [? _]].
    + split; [|done]. intros _. split; [done|]. intros ? [].
  - destruct (js_get a (Z.abs_nat lit)) as [val|] eqn:Eg.
    + destruct (litVal lit val) eqn:El.
      * split; [done|]. intros [_ H]. destruct (H lit) as (v & Hv & Hf); [by left|].
        congruence.
      * rewrite IH. split.
        -- intros [-> H]. split; [done|]. intros l [<- | Hin]; [by exists val | auto].
        -- intros [-> H]. split; [done|]. intros l Hin. apply H. by right.
    + rewrite IH. split; [by intros [? _]|].
      intros [_ H]. destruct (H lit) as (v & Hv & _); [by left | congruence].
Qed.

Lemma evalClause_true clause a :
  evalClause clause a = Some true ↔ ∃ lit, In lit clause ∧ lit_is a lit true.
Proof. apply evalClause_loop_true. Qed.

Lemma evalClause_false clause a :
  evalClause clause a = Some false ↔ ∀ lit, In lit clause → lit_is a lit false.
Proof.
  unfold evalClause. rewrite evalClause_loop_false.
  split; [by intros [_ ?] | by intros; split].
Qed.

Lemma evalClause_loop_same_reads clause a b h :
  same_reads a b → evalClause_loop clause a h = evalClause_loop clause b h.
Proof.
  intros Hab. revert h. induction clause as [|lit rest IH]; intros h; simpl; [done|].
  rewrite Hab. destruct (js_get b (Z.abs_nat lit)); [|done].
  by rewrite IH.
Qed.

Lemma scanClauses_same_reads cls a b acc :
  same_reads a b → scanClauses cls a acc = scanClauses cls b acc.
Proof.
  intros Hab. revert acc. induction cls as [|c rest IH]; intros acc; simpl; [done|].
  unfold evalClause. rewrite (evalClause_loop_same_reads c a b) by done.
  by destruct (evalClause_loop c b false) as [[]|].
Qed.

Lemma scanClauses_conflict cls a acc :
  scanClauses cls a acc = Conflict ↔ ∃ c, In c cls ∧ evalClause c a = Some false.
Proof.
  revert acc. induction cls as [|c rest IH]; intros acc; simpl.
  - split; [done | intros (? & [] & _)].
  - destruct (evalClause c a) as [[]|] eqn:E.
    + rewrite IH. split.
      * intros (c' & Hin & Hc'). exists c'. by split; [right|].
      * intros (c' & [<- | Hin] & Hc'); [congruence | by exists c'].
    + split; [|done]. intros _. exists c. by split; [left|].
    + rewrite IH. split.
      * intros (c' & Hin & Hc'). exists c'. by split; [right|].
      * intros (c' & [<- | Hin] & Hc'); [congruence | by exists c'].
Qed.

Lemma scanClauses_all_satisfied cls a acc :
  scanClauses cls a acc = Scanned true ↔
  acc = true ∧ ∀ c, In c cls → evalClause c a = Some true.
Proof.
  revert acc. induction cls as [|c rest IH]; intros acc; simpl.
  - split; [intros [= ->]; by split | by intros [-> _]].
  - destruct (evalClause c a) as [[]|] eqn:E.
    + rewrite IH. split.
      * intros [-> H]. split; [done|]. intros c' [<- | Hin]; auto.
      * intros [-> H]. split; [done|]. intros c' Hin. apply H. by right.
    + split; [done|]. intros [_ H]. specialize (H c (or_introl eq_refl)). congruence.
    + rewrite IH. split; [by intros [? _]|].
      intros [_ H]. specialize (H c (or_introl eq_refl)). congruence.
Qed.

(** ** Choosing the branching variable *)

Lemma find_seq_first (p : nat → bool) (start len v : nat) :
  List.find p (seq start len) = Some v →
  start ≤ v < start + len ∧ p v = true ∧ ∀ i, start ≤ i < v → p i = false.
Proof.
  revert start. induction len as [|len IH]; intros start; simpl; [done|].
  destruct (p start) eqn:E.
  - intros [= <-]. split; [lia|]. split; [done|]. intros; lia.
  - intros H. apply IH in H as (Hr & Hp & Hlow).
    split; [lia|]. split; [done|].
    intros i Hi. destruct (decide (i = start)) as [->|]; [done|]. apply Hlow. lia.
Qed.

Lemma find_seq_none (p : nat → bool) (start len : nat) :
  List.find p (seq start len) = None → ∀ i, start ≤ i < start + len → p i = false.
Proof.
  intros H i Hi. apply (find_none _ _ H). apply in_seq. lia.
Qed.

Lemma chooseVar_Some s a v :
  chooseVar s a = Some v →
  1 ≤ v ≤ numVars s ∧ js_get a v = None ∧
  ∀ i, 1 ≤ i < v → js_get a i ≠ None.
Proof.
  intros H. apply find_seq_first in H as (Hr & Hp & Hlow).
  split; [lia|]. split.
  - by destruct (js_get a v).
  - intros i Hi Hn. specialize (Hlow i Hi). by rewrite Hn in Hlow.
Qed.

Lemma chooseVar_None s a :
  chooseVar s a = None → ∀ i, 1 ≤ i ≤ numVars s → js_get a i ≠ None.
Proof.
  intros H i Hi Hn.
  pose proof (find_seq_none _ _ _ H i ltac:(lia)) as Hp. simpl in Hp.
  by rewrite Hn in Hp.
Qed.

Lemma chooseVar_same_reads s a b :
  same_reads a b → chooseVar s a = chooseVar s b.
Proof.
  intros Hab. unfold chooseVar.
  induction (seq 1 (numVars s)) as [|i l IH]; simpl; [done|].
  by rewrite Hab, IH.
Qed.

(** The search reads the array only through [a[i]]. *)
Lemma dpll_same_reads s fuel a b :
  same_reads a b → same_outcome (dpll s fuel a) (dpll s fuel b).
Proof.
  revert a b. induction fuel as [|fuel IH]; intros a b Hab; simpl; [done|].
  rewrite (scanClauses_same_reads _ a b) by done.
  destruct (scanClauses (clauses s) b true) as [|[]]; [done..|].
  rewrite (chooseVar_same_reads s a b) by done.
  destruct (chooseVar s b) as [v|]; [|done].
  pose proof (IH _ _ (same_reads_set a b v (Some true) Hab)) as H1.
  destruct (dpll s fuel (js_set a v (Some true))) as [[r1 a1]|],
           (dpll s fuel (js_set b v (Some true))) as [[r1' b1]|]; try done.
  destruct H1 as [<- H1]. destruct r1; [done|].
  pose proof (IH _ _ (same_reads_set a1 b1 v (Some false) H1)) as H2.
  destruct (dpll s fuel (js_set a1 v (Some false))) as [[r2 a2]|],
           (dpll s fuel (js_set b1 v (Some false))) as [[r2' b2]|]; try done.
  destruct H2 as [<- H2]. destruct r2; [done|].
  split; [done|]. by apply same_reads_set.
Qed.

(** ** The search as a relation *)

Lemma dpll_run_of_fuel s fuel a r a' :
  dpll s fuel a = Some (r, a') → dpll_run s a r a'.
Proof.
  revert a r a'. induction fuel as [|fuel IH]; intros a r a'; simpl; [done|].
  destruct (scanClauses (clauses s) a true) as [|[]] eqn:Escan.
  - intros [= <- <-]. by constructor.
  - intros [= <- <-]. by apply run_satisfied.
  - destruct (chooseVar s a) as [v|] eqn:Ev.
    2: { intros [= <- <-]. by apply run_all_assigned. }
    destruct (dpll s fuel (js_set a v (Some true))) as [[[] a1]|] eqn:E1; [| |done].
    { intros [= <- <-]. eapply run_true; eauto. }
    destruct (dpll s fuel (js_set a1 v (Some false))) as [[[] a2]|] eqn:E2; [| |done].
    { intros [= <- <-]. eapply run_false; eauto. }
    intros [= <- <-]. eapply run_backtrack; eauto.
Qed.

(** A failed call leaves every entry as it found it. *)
Lemma dpll_run_fail_same_reads s a r a' :
  dpll_run s a r a' → r = false → same_reads a' a.
Proof.
  induction 1 as [a|a|a|a v a1 _ Hv _ _|a v a1 a2 _ Hv _ _ _ _
                 |a v a1 a2 _ Hv _ IH1 _ IH2]; intros Hr; try done.
  apply chooseVar_Some in Hv as (_ & Hund & _).
  intros i. rewrite js_get_set.
  destruct (decide (v = i)) as [<- | Hne]; [done|].
  rewrite (IH2 eq_refl), js_get_set_ne by done.
  rewrite (IH1 eq_refl). by rewrite js_get_set_ne.
Qed.

(** On an array that covers all variables, as [solve] allocates it, a call
    never changes the length and a failed call gives back the very same
    array. *)
Lemma dpll_run_frame s a r a' :
  dpll_run s a r a' → numVars s < length a →
  length a' = length a ∧ (r = false → a' = a).
Proof.
  induction 1 as [a|a|a|a v a1 _ Hv _ IH1|a v a1 a2 _ Hv _ IH1 _ IH2
                 |a v a1 a2 _ Hv _ IH1 _ IH2]; intros Hlen; try done.
  - apply chooseVar_Some in Hv as (Hr & _).
    destruct IH1 as [Hl _]; [rewrite length_js_set; lia|].
    rewrite length_js_set in Hl by lia. done.
  - apply chooseVar_Some in Hv as (Hr & _).
    destruct IH1 as [Hl1 He1]; [rewrite length_js_set; lia|].
    rewrite length_js_set in Hl1 by lia.
    destruct IH2 as [Hl2 _]; [rewrite length_js_set; lia|].
    rewrite length_js_set in Hl2 by lia. split; [lia | done].
  - apply chooseVar_Some in Hv as (Hr & Hund & _).
    destruct IH1 as [Hl1 He1]; [rewrite length_js_set; lia|].
    rewrite length_js_set in Hl1 by lia.
    destruct IH2 as [Hl2 He2]; [rewrite length_js_set; lia|].
    rewrite length_js_set in Hl2 by lia.
    rewrite (He2 eq_refl), (He1 eq_refl), <- Hund.
    split; [|intros _]; rewrite js_set_undo; done || lia.
Qed.

(** ** Termination *)

Lemma unassigned_same_reads s a b :
  same_reads a b → unassigned s a = unassigned s b.
Proof.
  intros Hab. unfold unassigned. f_equal.
  apply List.filter_ext. intros i. by rewrite Hab.
Qed.

Lemma unassigned_le s a : unassigned s a ≤ numVars s.
Proof.
  unfold unassigned.
  etrans; [apply List.filter_length_le|]. by rewrite length_seq.
Qed.

Lemma filter_length_drop (p q : nat → bool) (l : list nat) (v : nat) :
  List.NoDup l → In v l → p v = true → q v = false →
  (∀ i, i ≠ v → q i = p i) →
  S (length (List.filter q l)) = length (List.filter p l).
Proof.
  intros Hnd Hin Hp Hq Hother.
  induction l as [|x l IH]; [done|].
  inversion Hnd as [|? ? Hx Hnd']; subst. simpl.
  destruct (decide (x = v)) as [-> | Hne].
  - rewrite Hp, Hq. simpl. f_equal. f_equal.
    apply List.filter_ext_in. intros i Hi. apply Hother.
    by intros ->.
  - destruct Hin as [? | Hin]; [done|].
    rewrite (Hother x Hne). destruct (p x); simpl; rewrite <- IH; done.
Qed.

Lemma unassigned_set s a v b :
  chooseVar s a = Some v →
  S (unassigned s (js_set a v (Some b))) = unassigned s a.
Proof.
  intros Hv. apply chooseVar_Some in Hv as (Hr & Hund & _).
  unfold unassigned. apply (filter_length_drop _ _ _ v).
  - apply seq_NoDup.
  - apply in_seq. lia.
  - by rewrite Hund.
  - by rewrite js_get_set_eq.
  - intros i Hi. by rewrite js_get_set_ne.
Qed.

(** With more fuel than unassigned variables the search returns. *)
Lemma dpll_enough_fuel s fuel a :
  unassigned s a < fuel → ∃ r a', dpll s fuel a = Some (r, a').
Proof.
  revert a. induction fuel as [|fuel IH]; intros a Hf; [lia|]. simpl.
  destruct (scanClauses (clauses s) a true) as [|[]] eqn:Escan; [by eauto..|].
  destruct (chooseVar s a) as [v|] eqn:Ev; [|by eauto].
  pose proof (unassigned_set s a v true Ev) as Hu1.
  destruct (IH (js_set a v (Some true))) as (r1 & a1 & E1); [lia|].
  rewrite E1. destruct r1; [by eauto|].
  assert (same_reads (js_set a1 v (Some false)) (js_set a v (Some false))) as Hsame.
  { intros i. rewrite !js_get_set. destruct (decide (v = i)) as [|Hne]; [done|].
    rewrite (dpll_run_fail_same_reads _ _ _ _ (dpll_run_of_fuel _ _ _ _ _ E1) eq_refl).
    by rewrite js_get_set_ne. }
  pose proof (unassigned_set s a v false Ev) as Hu2.
  rewrite <- (unassigned_same_reads _ _ _ Hsame) in Hu2.
  destruct (IH (js_set a1 v (Some false))) as (r2 & a2 & E2); [lia|].
  rewrite E2. destruct r2; eauto.
Qed.

Lemma unassigned_fresh s : unassigned s (freshAssignment s) ≤ numVars s.
Proof. apply unassigned_le. Qed.

(** [solve] always returns. *)
Lemma solve_returns s : ∃ r, solve s = Some r.
Proof.
  unfold solve.
  destruct (dpll_enough_fuel s (S (numVars s)) (freshAssignment s))
    as (r & a' & ->).
  - pose proof (unassigned_fresh s). lia.
  - destruct r; eauto.
Qed.

Lemma solve_Some_run s a :
  solve s = Some (Some a) → dpll_run s (freshAssignment s) true a.
Proof.
  unfold solve.
  destruct (dpll s (S (numVars s)) (freshAssignment s)) as [[[] a']|] eqn:E; [|done..].
  intros [= <-]. by eapply dpll_run_of_fuel.
Qed.

Lemma solve_None_run s :
  solve s = Some None → ∃ a, dpll_run s (freshAssignment s) false a.
Proof.
  unfold solve.
  destruct (dpll s (S (numVars s)) (freshAssignment s)) as [[[] a']|] eqn:E; [done| |done].
  intros _. exists a'. by eapply dpll_run_of_fuel.
Qed.

(** ** Soundness and completeness of the engine *)

Lemma evalClause_loop_None clause a h :
  evalClause_loop clause a h = None →
  h = true ∨ ∃ lit, In lit clause ∧ js_get a (Z.abs_nat lit) = None.
Proof.
  revert h. induction clause as [|lit rest IH]; intros h; simpl.
  - destruct h; [by left | done].
  - destruct (js_get a (Z.abs_nat lit)) as [val|] eqn:Eg.
    + destruct (litVal lit val); [done|].
      intros H. apply IH in H as [? | (l & Hin & Hl)]; [by left|].
      right. exists l. by split; [right|].
    + intros _. right. exists lit. by split; [left|].
Qed.

Lemma evalClause_decided s a c :
  well_formed s → In c (clauses s) →
  (∀ i, 1 ≤ i ≤ numVars s → js_get a i ≠ None) →
  evalClause c a ≠ None.
Proof.
  intros Hwf Hc Hall Hn.
  apply evalClause_loop_None in Hn as [? | (l & Hin & Hl)]; [done|].
  by apply (Hall (Z.abs_nat l)); [apply (Hwf c)|].
Qed.

(** What a successful call hands back: all clauses are satisfied, or no
    clause is violated and no variable is left. *)
Lemma dpll_run_success s a r a' :
  dpll_run s a r a' → r = true →
  (∀ c, In c (clauses s) → evalClause c a' = Some true) ∨
  ((∀ c, In c (clauses s) → evalClause c a' ≠ Some false) ∧
   (∀ i, 1 ≤ i ≤ numVars s → js_get a' i ≠ None)).
Proof.
  induction 1 as [a|a Hs|a Hs Hv| | |]; intros Hr; try done; auto.
  - left. by apply scanClauses_all_satisfied in Hs as [_ ?].
  - right. split; [|by apply chooseVar_None].
    intros c Hc Hf.
    assert (scanClauses (clauses s) a true = Conflict) as Hcf
      by (apply scanClauses_conflict; eauto).
    congruence.
Qed.

Lemma dpll_run_sound s a a' :
  well_formed s → dpll_run s a true a' → satisfies a' (clauses s).
Proof.
  intros Hwf Hrun c Hc. apply evalClause_true.
  destruct (dpll_run_success _ _ _ _ Hrun eq_refl) as [Hall | [Hnf Hasg]]; [auto|].
  pose proof (evalClause_decided s a' c Hwf Hc Hasg) as Hd.
  specialize (Hnf c Hc). by destruct (evalClause c a') as [[]|].
Qed.

Lemma violated_no_model (v : Valuation) a c :
  extends v a → evalClause c a = Some false → ¬ ∃ lit, In lit c ∧ holds v lit.
Proof.
  intros Hext Hf (l & Hin & Hl).
  destruct (proj1 (evalClause_false c a) Hf l Hin) as (val & Hval & Hlv).
  unfold holds in Hl. rewrite (Hext _ _ Hval) in Hl. congruence.
Qed.

(** A failed call refutes every total assignment that extends its input. *)
Lemma dpll_run_complete s a r a' :
  dpll_run s a r a' → r = false →
  ∀ m : Valuation, extends m a → ¬ models m (clauses s).
Proof.
  induction 1 as [a Hs| | | | |a x a1 a2 _ Hx H1 IH1 _ IH2];
    intros Hr m Hext Hm; try done.
  - apply scanClauses_conflict in Hs as (c & Hc & Hf).
    by apply (violated_no_model m a c Hext Hf), Hm.
  - pose proof (dpll_run_fail_same_reads _ _ _ _ H1 eq_refl) as Hsame.
    destruct (m x) eqn:Emx.
    + apply (IH1 eq_refl m); [|done].
      intros i b. rewrite js_get_set.
      destruct (decide (x = i)) as [<-|]; [congruence | apply Hext].
    + apply (IH2 eq_refl m); [|done].
      intros i b. rewrite js_get_set.
      destruct (decide (x = i)) as [<-|Hne]; [congruence|].
      rewrite Hsame, js_get_set_ne by done. apply Hext.
Qed.

Lemma extends_fresh (v : Valuation) s : extends v (freshAssignment s).
Proof. intros i b. unfold freshAssignment. by rewrite js_get_fresh. Qed.

(** ** The shape of a returned assignment *)

Lemma assigned_upto_fresh s : assigned_upto 0 (freshAssignment s).
Proof.
  split; [intros; lia|]. intros i _. unfold freshAssignment. apply js_get_fresh.
Qed.

Lemma assigned_upto_choose s a k v :
  k ≤ numVars s → assigned_upto k a → chooseVar s a = Some v → v = S k.
Proof.
  intros Hk [Hlow Hhigh] Hv. apply chooseVar_Some in Hv as (Hr & Hund & Hfirst).
  destruct (decide (v ≤ k)) as [Hle|Hgt].
  { destruct (Hlow v) as [b Hb]; [lia | congruence]. }
  destruct (decide (v = S k)) as [|Hne]; [done|].
  exfalso. apply (Hfirst (S k)); [lia|]. apply Hhigh. lia.
Qed.

Lemma assigned_upto_set k a b :
  assigned_upto k a → assigned_upto (S k) (js_set a (S k) (Some b)).
Proof.
  intros [Hlow Hhigh]. split.
  - intros i Hi. rewrite js_get_set.
    destruct (decide (S k = i)); [by eexists | apply Hlow; lia].
  - intros i Hi. rewrite js_get_set_ne by lia. apply Hhigh. lia.
Qed.

Lemma assigned_upto_full s a k :
  k ≤ numVars s → assigned_upto k a → chooseVar s a = None → k = numVars s.
Proof.
  intros Hk [_ Hhigh] Hn.
  destruct (decide (k = numVars s)) as [|Hne]; [done|]. exfalso.
  apply (chooseVar_None s a Hn (S k)); [lia|]. apply Hhigh. lia.
Qed.

Lemma dpll_run_prefix s a r a' :
  dpll_run s a r a' → r = true →
  ∀ k, k ≤ numVars s → numVars s < length a → assigned_upto k a →
  ∃ k', k ≤ k' ≤ numVars s ∧ assigned_upto k' a' ∧
        (k' < numVars s → ∀ c, In c (clauses s) → evalClause c a' = Some true).
Proof.
  induction 1 as [|a Hs|a Hs Hv|a v a1 _ Hv _ IH1|a v a1 a2 _ Hv H1 _ _ IH2|];
    intros Hr k Hk Hlen Hpre; try done.
  - exists k. split; [lia|]. split; [done|]. intros _.
    by apply scanClauses_all_satisfied in Hs as [_ ?].
  - exists k. split; [lia|]. split; [done|].
    pose proof (assigned_upto_full s a k Hk Hpre Hv). lia.
  - pose proof (assigned_upto_choose s a k v Hk Hpre Hv) as ->.
    apply chooseVar_Some in Hv as (Hrange & _).
    destruct (IH1 eq_refl (S k)) as (k' & Hk' & Hp' & Hc').
    + lia.
    + rewrite length_js_set; lia.
    + by apply assigned_upto_set.
    + exists k'. split; [lia | done].
  - pose proof (assigned_upto_choose s a k v Hk Hpre Hv) as ->.
    apply chooseVar_Some in Hv as (Hrange & _).
    destruct (dpll_run_frame _ _ _ _ H1) as [_ He1]; [rewrite length_js_set; lia|].
    rewrite (He1 eq_refl) in IH2.
    destruct (IH2 eq_refl (S k)) as (k' & Hk' & Hp' & Hc').
    + lia.
    + rewrite length_js_set by (rewrite length_js_set; lia).
      rewrite length_js_set; lia.
    + rewrite (js_set_in_range a) by lia.
      rewrite js_set_in_range by (rewrite length_insert; lia).
      rewrite list_insert_insert_eq. rewrite <- js_set_in_range by lia.
      by apply assigned_upto_set.
    + exists k'. split; [lia | done].
Qed.

(** ** The engine against the reference search *)

Lemma literal_value_lit_is a lit b :
  Reference.literal_value a lit = Some b ↔ lit_is a lit b.
Proof.
  unfold Reference.literal_value, lit_is, litVal.
  destruct (js_get a (Z.abs_nat lit)) as [val|].
  - split; [intros [= <-]; by exists val | intros (? & [= <-] & <-); done].
  - split; [done | by intros (? & ? & _)].
Qed.

Lemma lit_is_functional a lit b1 b2 :
  lit_is a lit b1 → lit_is a lit b2 → b1 = b2.
Proof. intros (v1 & H1 & <-) (v2 & H2 & <-). congruence. Qed.

Lemma clause_status_satisfied a c :
  Reference.is_satisfied (Reference.clause_status a c) = true ↔
  evalClause c a = Some true.
Proof.
  rewrite evalClause_true. unfold Reference.clause_status.
  destruct (existsb _ c) eqn:E.
  - split; [intros _|done]. apply existsb_exists in E as (l & Hin & Hl).
    exists l. split; [done|].
    apply bool_decide_eq_true_1 in Hl. by apply literal_value_lit_is.
  - split; [by destruct (forallb _ c)|]. intros (l & Hin & Hl).
    assert (existsb
      (λ lit, bool_decide (Reference.literal_value a lit = Some true)) c = true)
      as Ht; [|congruence].
    apply existsb_exists. exists l. split; [done|].
    by apply bool_decide_eq_true_2, literal_value_lit_is.
Qed.

Lemma clause_status_violated a c :
  Reference.is_violated (Reference.clause_status a c) = true ↔
  evalClause c a = Some false.
Proof.
  rewrite evalClause_false. unfold Reference.clause_status.
  destruct (existsb _ c) eqn:E.
  - split; [done|]. intros Hall.
    apply existsb_exists in E as (l & Hin & Hl).
    apply bool_decide_eq_true_1, literal_value_lit_is in Hl.
    by pose proof (lit_is_functional _ _ _ _ Hl (Hall l Hin)).
  - destruct (forallb _ c) eqn:F.
    + split; [intros _|done]. intros l Hin.
      rewrite forallb_forall in F. specialize (F l Hin).
      apply bool_decide_eq_true_1 in F. by apply literal_value_lit_is.
    + split; [done|]. intros Hall.
      assert (forallb
        (λ lit, bool_decide (Reference.literal_value a lit = Some false)) c = true)
        as Ht; [|congruence].
      apply forallb_forall. intros l Hin.
      by apply bool_decide_eq_true_2, literal_value_lit_is, Hall.
Qed.

Lemma reference_violated_scan cls a :
  existsb (λ c, Reference.is_violated (Reference.clause_status a c)) cls = true ↔
  scanClauses cls a true = Conflict.
Proof.
  rewrite scanClauses_conflict, existsb_exists.
  split; intros (c & Hin & Hc); exists c; (split; [done|]);
    by apply clause_status_violated.
Qed.

Lemma reference_satisfied_scan cls a :
  forallb (λ c, Reference.is_satisfied (Reference.clause_status a c)) cls = true ↔
  scanClauses cls a true = Scanned true.
Proof.
  rewrite scanClauses_all_satisfied, forallb_forall.
  split.
  - intros H. split; [done|]. intros c Hin. by apply clause_status_satisfied, H.
  - intros [_ H] c Hin. by apply clause_status_satisfied, H.
Qed.

Lemma search_unfold cls vars a :
  Reference.search cls vars a =
  if existsb (λ c, Reference.is_violated (Reference.clause_status a c)) cls
  then None
  else if forallb (λ c, Reference.is_satisfied (Reference.clause_status a c)) cls
  then Some a
  else match vars with
       | [] => Some a
       | v :: rest =>
           match Reference.search cls rest (<[v:=Some true]> a) with
           | Some model => Some model
           | None => Reference.search cls rest (<[v:=Some false]> a)
           end
       end.
Proof. by destruct vars. Qed.

Lemma search_undecided cls vars a :
  scanClauses cls a true = Scanned false →
  Reference.search cls vars a =
  match vars with
  | [] => Some a
  | v :: rest =>
      match Reference.search cls rest (<[v:=Some true]> a) with
      | Some model => Some model
      | None => Reference.search cls rest (<[v:=Some false]> a)
      end
  end.
Proof.
  intros Hs. rewrite search_unfold.
  destruct (existsb _ cls) eqn:E.
  { apply reference_violated_scan in E. congruence. }
  destruct (forallb _ cls) eqn:F; [|done].
  apply reference_satisfied_scan in F. congruence.
Qed.

Lemma seq_branch k n : k < n → seq (S k) (n - k) = S k :: seq (S (S k)) (n - S k).
Proof. intros. by replace (n - k) with (S (n - S k)) by lia. Qed.

(** A call on an array whose unassigned variables are [k+1 .. numVars]
    returns what the reference search returns on that list of variables. *)
Lemma dpll_run_refines s a r a' :
  dpll_run s a r a' →
  ∀ k, k ≤ numVars s → numVars s < length a → assigned_upto k a →
  Reference.search (clauses s) (seq (S k) (numVars s - k)) a =
  if r then Some a' else None.
Proof.
  induction 1 as [a Hs|a Hs|a Hs Hv|a v a1 Hs Hv _ IH1|a v a1 a2 Hs Hv H1 IH1 _ IH2
                 |a v a1 a2 Hs Hv H1 IH1 _ IH2];
    intros k Hk Hlen Hpre.
  - rewrite search_unfold.
    by rewrite (proj2 (reference_violated_scan _ _) Hs).
  - rewrite search_unfold.
    destruct (existsb _ (clauses s)) eqn:E.
    { apply reference_violated_scan in E. congruence. }
    by rewrite (proj2 (reference_satisfied_scan _ _) Hs).
  - rewrite search_undecided by done.
    rewrite (assigned_upto_full s a k Hk Hpre Hv).
    by replace (numVars s - numVars s) with 0 by lia.
  - pose proof (assigned_upto_choose s a k v Hk Hpre Hv) as ->.
    apply chooseVar_Some in Hv as (Hrange & _).
    rewrite search_undecided, seq_branch by (done || lia).
    rewrite <- js_set_in_range by lia.
    rewrite (IH1 (S k)); [done | lia | rewrite length_js_set; lia |].
    by apply assigned_upto_set.
  - pose proof (assigned_upto_choose s a k v Hk Hpre Hv) as ->.
    apply chooseVar_Some in Hv as (Hrange & _).
    rewrite search_undecided, seq_branch by (done || lia).
    rewrite <- !js_set_in_range by lia.
    rewrite (IH1 (S k)); [| lia | rewrite length_js_set; lia
                          | by apply assigned_upto_set].
    destruct (dpll_run_frame _ _ _ _ H1) as [_ He1]; [rewrite length_js_set; lia|].
    rewrite (He1 eq_refl) in IH2.
    rewrite (js_set_in_range a), js_set_in_range, list_insert_insert_eq in IH2
      by (rewrite ?length_insert; lia).
    rewrite js_set_in_range by lia.
    apply (IH2 (S k)); [lia | rewrite length_insert; lia |].
    rewrite <- js_set_in_range by lia. by apply assigned_upto_set.
  - pose proof (assigned_upto_choose s a k v Hk Hpre Hv) as ->.
    apply chooseVar_Some in Hv as (Hrange & _).
    rewrite search_undecided, seq_branch by (done || lia).
    rewrite <- !js_set_in_range by lia.
    rewrite (IH1 (S k)); [| lia | rewrite length_js_set; lia
                          | by apply assigned_upto_set].
    destruct (dpll_run_frame _ _ _ _ H1) as [_ He1]; [rewrite length_js_set; lia|].
    rewrite (He1 eq_refl) in IH2.
    rewrite (js_set_in_range a), js_set_in_range, list_insert_insert_eq in IH2
      by (rewrite ?length_insert; lia).
    rewrite js_set_in_range by lia.
    apply (IH2 (S k)); [lia | rewrite length_insert; lia |].
    rewrite <- js_set_in_range by lia. by apply assigned_upto_set.
Qed.

(** ** The encoder: loops that only add clauses *)

Lemma grows_refl s : grows s s.
Proof. split; [done|]. exists []. by rewrite app_nil_r. Qed.

Lemma grows_trans s1 s2 s3 : grows s1 s2 → grows s2 s3 → grows s1 s3.
Proof.
  intros [Hn1 [e1 H1]] [Hn2 [e2 H2]]. split; [congruence|].
  exists (e1 ++ e2). by rewrite H2, H1, app_assoc.
Qed.

Lemma grows_addClause s c : grows s (addClause s c).
Proof. split; [done|]. by exists [c]. Qed.

Lemma grows_In s s' c : grows s s' → In c (clauses s) → In c (clauses s').
Proof. intros [_ [e ->]] Hin. apply in_app_iff. by left. Qed.

Lemma In_addClause s c : In c (clauses (addClause s c)).
Proof. simpl. apply in_app_iff. right. by left. Qed.

Lemma all_clauses_addClause good s c :
  all_clauses good s → good c → all_clauses good (addClause s c).
Proof.
  intros Hall Hc c' Hin. simpl in Hin.
  apply in_app_iff in Hin as [Hin | [<- | []]]; auto.
Qed.

Lemma for_range_inv (P : t → Prop) start count body s s' :
  (∀ i s0 s1, start ≤ i < start + count → P s0 → body i s0 = Some s1 → P s1) →
  P s → for_range start count body s = Some s' → P s'.
Proof.
  revert start s. induction count as [|count IH]; intros start s Hbody Hs; simpl.
  - by intros [= <-].
  - destruct (body start s) as [s1|] eqn:E; [|done].
    apply IH.
    + intros i s0 s2 Hi. apply Hbody. lia.
    + apply (Hbody start s s1); [lia | done..].
Qed.

Lemma for_range_grows start count body s s' :
  (∀ i s0 s1, start ≤ i < start + count → body i s0 = Some s1 → grows s0 s1) →
  for_range start count body s = Some s' → grows s s'.
Proof.
  intros Hbody. apply (for_range_inv (grows s)); [|apply grows_refl].
  intros i s0 s1 Hi Hs0 E. eapply grows_trans; [done|]. by eapply Hbody.
Qed.

(** The iteration [i] of a completed loop did run, and what it built is
    still there at the end. *)
Lemma for_range_hits start count body s s' i :
  (∀ j s0 s1, start ≤ j < start + count → body j s0 = Some s1 → grows s0 s1) →
  start ≤ i < start + count →
  for_range start count body s = Some s' →
  ∃ s0 s1, body i s0 = Some s1 ∧ grows s1 s'.
Proof.
  revert start s. induction count as [|count IH]; intros start s Hbody Hi; [lia|].
  simpl. destruct (body start s) as [s1|] eqn:E; [|done]. intros Hrest.
  destruct (decide (i = start)) as [-> | Hne].
  - exists s, s1. split; [done|].
    eapply for_range_grows; [|done]. intros j s0 s2 Hj. apply Hbody. lia.
  - apply (IH (S start) s1); [|lia|done].
    intros j s0 s2 Hj. apply Hbody. lia.
Qed.

(** *** Variable allocation *)

Lemma allocRow_spec {A} (positions : list A) s :
  allocRow positions s =
  (seq (S (numVars s)) (length positions),
   {| clauses := clauses s; numVars := numVars s + length positions |}).
Proof.
  revert s. induction positions as [|x rest IH]; intros s; simpl.
  - destruct s. simpl. by rewrite Nat.add_0_r.
  - rewrite IH. simpl. do 2 f_equal. lia.
Qed.

Lemma allocVars_spec {A} (candidates : list (list A)) s :
  allocVars candidates s =
  (rows_from (numVars s) candidates,
   {| clauses := clauses s; numVars := numVars s + total_length candidates |}).
Proof.
  revert s. induction candidates as [|positions rest IH]; intros s; simpl.
  - destruct s. unfold total_length. simpl. by rewrite Nat.add_0_r.
  - rewrite allocRow_spec, IH. unfold total_length. simpl. do 2 f_equal. lia.
Qed.

Lemma rows_from_lookup {A} n (candidates : list (list A)) i cands :
  candidates !! i = Some cands →
  ∃ row, rows_from n candidates !! i = Some row ∧ length row = length cands.
Proof.
  revert n i. induction candidates as [|positions rest IH]; intros n [|i]; simpl;
    try done.
  - intros [= <-]. eexists. split; [done|]. by rewrite length_seq.
  - apply IH.
Qed.

Lemma rows_from_range {A} n (candidates : list (list A)) :
  Forall (Forall (λ v, n < v ≤ n + total_length candidates))
         (rows_from n candidates).
Proof.
  revert n. induction candidates as [|positions rest IH]; intros n; simpl.
  - constructor.
  - unfold total_length in *. simpl. constructor.
    + apply Forall_forall. intros v Hv. apply in_seq in Hv. lia.
    + eapply Forall_impl; [|apply IH]. intros row Hrow. simpl in Hrow.
      eapply Forall_impl; [|apply Hrow]. intros v Hv. simpl in Hv. lia.
Qed.

Lemma rows_lookup_Forall (V : nat → Prop) (vars : list (list nat)) i p v :
  Forall (Forall V) vars → vars !! i ≫= (.!! p) = Some v → V v.
Proof.
  intros Hall Hv. destruct (vars !! i) as [row|] eqn:Ei; [|done]. simpl in Hv.
  eapply Forall_lookup_1 in Hall; [|done].
  by eapply Forall_lookup_1 in Hall.
Qed.

(** *** The clause blocks only add clauses *)

Lemma fold_pairs_grows v1 row s :
  grows s (fold_left (λ sat v2, addClause sat [neg v1; neg v2]) row s).
Proof.
  revert s. induction row as [|v2 rest IH]; intros s; simpl; [apply grows_refl|].
  eapply grows_trans; [apply grows_addClause | apply IH].
Qed.

Lemma atMostOne_grows row s : grows s (atMostOne row s).
Proof.
  revert s. induction row as [|v1 rest IH]; intros s; simpl; [apply grows_refl|].
  eapply grows_trans; [apply fold_pairs_grows | apply IH].
Qed.

Lemma exactlyOne_grows row s : grows s (exactlyOne row s).
Proof.
  destruct row as [|v rest]; [apply grows_refl|]. unfold exactlyOne.
  eapply grows_trans; [apply grows_addClause | apply atMostOne_grows].
Qed.

Lemma exactlyOneEach_grows count vars s s' :
  exactlyOneEach count vars s = Some s' → grows s s'.
Proof.
  apply for_range_grows. intros i s0 s1 _.
  destruct (vars !! i) as [row|]; [|done]. intros [= <-]. apply exactlyOne_grows.
Qed.

Lemma overlap_body_grows {A} (ci cj : list A) (vars : list (list nat))
    (overlap : nat → A → nat → A → option bool) i j pi pj s0 s1 :
  match ci !! pi, cj !! pj with
  | Some ai, Some aj =>
      match overlap i ai j aj with
      | None => None
      | Some false => Some s0
      | Some true =>
          match vars !! i ≫= (.!! pi), vars !! j ≫= (.!! pj) with
          | Some vi, Some vj => Some (addClause s0 [neg vi; neg vj])
          | _, _ => None
          end
      end
  | _, _ => None
  end = Some s1 →
  grows s0 s1.
Proof.
  destruct (ci !! pi), (cj !! pj); try done.
  destruct (overlap _ _ _ _) as [[]|]; [| |done].
  - destruct (vars !! i ≫= (.!! pi)), (vars !! j ≫= (.!! pj)); try done.
    intros [= <-]. apply grows_addClause.
  - intros [= <-]. apply grows_refl.
Qed.

Lemma noOverlaps_grows {A} count (candidates : list (list A)) vars overlap s s' :
  noOverlaps count candidates vars overlap s = Some s' → grows s s'.
Proof.
  apply for_range_grows. intros i s0 s1 _.
  apply for_range_grows. intros j s2 s3 _.
  destruct (candidates !! i) as [ci|]; [|done].
  apply for_range_grows. intros pi s4 s5 _.
  destruct (candidates !! j) as [cj|]; [|done].
  apply for_range_grows. intros pj s6 s7 _.
  apply overlap_body_grows.
Qed.

(** The label-versus-circle block gives back the solver it was given. *)
Lemma labelCircle_inner_id (circles : list Circle) name labelPos (s : t) :
  fold_left (λ sat otherCircle,
    if labelOverlapsCircle labelPos name otherCircle then sat else sat)
    circles s = s.
Proof.
  induction circles as [|c cs IH]; simpl; [done|].
  by destruct (labelOverlapsCircle labelPos name c).
Qed.

Lemma labelCircle_fold_id circles name (cands : list LabelPosition) (s : t) :
  fold_left (λ sat labelPos,
    fold_left (λ sat otherCircle,
      if labelOverlapsCircle labelPos name otherCircle then sat else sat)
      circles sat) cands s = s.
Proof.
  induction cands as [|labelPos rest IH]; simpl; [done|].
  by rewrite labelCircle_inner_id.
Qed.

Lemma labelCircleBlock_id circles labelCandidates s s' :
  labelCircleBlock circles labelCandidates s = Some s' → s' = s.
Proof.
  intros H. symmetry. revert H.
  apply (for_range_inv (λ x, s = x)); [|done].
  intros i s0 s1 _ ->.
  destruct (circles !! i), (labelCandidates !! i); try done.
  rewrite labelCircle_fold_id. by intros [= <-].
Qed.

(** *** Which clauses are added *)

Section ClauseShape.
Variable good : list Z → Prop.
Variable V : nat → Prop.
Hypothesis good_pos : ∀ row, row ≠ [] → Forall V row → good (map pos row).
Hypothesis good_neg : ∀ v1 v2, V v1 → V v2 → good [neg v1; neg v2].

Lemma fold_pairs_all v1 row s :
  V v1 → Forall V row → all_clauses good s →
  all_clauses good (fold_left (λ sat v2, addClause sat [neg v1; neg v2]) row s).
Proof using good_neg.
  intros Hv1 Hrow. revert s.
  induction Hrow as [|v2 rest Hv2 _ IH]; intros s Hs; simpl; [done|].
  apply IH, all_clauses_addClause; auto.
Qed.

Lemma atMostOne_all row s :
  Forall V row → all_clauses good s → all_clauses good (atMostOne row s).
Proof using good_neg.
  intros Hrow. revert s.
  induction Hrow as [|v1 rest Hv1 Hrest IH]; intros s Hs; simpl; [done|].
  by apply IH, fold_pairs_all.
Qed.

Lemma exactlyOne_all row s :
  Forall V row → all_clauses good s → all_clauses good (exactlyOne row s).
Proof using good_neg good_pos.
  intros Hrow Hs. destruct row as [|v rest]; [done|]. unfold exactlyOne.
  apply atMostOne_all; [done|]. apply all_clauses_addClause; [done|].
  by apply good_pos.
Qed.

Lemma exactlyOneEach_all count vars s s' :
  Forall (Forall V) vars → all_clauses good s →
  exactlyOneEach count vars s = Some s' → all_clauses good s'.
Proof using good_neg good_pos.
  intros Hvars. apply for_range_inv. intros i s0 s1 _ Hs0.
  destruct (vars !! i) as [row|] eqn:Ei; [|done]. intros [= <-].
  apply exactlyOne_all; [|done]. by eapply Forall_lookup_1.
Qed.

Lemma noOverlaps_all {A} count (candidates : list (list A)) vars overlap s s' :
  Forall (Forall V) vars → all_clauses good s →
  noOverlaps count candidates vars overlap s = Some s' → all_clauses good s'.
Proof using good_neg.
  intros Hvars.
  apply for_range_inv. intros i s0 s1 _ Hs0.
  apply for_range_inv; [|done]. intros j s2 s3 _ Hs2.
  destruct (candidates !! i) as [ci|]; [|done].
  apply for_range_inv; [|done]. intros pi s4 s5 _ Hs4.
  destruct (candidates !! j) as [cj|]; [|done].
  apply for_range_inv; [|done]. intros pj s6 s7 _ Hs6.
  destruct (ci !! pi), (cj !! pj); try done.
  destruct (overlap _ _ _ _) as [[]|]; [| |done].
  2: { by intros [= <-]. }
  destruct (vars !! i ≫= (.!! pi)) as [vi|] eqn:Evi; [|done].
  destruct (vars !! j ≫= (.!! pj)) as [vj|] eqn:Evj; [|done].
  intros [= <-].
  apply all_clauses_addClause; [done|].
  apply good_neg; by eapply rows_lookup_Forall.
Qed.
End ClauseShape.

(** *** Clauses that are certainly there *)

Lemma fold_pairs_In v1 row v2 s :
  In v2 row →
  In [neg v1; neg v2]
     (clauses (fold_left (λ sat v, addClause sat [neg v1; neg v]) row s)).
Proof.
  revert s. induction row as [|v rest IH]; intros s; [done|].
  intros [-> | Hin]; simpl.
  - eapply grows_In; [apply fold_pairs_grows | apply In_addClause].
  - by apply IH.
Qed.

Lemma atMostOne_In row p1 p2 v1 v2 s :
  p1 < p2 → row !! p1 = Some v1 → row !! p2 = Some v2 →
  In [neg v1; neg v2] (clauses (atMostOne row s)).
Proof.
  revert p1 p2 s. induction row as [|v rest IH]; intros p1 p2 s Hlt H1 H2; [done|].
  destruct p2 as [|p2]; [lia|]. simpl in H2. simpl.
  destruct p1 as [|p1].
  - injection H1 as ->.
    eapply grows_In; [apply atMostOne_grows|].
    apply fold_pairs_In. apply list_elem_of_In. by eapply list_elem_of_lookup_2.
  - simpl in H1. apply (IH p1 p2); [lia | done..].
Qed.

Lemma exactlyOne_In_pos row s :
  row ≠ [] → In (map pos row) (clauses (exactlyOne row s)).
Proof.
  destruct row as [|v rest]; [done|]. intros _. unfold exactlyOne.
  eapply grows_In; [apply atMostOne_grows | apply In_addClause].
Qed.

Lemma exactlyOne_In_neg row p1 p2 v1 v2 s :
  p1 < p2 → row !! p1 = Some v1 → row !! p2 = Some v2 →
  In [neg v1; neg v2] (clauses (exactlyOne row s)).
Proof.
  intros Hlt H1 H2. destruct row as [|v rest]; [done|]. unfold exactlyOne.
  by eapply atMostOne_In.
Qed.

Lemma exactlyOneEach_In count vars s s' i :
  exactlyOneEach count vars s = Some s' → i < count →
  ∃ row, vars !! i = Some row ∧
    (row ≠ [] → In (map pos row) (clauses s')) ∧
    (∀ p1 p2 v1 v2, p1 < p2 → row !! p1 = Some v1 → row !! p2 = Some v2 →
       In [neg v1; neg v2] (clauses s')).
Proof.
  intros H Hi. unfold exactlyOneEach in H.
  apply (for_range_hits _ _ _ _ _ i) in H as (s0 & s1 & Hbody & Hg); [|..|lia].
  - destruct (vars !! i) as [row|]; [|done]. injection Hbody as <-.
    exists row. split; [done|]. split.
    + intros Hne. eapply grows_In; [done|]. by apply exactlyOne_In_pos.
    + intros p1 p2 v1 v2 Hlt H1 H2. eapply grows_In; [done|].
      by eapply exactlyOne_In_neg.
  - intros j s0 s1 _. destruct (vars !! j) as [row|]; [|done].
    intros [= <-]. apply exactlyOne_grows.
Qed.

Lemma noOverlaps_In {A} count (candidates : list (list A)) vars overlap s s'
    i j pi pj ai aj :
  noOverlaps count candidates vars overlap s = Some s' →
  i < j < count →
  candidates !! i ≫= (.!! pi) = Some ai →
  candidates !! j ≫= (.!! pj) = Some aj →
  overlap i ai j aj = Some true →
  ∃ vi vj, vars !! i ≫= (.!! pi) = Some vi ∧ vars !! j ≫= (.!! pj) = Some vj ∧
           In [neg vi; neg vj] (clauses s').
Proof.
  intros H Hij Hai Haj Hov.
  destruct (candidates !! i) as [ci|] eqn:Eci; [|done]. simpl in Hai.
  destruct (candidates !! j) as [cj|] eqn:Ecj; [|done]. simpl in Haj.
  unfold noOverlaps in H.
  apply (for_range_hits _ _ _ _ _ i) in H as (s0 & s1 & H & Hg1); [|..|lia].
  2: { intros i' s0 s1 _. apply for_range_grows. intros j' s2 s3 _.
       destruct (candidates !! i') as [ci'|]; [|done].
       apply for_range_grows. intros pi' s4 s5 _.
       destruct (candidates !! j') as [cj'|]; [|done].
       apply for_range_grows. intros pj' s6 s7 _. apply overlap_body_grows. }
  apply (for_range_hits _ _ _ _ _ j) in H as (s2 & s3 & H & Hg2); [|..|lia].
  2: { intros j' s2 s3 _. rewrite Eci.
       apply for_range_grows. intros pi' s4 s5 _.
       destruct (candidates !! j') as [cj'|]; [|done].
       apply for_range_grows. intros pj' s6 s7 _. apply overlap_body_grows. }
  rewrite Eci in H.
  apply (for_range_hits _ _ _ _ _ pi) in H as (s4 & s5 & H & Hg3);
    [|..|split; [lia | by apply lookup_lt_Some in Hai]].
  2: { intros pi' s4 s5 _. destruct (candidates !! j) as [cj'|]; [|done].
       apply for_range_grows. intros pj' s6 s7 _. apply overlap_body_grows. }
  rewrite Ecj in H.
  apply (for_range_hits _ _ _ _ _ pj) in H as (s6 & s7 & H & Hg4);
    [|..|split; [lia | by apply lookup_lt_Some in Haj]].
  2: { intros pj' s6 s7 _. apply overlap_body_grows. }
  rewrite Hai, Haj, Hov in H.
  destruct (vars !! i ≫= (.!! pi)) as [vi|]; [|done].
  destruct (vars !! j ≫= (.!! pj)) as [vj|]; [|done].
  injection H as <-.
  exists vi, vj. split; [done|]. split; [done|].
  eapply grows_In; [exact Hg1|]. eapply grows_In; [exact Hg2|].
  eapply grows_In; [exact Hg3|]. eapply grows_In; [exact Hg4|].
  apply In_addClause.
Qed.

(** *** [encodeSAT] taken apart *)

Lemma encodeSAT_phases sat0 data analysis circleCandidates orgCandidates
    labelCandidates sat enc :
  encodeSAT sat0 data analysis circleCandidates orgCandidates labelCandidates
    = Some (sat, enc) →
  ∃ circles s1 s2 s3,
    circleCandidates !! 0 = Some circles ∧
    enc = {| orgVars := rows_from (numVars sat0) orgCandidates;
             labelVars := rows_from (numVars sat0 + total_length orgCandidates)
                            labelCandidates;
             enc_circles := circles |} ∧
    exactlyOneEach (length (organizations data)) (orgVars enc)
      (allocated sat0 orgCandidates labelCandidates) = Some s1 ∧
    exactlyOneEach (length circles) (labelVars enc) s1 = Some s2 ∧
    noOverlaps (length (organizations data)) orgCandidates (orgVars enc)
      (λ _ a _ b, Some (positionsOverlap a b 60)) s2 = Some s3 ∧
    noOverlaps (length circles) labelCandidates (labelVars enc)
      (λ i a j b,
         match circles !! i, circles !! j with
         | Some ci, Some cj => Some (labelsOverlap a (c_name ci) b (c_name cj))
         | _, _ => None
         end) s3 = Some sat.
Proof.
  unfold encodeSAT. rewrite allocVars_spec. simpl. rewrite allocVars_spec. simpl.
  fold (allocated sat0 orgCandidates labelCandidates).
  destruct (exactlyOneEach _ _ (allocated _ _ _)) as [s1|] eqn:E1; [|done]. simpl.
  destruct (circleCandidates !! 0) as [circles|] eqn:Ec; [|done]. simpl.
  destruct (exactlyOneEach (length circles) _ s1) as [s2|] eqn:E2; [|done]. simpl.
  destruct (noOverlaps (length (organizations data)) _ _ _ s2) as [s3|] eqn:E3;
    [|done]. simpl.
  destruct (noOverlaps (length circles) _ _ _ s3) as [s4|] eqn:E4; [|done]. simpl.
  destruct (labelCircleBlock circles labelCandidates s4) as [s5|] eqn:E5; [|done].
  simpl. intros [= <- <-]. apply labelCircleBlock_id in E5 as ->.
  exists circles, s1, s2, s3. simpl. done.
Qed.

(** The variables handed out by [encodeSAT] are allocated ones. *)
Lemma encodeSAT_vars_range n (orgCandidates : list (list Position))
    (labelCandidates : list (list LabelPosition)) :
  let N := n + total_length orgCandidates + total_length labelCandidates in
  Forall (Forall (λ v, 1 ≤ v ≤ N)) (rows_from n orgCandidates) ∧
  Forall (Forall (λ v, 1 ≤ v ≤ N))
         (rows_from (n + total_length orgCandidates) labelCandidates).
Proof.
  simpl. split.
  - eapply Forall_impl; [|apply rows_from_range]. intros row Hrow. simpl in Hrow.
    eapply Forall_impl; [|apply Hrow]. intros v Hv. simpl in Hv. lia.
  - eapply Forall_impl; [|apply rows_from_range]. intros row Hrow. simpl in Hrow.
    eapply Forall_impl; [|apply Hrow]. intros v Hv. simpl in Hv. lia.
Qed.

(** Whatever [good] holds of the clauses already present, of every
    at-least-one clause and of every pair of negated selectors, holds of all
    clauses after [encodeSAT]. *)
Lemma encodeSAT_all_clauses (good : list Z → Prop) sat0 data analysis
    circleCandidates orgCandidates labelCandidates sat enc :
  let N := numVars sat0 + total_length orgCandidates
           + total_length labelCandidates in
  (∀ row, row ≠ [] → Forall (λ v, 1 ≤ v ≤ N) row → good (map pos row)) →
  (∀ v1 v2, 1 ≤ v1 ≤ N → 1 ≤ v2 ≤ N → good [neg v1; neg v2]) →
  all_clauses good sat0 →
  encodeSAT sat0 data analysis circleCandidates orgCandidates labelCandidates
    = Some (sat, enc) →
  all_clauses good sat ∧ numVars sat = N.
Proof.
  intros N Hpos Hneg H0 Henc.
  apply encodeSAT_phases in Henc
    as (circles & s1 & s2 & s3 & _ & -> & E1 & E2 & E3 & E4).
  simpl in *.
  destruct (encodeSAT_vars_range (numVars sat0) orgCandidates labelCandidates)
    as [Hov Hlv].
  split.
  - eapply (noOverlaps_all good _ Hneg); [exact Hlv| |exact E4].
    eapply (noOverlaps_all good _ Hneg); [exact Hov| |exact E3].
    eapply (exactlyOneEach_all good _ Hpos Hneg); [exact Hlv| |exact E2].
    eapply (exactlyOneEach_all good _ Hpos Hneg); [exact Hov| |exact E1].
    exact H0.
  - apply noOverlaps_grows in E4 as [-> _]. apply noOverlaps_grows in E3 as [-> _].
    apply exactlyOneEach_grows in E2 as [-> _].
    by apply exactlyOneEach_grows in E1 as [-> _].
Qed.

Lemma abs_nat_pos v : Z.abs_nat (pos v) = v.
Proof. unfold pos. lia. Qed.

Lemma abs_nat_neg v : Z.abs_nat (neg v) = v.
Proof. unfold neg. lia. Qed.

Lemma encodeSAT_well_formed data analysis circleCandidates orgCandidates
    labelCandidates sat enc :
  encodeSAT SATSolver.new data analysis circleCandidates orgCandidates
    labelCandidates = Some (sat, enc) →
  well_formed sat.
Proof.
  intros Henc.
  set (N := total_length orgCandidates + total_length labelCandidates).
  destruct (encodeSAT_all_clauses
              (λ c, ∀ lit, In lit c → 1 ≤ Z.abs_nat lit ≤ N)
              SATSolver.new data analysis circleCandidates orgCandidates
              labelCandidates sat enc) as [Hall HN]; [| | |exact Henc|].
  - intros row _ Hrow lit Hin. apply in_map_iff in Hin as (v & <- & Hv).
    rewrite abs_nat_pos. rewrite List.Forall_forall in Hrow. by apply Hrow.
  - intros v1 v2 H1 H2 lit [<- | [<- | []]]; by rewrite abs_nat_neg.
  - intros c [].
  - intros c Hc lit Hlit. simpl in HN. rewrite HN. by apply (Hall c).
Qed.

(** ** Reading selectors in a returned assignment *)

Lemma lit_is_pos a v : 0 < v → lit_is a (pos v) true → js_get a v = Some true.
Proof.
  intros Hv (val & Hget & Hval). rewrite abs_nat_pos in Hget.
  unfold litVal, pos in Hval.
  destruct (Z.ltb_spec 0 (Z.of_nat v)); [congruence | lia].
Qed.

Lemma lit_is_neg a v : lit_is a (neg v) true → js_get a v = Some false.
Proof.
  intros (val & Hget & Hval). rewrite abs_nat_neg in Hget.
  unfold litVal, neg in Hval.
  destruct (Z.ltb_spec 0 (- Z.of_nat v)); [lia|].
  destruct val; [done | congruence].
Qed.

Lemma not_both_true a v1 v2 :
  (∃ lit, In lit [neg v1; neg v2] ∧ lit_is a lit true) →
  ¬ (js_get a v1 = Some true ∧ js_get a v2 = Some true).
Proof.
  intros (lit & [<- | [<- | []]] & Hl) [H1 H2]; apply lit_is_neg in Hl; congruence.
Qed.

Lemma exactly_one_of_row a row :
  Forall (λ v, 0 < v) row →
  (∃ lit, In lit (map pos row) ∧ lit_is a lit true) →
  (∀ p1 p2 v1 v2, p1 < p2 → row !! p1 = Some v1 → row !! p2 = Some v2 →
     ∃ lit, In lit [neg v1; neg v2] ∧ lit_is a lit true) →
  ∃ p, exactly_one_true a row p.
Proof.
  intros Hpos (lit & Hin & Hl) Hpairs.
  apply in_map_iff in Hin as (v & <- & Hv).
  apply list_elem_of_In, list_elem_of_lookup in Hv as [p Hp].
  assert (js_get a v = Some true) as Hvt.
  { apply lit_is_pos; [|done]. by eapply Forall_lookup_1 in Hpos. }
  exists p. split; [by exists v|].
  intros q w Hq Hwt.
  destruct (Nat.lt_trichotomy q p) as [Hlt | [-> | Hlt]]; [|done|].
  - exfalso. by apply (not_both_true a w v (Hpairs q p w v Hlt Hq Hp)).
  - exfalso. by apply (not_both_true a v w (Hpairs p q v w Hlt Hp Hq)).
Qed.

Lemma firstTrue_unique a row p start count :
  exactly_one_true a row p → start ≤ p < start + count →
  firstTrue a row start count = Some p.
Proof.
  intros [(v & Hp & Hv) Huniq]. revert start.
  induction count as [|count IH]; intros start Hr; [lia|]. simpl.
  destruct (decide (start = p)) as [-> | Hne].
  - rewrite Hp. by rewrite bool_decide_eq_true_2.
  - destruct (row !! start) as [w|] eqn:Ew.
    + destruct (bool_decide (js_get a w = Some true)) eqn:Eb.
      * apply bool_decide_eq_true_1 in Eb. by pose proof (Huniq start w Ew Eb).
      * apply IH. lia.
    + apply IH. lia.
Qed.

(** One constrained entity: its selectors hold exactly one [true], and that
    is the one the decoder finds. *)
Lemma selected_once {A} (a : Assignment) (cls : list (list Z))
    (vars : list (list nat)) (candidates : list (list A)) i row cands :
  satisfies a cls →
  candidates !! i = Some cands → cands ≠ [] →
  vars !! i = Some row → length row = length cands →
  Forall (λ v, 0 < v) row →
  In (map pos row) cls →
  (∀ p1 p2 v1 v2, p1 < p2 → row !! p1 = Some v1 → row !! p2 = Some v2 →
     In [neg v1; neg v2] cls) →
  ∃ p, p < length cands ∧ exactly_one_true a row p ∧
       chosen a vars candidates i = Some (cands !! p).
Proof.
  intros Hsat Hc Hne Hr Hlen Hpos Hone Hpairs.
  destruct (exactly_one_of_row a row Hpos) as [p Hp].
  - by apply Hsat.
  - intros p1 p2 v1 v2 Hlt H1 H2. apply Hsat. by eapply Hpairs.
  - exists p.
    assert (p < length cands) as Hlt.
    { destruct Hp as [(v & Hv & _) _]. apply lookup_lt_Some in Hv. lia. }
    split; [done|]. split; [done|].
    unfold chosen. rewrite Hc, Hr.
    destruct cands as [|c0 cands']; [done|].
    by rewrite (firstTrue_unique a row p 0 _ Hp) by lia.
Qed.

Lemma well_formedb_correct s : well_formedb s = true → well_formed s.
Proof.
  unfold well_formedb. rewrite forallb_forall. intros H c Hc lit Hlit.
  specialize (H c Hc). rewrite forallb_forall in H. specialize (H lit Hlit).
  apply andb_prop in H as [H1 H2].
  apply Nat.leb_le in H1, H2. lia.
Qed.

Example demo_encodeSAT :
  encodeSAT SATSolver.new demo_data [] [demo_circles] demo_orgCandidates
    demo_labelCandidates = Some (demo_formula, demo_encoding).
Proof. vm_compute. reflexivity. Qed.

Example demo_solve : solve demo_formula = Some (Some demo_solution).
Proof. vm_compute. reflexivity. Qed.

Example demo_label_on_circle :
  labelOverlapsCircle (label_at 0 0) "A" (demo_circle "A") = true.
Proof. vm_compute. reflexivity. Qed.

(** * Part III: the properties of the design document *)

Lemma solve_satisfies s a :
  well_formed s → solve s = Some (Some a) → satisfies a (clauses s).
Proof.
  intros Hwf Hs. apply solve_Some_run in Hs. by eapply dpll_run_sound.
Qed.

Lemma solve_None_no_model s :
  solve s = Some None → ∀ m : Valuation, ¬ models m (clauses s).
Proof.
  intros Hs m. apply solve_None_run in Hs as [a' Hrun].
  apply (dpll_run_complete _ _ _ _ Hrun eq_refl m (extends_fresh m s)).
Qed.

(** C1 (completeness).  For a formula whose clauses mention only allocated
    variables: if some total boolean assignment satisfies every clause then
    [solve] returns an assignment, and if [solve] returns [null] then no total
    boolean assignment satisfies every clause. *)
Theorem solve_complete (s : t) :
  well_formed s →
  ((∃ m : Valuation, models m (clauses s)) → ∃ a, solve s = Some (Some a)) ∧
  (solve s = Some None → ∀ m : Valuation, ¬ models m (clauses s)).
Proof.
  intros _. split; [|apply solve_None_no_model].
  intros [m Hm]. destruct (solve_returns s) as [[a|] Hs]; [by exists a|].
  by destruct (solve_None_no_model s Hs m).
Qed.

Lemma solve_complete_witness :
  (∃ a, solve (mk [[1; 2]%Z] 2) = Some (Some a)) ∧
  (∀ m : Valuation, ¬ models m [[1]; [-1]]%Z).
Proof.
  split.
  - apply (solve_complete (mk [[1; 2]%Z] 2)).
    + apply well_formedb_correct. reflexivity.
    + exists (λ _, true). intros c [<- | []].
      exists 1%Z. split; [by left | reflexivity].
  - apply (solve_complete (mk [[1]; [-1]]%Z 1)).
    + apply well_formedb_correct. reflexivity.
    + reflexivity.
Defined.

(** C2 (soundness).  For a formula whose clauses mention only allocated
    variables, every clause contains a literal that evaluates to true under
    the assignment [solve] returns. *)
Theorem solve_sound (s : t) (a : Assignment) :
  well_formed s →
  solve s = Some (Some a) →
  ∀ c, In c (clauses s) → ∃ lit, In lit c ∧ lit_is a lit true.
Proof.
  intros Hwf Hs c Hc. apply solve_Some_run in Hs.
  apply evalClause_true.
  destruct (dpll_run_success _ _ _ _ Hs eq_refl) as [Hall | [Hnf Hasg]]; [auto|].
  pose proof (evalClause_decided s a c Hwf Hc Hasg) as Hd.
  specialize (Hnf c Hc). by destruct (evalClause c a) as [[]|].
Qed.

Lemma solve_sound_witness :
  well_formed (mk [[1; 2]; [-1; 2]]%Z 2) ∧
  solve (mk [[1; 2]; [-1; 2]]%Z 2) = Some (Some [None; Some true; Some true]) ∧
  ∃ lit, In lit [-1; 2]%Z ∧ lit_is [None; Some true; Some true] lit true.
Proof.
  assert (well_formed (mk [[1; 2]; [-1; 2]]%Z 2)) as Hwf
    by (apply well_formedb_correct; reflexivity).
  split; [exact Hwf|]. split; [reflexivity|].
  apply (solve_sound (mk [[1; 2]; [-1; 2]]%Z 2) [None; Some true; Some true]
           Hwf eq_refl [-1; 2]%Z).
  simpl. right. by left.
Defined.

(** C3, as stated, fails: with two variables and the single clause [[1]] the
    search stops as soon as variable 1 is true, and variable 2 is returned
    unassigned. *)
Lemma solve_leaves_unassigned :
  solve (mk [[1]%Z] 2) = Some (Some [None; Some true; None]) ∧
  1 ≤ 2 ≤ numVars (mk [[1]%Z] 2) ∧
  js_get [None; Some true; None] 2 = None.
Proof. split; [reflexivity|]. split; [simpl; lia | reflexivity]. Qed.

(** C3 (amended).  A returned assignment is an array of [numVars + 1]
    entries in which the variables [1..k] carry a boolean, for some
    [k ≤ numVars], and every other entry is unassigned; variables are left
    unassigned ([k < numVars]) only when every clause already evaluates to
    true. *)
Theorem solve_assigns_prefix (s : t) (a : Assignment) :
  solve s = Some (Some a) →
  length a = S (numVars s) ∧
  ∃ k, k ≤ numVars s ∧ assigned_upto k a ∧
       (k < numVars s → ∀ c, In c (clauses s) → evalClause c a = Some true).
Proof.
  intros Hs. apply solve_Some_run in Hs.
  assert (length (freshAssignment s) = S (numVars s)) as Hlen
    by apply length_replicate.
  split.
  - destruct (dpll_run_frame _ _ _ _ Hs) as [-> _]; [lia | done].
  - destruct (dpll_run_prefix _ _ _ _ Hs eq_refl 0) as (k & Hk & Hpre & Hall).
    + lia.
    + lia.
    + apply assigned_upto_fresh.
    + exists k. split; [lia | done].
Qed.

Lemma solve_assigns_prefix_witness :
  length [None; Some true; None] = 3 ∧
  ∃ k, k ≤ 2 ∧ assigned_upto k [None; Some true; None] ∧
       (k < 2 → ∀ c, In c [[1]%Z] → evalClause c [None; Some true; None] = Some true).
Proof. apply (solve_assigns_prefix (mk [[1]%Z] 2)). reflexivity. Defined.

(** C6 (no leaked search state).  When [dpll] returns [null], every entry of
    the shared array reads as it did on entry, in particular the variable
    this level branched on is unassigned again; a later search on the array
    cannot be told from the same search on the array as it was on entry;
    and on an array that has an entry for every variable, as [solve]
    allocates it, the array on return is the array on entry. *)
Theorem dpll_no_leak (s : t) (fuel : nat) (a a' : Assignment) :
  dpll s fuel a = Some (false, a') →
  (∀ i, js_get a' i = js_get a i) ∧
  (∀ v, chooseVar s a = Some v → js_get a' v = None) ∧
  (∀ fuel', same_outcome (dpll s fuel' a') (dpll s fuel' a)) ∧
  (numVars s < length a → a' = a).
Proof.
  intros H. apply dpll_run_of_fuel in H.
  pose proof (dpll_run_fail_same_reads _ _ _ _ H eq_refl) as Hsame.
  split; [done|]. split; [|split].
  - intros v Hv. rewrite Hsame. by apply chooseVar_Some in Hv as (_ & ? & _).
  - intros fuel'. by apply dpll_same_reads.
  - intros Hlen. by destruct (dpll_run_frame _ _ _ _ H Hlen) as [_ ->].
Qed.

Lemma dpll_no_leak_witness :
  dpll (mk [[1]; [-1]]%Z 1) 2 [None; None] = Some (false, [None; None]) ∧
  (∀ i, js_get [None; None] i = js_get [None; None] i) ∧
  (∀ v, chooseVar (mk [[1]; [-1]]%Z 1) [None; None] = Some v →
        js_get [None; None] v = None) ∧
  (∀ fuel', same_outcome (dpll (mk [[1]; [-1]]%Z 1) fuel' [None; None])
                         (dpll (mk [[1]; [-1]]%Z 1) fuel' [None; None])) ∧
  (numVars (mk [[1]; [-1]]%Z 1) < length ([None; None] : Assignment) →
   ([None; None] : Assignment) = [None; None]).
Proof.
  split; [reflexivity|].
  apply (dpll_no_leak (mk [[1]; [-1]]%Z 1) 2 [None; None] [None; None]).
  reflexivity.
Defined.

(** C7 (fixed branching policy).  [solve] returns, and returns what the
    reference search of the design returns: the search that branches on the
    lowest-numbered unassigned variable and tries [true] before [false].
    Being a function of the clause list and the variable count, the result
    is the same on every run. *)
Theorem solve_refines_reference (s : t) :
  solve s = Some (Reference.decide_formula (clauses s) (numVars s)).
Proof.
  assert (length (freshAssignment s) = S (numVars s)) as Hlen
    by apply length_replicate.
  unfold Reference.decide_formula.
  replace (seq 1 (numVars s)) with (seq 1 (numVars s - 0))
    by (by rewrite Nat.sub_0_r).
  destruct (solve_returns s) as [[a|] Hs]; rewrite Hs; f_equal; symmetry.
  - apply solve_Some_run in Hs.
    apply (dpll_run_refines _ _ _ _ Hs 0); [lia | lia | apply assigned_upto_fresh].
  - apply solve_None_run in Hs as [a' Hs].
    apply (dpll_run_refines _ _ _ _ Hs 0); [lia | lia | apply assigned_upto_fresh].
Qed.

(** C10 (out-of-range literals are not detected).  With one allocated
    variable and the clause [[5]], [solve] returns an assignment although the
    clause does not evaluate to true under it: after variable 1 is assigned,
    no variable is left to branch on while the clause is still undecided. *)
Theorem out_of_range_not_detected :
  let s := mk [[5]%Z] 1 in
  let a := [None; Some true] in
  ¬ well_formed s ∧
  solve s = Some (Some a) ∧
  evalClause [5]%Z a = None ∧
  scanClauses (clauses s) a true = Scanned false ∧
  chooseVar s a = None ∧
  ¬ satisfies a (clauses s).
Proof.
  simpl. split.
  { intros Hwf. specialize (Hwf [5]%Z (or_introl eq_refl) 5%Z (or_introl eq_refl)).
    simpl in Hwf. lia. }
  do 4 (split; [reflexivity|]).
  intros Hsat. destruct (Hsat [5]%Z (or_introl eq_refl)) as (lit & [<- | []] & Hl).
  by destruct Hl as (val & Hget & _).
Qed.

Example dpll_fail_short_array :
  dpll (mk [[1]; [-1]]%Z 1) 2 [] = Some (false, [None; None]).
Proof. reflexivity. Qed.

Lemma rows_from_positive {A} n (candidates : list (list A)) i row :
  rows_from n candidates !! i = Some row → Forall (λ v, 0 < v) row.
Proof.
  intros Hrow. pose proof (rows_from_range n candidates) as Hall.
  eapply Forall_lookup_1 in Hall; [|done].
  eapply Forall_impl; [|apply Hall]. intros v Hv. simpl in Hv. lia.
Qed.

(** One family of entities (organisations, or labels): the clauses of the
    "exactly one" block force one selector per constrained entity. *)
Lemma family_exactly_one {A} (a : Assignment) (sat s0 s1 : t) count n
    (candidates : list (list A)) :
  satisfies a (clauses sat) →
  exactlyOneEach count (rows_from n candidates) s0 = Some s1 →
  grows s1 sat →
  ∀ i cands, i < count → candidates !! i = Some cands → cands ≠ [] →
  ∃ row p, rows_from n candidates !! i = Some row ∧
           length row = length cands ∧ p < length cands ∧
           exactly_one_true a row p ∧
           chosen a (rows_from n candidates) candidates i = Some (cands !! p).
Proof.
  intros Hsat E Hg i cands Hi Hc Hne.
  destruct (exactlyOneEach_In _ _ _ _ i E Hi) as (row & Hrow & Hposc & Hnegc).
  destruct (rows_from_lookup n candidates i cands Hc) as (row' & Hrow' & Hlen).
  assert (row' = row) as -> by congruence.
  assert (row ≠ []) as Hrne.
  { intros ->. destruct cands; [done | simpl in Hlen; lia]. }
  destruct (selected_once a (clauses sat) (rows_from n candidates) candidates
              i row cands) as (p & Hp & Hone & Hch); try done.
  - by eapply rows_from_positive.
  - eapply grows_In; [done|]. by apply Hposc.
  - intros p1 p2 v1 v2 Hlt H1 H2. eapply grows_In; [done|]. by eapply Hnegc.
  - by exists row, p.
Qed.

(** C4 (exactly-one selection).  In an assignment returned by [solve] on the
    formula built by [encodeSAT], each organisation and each circle label
    with a non-empty candidate list has exactly one selector that is [true],
    and the decoder picks the candidate of that selector. *)
Theorem exactly_one_selector (data : Data) (analysis : list Analysis)
    (circleCandidates : list (list Circle))
    (orgCandidates : list (list Position))
    (labelCandidates : list (list LabelPosition))
    (sat : t) (enc : Encoding) (a : Assignment) :
  encodeSAT SATSolver.new data analysis circleCandidates orgCandidates
    labelCandidates = Some (sat, enc) →
  solve sat = Some (Some a) →
  (∀ i cands, i < length (organizations data) →
     orgCandidates !! i = Some cands → cands ≠ [] →
     ∃ row p, orgVars enc !! i = Some row ∧ length row = length cands ∧
              p < length cands ∧ exactly_one_true a row p ∧
              chosen a (orgVars enc) orgCandidates i = Some (cands !! p)) ∧
  (∀ i cands, i < length (enc_circles enc) →
     labelCandidates !! i = Some cands → cands ≠ [] →
     ∃ row p, labelVars enc !! i = Some row ∧ length row = length cands ∧
              p < length cands ∧ exactly_one_true a row p ∧
              chosen a (labelVars enc) labelCandidates i = Some (cands !! p)).
Proof.
  intros Henc Hsol.
  pose proof (solve_satisfies sat a (encodeSAT_well_formed _ _ _ _ _ _ _ Henc) Hsol)
    as Hsat.
  apply encodeSAT_phases in Henc
    as (circles & s1 & s2 & s3 & _ & -> & E1 & E2 & E3 & E4).
  simpl in *.
  pose proof (noOverlaps_grows _ _ _ _ _ _ E3) as G3.
  pose proof (noOverlaps_grows _ _ _ _ _ _ E4) as G4.
  pose proof (exactlyOneEach_grows _ _ _ _ E2) as G2.
  split.
  - eapply family_exactly_one; [done | exact E1 |].
    eapply grows_trans; [exact G2|]. by eapply grows_trans.
  - eapply family_exactly_one; [done | exact E2 |]. by eapply grows_trans.
Qed.

Lemma exactly_one_selector_witness :
  (∃ row p, orgVars demo_encoding !! 0 = Some row ∧ length row = 2 ∧ p < 2 ∧
            exactly_one_true demo_solution row p ∧
            chosen demo_solution (orgVars demo_encoding) demo_orgCandidates 0
            = Some ([at_point 0 0; at_point 100 0] !! p)) ∧
  (∃ row p, labelVars demo_encoding !! 1 = Some row ∧ length row = 1 ∧ p < 1 ∧
            exactly_one_true demo_solution row p ∧
            chosen demo_solution (labelVars demo_encoding) demo_labelCandidates 1
            = Some ([label_at 5 0] !! p)).
Proof.
  destruct (exactly_one_selector demo_data [] [demo_circles] demo_orgCandidates
              demo_labelCandidates demo_formula demo_encoding demo_solution)
    as [Horg Hlabel].
  - vm_compute. reflexivity.
  - vm_compute. reflexivity.
  - split.
    + apply (Horg 0 [at_point 0 0; at_point 100 0]);
        [simpl; lia | reflexivity | discriminate].
    + apply (Hlabel 1 [label_at 5 0]);
        [simpl; lia | reflexivity | discriminate].
Defined.

(** C5 (mutual exclusion).  In an assignment returned by [solve] on the
    formula built by [encodeSAT], two candidates of two different
    organisations that [positionsOverlap] (threshold 60) reports as
    conflicting, or of two different labels that [labelsOverlap] reports as
    conflicting, have selectors, and the two selectors are never both
    [true]. *)
Theorem no_conflicting_pair (data : Data) (analysis : list Analysis)
    (circleCandidates : list (list Circle))
    (orgCandidates : list (list Position))
    (labelCandidates : list (list LabelPosition))
    (sat : t) (enc : Encoding) (a : Assignment) :
  encodeSAT SATSolver.new data analysis circleCandidates orgCandidates
    labelCandidates = Some (sat, enc) →
  solve sat = Some (Some a) →
  (∀ i j pi pj ci cj, i < j < length (organizations data) →
     orgCandidates !! i ≫= (.!! pi) = Some ci →
     orgCandidates !! j ≫= (.!! pj) = Some cj →
     positionsOverlap ci cj 60 = true →
     ∃ vi vj, orgVars enc !! i ≫= (.!! pi) = Some vi ∧
              orgVars enc !! j ≫= (.!! pj) = Some vj ∧
              ¬ (js_get a vi = Some true ∧ js_get a vj = Some true)) ∧
  (∀ i j pi pj li lj circle_i circle_j, i < j →
     enc_circles enc !! i = Some circle_i →
     enc_circles enc !! j = Some circle_j →
     labelCandidates !! i ≫= (.!! pi) = Some li →
     labelCandidates !! j ≫= (.!! pj) = Some lj →
     labelsOverlap li (c_name circle_i) lj (c_name circle_j) = true →
     ∃ vi vj, labelVars enc !! i ≫= (.!! pi) = Some vi ∧
              labelVars enc !! j ≫= (.!! pj) = Some vj ∧
              ¬ (js_get a vi = Some true ∧ js_get a vj = Some true)).
Proof.
  intros Henc Hsol.
  pose proof (solve_satisfies sat a (encodeSAT_well_formed _ _ _ _ _ _ _ Henc) Hsol)
    as Hsat.
  apply encodeSAT_phases in Henc
    as (circles & s1 & s2 & s3 & _ & -> & E1 & E2 & E3 & E4).
  simpl in *.
  pose proof (noOverlaps_grows _ _ _ _ _ _ E4) as G4.
  split.
  - intros i j pi pj ci cj Hij Hci Hcj Hov.
    destruct (noOverlaps_In _ _ _ _ _ _ i j pi pj ci cj E3 Hij Hci Hcj)
      as (vi & vj & Hvi & Hvj & Hin); [by rewrite Hov|].
    exists vi, vj. split; [done|]. split; [done|].
    apply not_both_true, Hsat. by eapply grows_In.
  - intros i j pi pj li lj circle_i circle_j Hij Hi Hj Hli Hlj Hov.
    destruct (noOverlaps_In _ _ _ _ _ _ i j pi pj li lj E4) as
      (vi & vj & Hvi & Hvj & Hin); try done.
    + split; [lia|]. by apply lookup_lt_Some in Hj.
    + by rewrite Hi, Hj, Hov.
    + exists vi, vj. split; [done|]. split; [done|].
      by apply not_both_true, Hsat.
Qed.

Lemma no_conflicting_pair_witness :
  (∃ vi vj, orgVars demo_encoding !! 0 ≫= (.!! 0) = Some vi ∧
            orgVars demo_encoding !! 1 ≫= (.!! 0) = Some vj ∧
            ¬ (js_get demo_solution vi = Some true ∧
               js_get demo_solution vj = Some true)) ∧
  (∃ vi vj, labelVars demo_encoding !! 0 ≫= (.!! 0) = Some vi ∧
            labelVars demo_encoding !! 1 ≫= (.!! 0) = Some vj ∧
            ¬ (js_get demo_solution vi = Some true ∧
               js_get demo_solution vj = Some true)).
Proof.
  destruct (no_conflicting_pair demo_data [] [demo_circles] demo_orgCandidates
              demo_labelCandidates demo_formula demo_encoding demo_solution)
    as [Horg Hlabel].
  - vm_compute. reflexivity.
  - vm_compute. reflexivity.
  - split.
    + apply (Horg 0 1 0 0 (at_point 0 0) (at_point 10 0));
        [simpl; lia | reflexivity | reflexivity | vm_compute; reflexivity].
    + apply (Hlabel 0 1 0 0 (label_at 0 0) (label_at 5 0)
               (demo_circle "A") (demo_circle "B"));
        [lia | reflexivity | reflexivity | reflexivity | reflexivity
        | vm_compute; reflexivity].
Defined.

(** Every clause [encodeSAT] emits is an at-least-one clause of positive
    literals or a clause of two literals. *)
Lemma encodeSAT_clause_shapes data analysis circleCandidates orgCandidates
    labelCandidates sat enc :
  encodeSAT SATSolver.new data analysis circleCandidates orgCandidates
    labelCandidates = Some (sat, enc) →
  ∀ c, In c (clauses sat) → (∀ lit, In lit c → (0 < lit)%Z) ∨ length c = 2.
Proof.
  intros Henc.
  destruct (encodeSAT_all_clauses
              (λ c, (∀ lit, In lit c → (0 < lit)%Z) ∨ length c = 2)
              SATSolver.new data analysis circleCandidates orgCandidates
              labelCandidates sat enc) as [Hall _]; [| | |exact Henc|done].
  - intros row _ Hrow. left. intros lit Hin.
    apply in_map_iff in Hin as (v & <- & Hv).
    rewrite List.Forall_forall in Hrow. specialize (Hrow v Hv). unfold pos. lia.
  - intros v1 v2 _ _. by right.
  - intros c [].
Qed.

(** C8 (no label-over-circle constraint).  The label-versus-circle block of
    [encodeSAT] hands back the solver it received, whatever
    [labelOverlapsCircle] answers, and the formula built by [encodeSAT]
    contains no clause [[-v]] that would forbid the selector [v] of a label
    candidate. *)
Theorem label_circle_block_emits_nothing :
  (∀ circles labelCandidates s s',
     labelCircleBlock circles labelCandidates s = Some s' → s' = s) ∧
  (∀ data analysis circleCandidates orgCandidates labelCandidates sat enc,
     encodeSAT SATSolver.new data analysis circleCandidates orgCandidates
       labelCandidates = Some (sat, enc) →
     ∀ i p v, labelVars enc !! i ≫= (.!! p) = Some v →
              ¬ In [neg v] (clauses sat)).
Proof.
  split; [apply labelCircleBlock_id|].
  intros data analysis circleCandidates orgCandidates labelCandidates sat enc
    Henc i p v _ Hin.
  destruct (encodeSAT_clause_shapes _ _ _ _ _ _ _ Henc _ Hin) as [Hpos | Hlen];
    [|done].
  specialize (Hpos (neg v) (or_introl eq_refl)). unfold neg in Hpos. lia.
Qed.

Lemma label_circle_block_emits_nothing_witness :
  labelOverlapsCircle (label_at 0 0) "A" (demo_circle "A") = true ∧
  labelCircleBlock demo_circles demo_labelCandidates demo_formula
    = Some demo_formula ∧
  ¬ In [neg 4] (clauses demo_formula).
Proof.
  destruct label_circle_block_emits_nothing as [Hblock Hnone].
  split; [vm_compute; reflexivity|]. split.
  - destruct (labelCircleBlock demo_circles demo_labelCandidates demo_formula)
      as [s'|] eqn:E.
    + by rewrite (Hblock _ _ _ _ E).
    + vm_compute in E. discriminate E.
  - apply (Hnone demo_data [] [demo_circles] demo_orgCandidates
             demo_labelCandidates demo_formula demo_encoding
             ltac:(vm_compute; reflexivity) 0 0 4).
    reflexivity.
Defined.

(** C9 (unsatisfiable triggers the fallback).  Once the formula is encoded:
    when [solve] returns [null], [optimize] makes the single call
    [fallbackLayout] and returns its result; when [solve] returns an
    assignment, [optimize] makes the single call [extractSolution] and
    returns its result. *)
Theorem optimize_dispatch `{this : Optimizer} (data : Data) (sat : t)
    (enc : Encoding) :
  let analysis := analyzeRelationships data in
  let circleCandidates := generateCircleCandidates analysis in
  let orgCandidates :=
    generateOrgCandidates (organizations data) circleCandidates in
  let labelCandidates := generateLabelCandidates circleCandidates in
  encodeSAT SATSolver.new data analysis circleCandidates orgCandidates
    labelCandidates = Some (sat, enc) →
  (solve sat = Some None →
   optimize data = Some ([CallFallbackLayout], fallbackLayout data analysis)) ∧
  (∀ a, solve sat = Some (Some a) →
   optimize data =
   (λ layout, ([CallExtractSolution], layout)) <$>
     extractSolution a enc data circleCandidates orgCandidates labelCandidates).
Proof.
  intros analysis circleCandidates orgCandidates labelCandidates Henc.
  unfold optimize.
  fold analysis. fold circleCandidates. fold orgCandidates. fold labelCandidates.
  rewrite Henc. simpl.
  split.
  - by intros ->.
  - intros a ->. simpl.
    by destruct (extractSolution a enc data circleCandidates orgCandidates
                   labelCandidates).
Qed.

Lemma optimize_dispatch_witness :
  @optimize (demo_optimizer clash_orgCandidates) demo_data =
    Some ([CallFallbackLayout],
          @fallbackLayout (demo_optimizer clash_orgCandidates) demo_data
            (analyzeRelationships demo_data)) ∧
  @optimize (demo_optimizer demo_orgCandidates) demo_data =
    (λ layout, ([CallExtractSolution], layout)) <$>
      extractSolution demo_solution demo_encoding demo_data
        [demo_circles; demo_circles; demo_circles; demo_circles; demo_circles;
         demo_circles]
        demo_orgCandidates demo_labelCandidates.
Proof.
  split.
  - apply (@optimize_dispatch (demo_optimizer clash_orgCandidates) demo_data
             {| clauses := [[1]; [2]; [3; 4]; [-3; -4]; [5]; [-1; -2]; [-3; -5]]%Z;
                numVars := 5 |}
             {| orgVars := [[1]; [2]]; labelVars := [[3; 4]; [5]];
                enc_circles := demo_circles |}).
    + vm_compute. reflexivity.
    + vm_compute. reflexivity.
  - apply (@optimize_dispatch (demo_optimizer demo_orgCandidates) demo_data
             demo_formula demo_encoding).
    + vm_compute. reflexivity.
    + vm_compute. reflexivity.
Defined.

(** * Part IV: further properties of the code *)

(** ** The engine *)

(** X1.  [evalClause] looks at a clause as a set: reordering or repeating
    literals does not change its verdict. *)
Theorem evalClause_literal_set (c c' : list Z) (a : Assignment) :
  (∀ lit, In lit c ↔ In lit c') → evalClause c a = evalClause c' a.
Proof.
  assert (∀ c1 c2 b, (∀ lit, In lit c1 ↔ In lit c2) →
            evalClause c1 a = Some b → evalClause c2 a = Some b) as Hmove.
  { intros c1 c2 [] Hset.
    - rewrite !evalClause_true. intros (l & Hin & Hl). exists l.
      split; [by apply Hset | done].
    - rewrite !evalClause_false. intros H l Hin. by apply H, Hset. }
  intros Hset. destruct (evalClause c a) as [b|] eqn:E.
  - symmetry. by apply (Hmove c c').
  - destruct (evalClause c' a) as [b|] eqn:E'; [|done].
    apply (Hmove c' c) in E'; [congruence|]. intros lit. by rewrite Hset.
Qed.

Lemma evalClause_literal_set_witness :
  evalClause [1; -2; 1]%Z [None; Some false; None]
  = evalClause [-2; 1]%Z [None; Some false; None].
Proof.
  apply (evalClause_literal_set [1; -2; 1]%Z [-2; 1]%Z).
  intros lit. simpl. tauto.
Defined.

Lemma scanClauses_not_conflict cls a acc b :
  scanClauses cls a acc = Scanned b → ∀ c, In c cls → evalClause c a ≠ Some false.
Proof.
  intros Hs c Hc Hf.
  assert (scanClauses cls a acc = Conflict) as Hcf
    by (apply scanClauses_conflict; eauto).
  congruence.
Qed.

Lemma scanClauses_clause_set cls cls' a :
  (∀ c, In c cls ↔ In c cls') →
  scanClauses cls a true = scanClauses cls' a true.
Proof.
  assert (∀ l1 l2, (∀ c, In c l1 ↔ In c l2) → ∀ r,
            r ≠ Scanned false →
            scanClauses l1 a true = r → scanClauses l2 a true = r) as Hmove.
  { intros l1 l2 Hset [|[]] Hr; [| |done].
    - rewrite !scanClauses_conflict. intros (c & Hin & Hc). exists c.
      split; [by apply Hset | done].
    - rewrite !scanClauses_all_satisfied. intros [_ H]. split; [done|].
      intros c Hin. by apply H, Hset. }
  intros Hset.
  destruct (scanClauses cls a true) as [|[]] eqn:E.
  - symmetry. by apply (Hmove cls cls').
  - symmetry. by apply (Hmove cls cls').
  - destruct (scanClauses cls' a true) as [|[]] eqn:E'; [| |done].
    + apply (Hmove cls' cls) in E'; [congruence| |done]. intros c. by rewrite Hset.
    + apply (Hmove cls' cls) in E'; [congruence| |done]. intros c. by rewrite Hset.
Qed.

Lemma dpll_clause_set cls cls' n fuel a :
  (∀ c, In c cls ↔ In c cls') →
  dpll (mk cls n) fuel a = dpll (mk cls' n) fuel a.
Proof.
  intros Hset. revert a. induction fuel as [|fuel IH]; intros a; simpl; [done|].
  rewrite (scanClauses_clause_set cls cls') by done.
  destruct (scanClauses cls' a true) as [|[]]; [done..|].
  unfold chooseVar. simpl.
  destruct (List.find _ (seq 1 n)) as [v|]; [|done].
  rewrite IH. destruct (dpll (mk cls' n) fuel _) as [[[] a1]|]; [done| |done].
  by rewrite IH.
Qed.

(** X2.  [solve] looks at the formula as a set of clauses: the order in
    which clauses were added, and clauses added twice, do not change the
    result. *)
Theorem solve_clause_set (cls cls' : list (list Z)) (n : nat) :
  (∀ c, In c cls ↔ In c cls') → solve (mk cls n) = solve (mk cls' n).
Proof.
  intros Hset. unfold solve.
  rewrite (dpll_clause_set cls cls') by done. reflexivity.
Qed.

Lemma solve_clause_set_witness :
  solve (mk [[1; 2]; [-1]; [1; 2]]%Z 2) = solve (mk [[-1]; [1; 2]]%Z 2).
Proof.
  apply (solve_clause_set [[1; 2]; [-1]; [1; 2]]%Z [[-1]; [1; 2]]%Z 2).
  intros c. simpl. tauto.
Defined.

(** X3.  A formula that contains the empty clause is reported
    unsatisfiable at once: [dpll] returns [null] without writing to the
    array, whatever the other clauses and the array are. *)
Theorem empty_clause_unsat (s : t) :
  In [] (clauses s) →
  (∀ fuel a, dpll s (S fuel) a = Some (false, a)) ∧ solve s = Some None.
Proof.
  intros Hin.
  assert (∀ fuel a, dpll s (S fuel) a = Some (false, a)) as H.
  { intros fuel a. simpl.
    assert (scanClauses (clauses s) a true = Conflict) as ->; [|done].
    apply scanClauses_conflict. by exists []. }
  split; [done|]. unfold solve. by rewrite H.
Qed.

Lemma empty_clause_unsat_witness :
  (∀ fuel a, dpll (mk [[1]; []]%Z 1) (S fuel) a = Some (false, a)) ∧
  solve (mk [[1]; []]%Z 1) = Some None.
Proof. apply (empty_clause_unsat (mk [[1]; []]%Z 1)). simpl. tauto. Defined.

(** X4.  An array under which every clause already evaluates to true is
    returned as it is; in particular a formula without clauses is satisfied
    by the array [solve] starts from, in which no variable is assigned. *)
Theorem satisfied_returned_untouched (s : t) :
  (∀ fuel a, (∀ c, In c (clauses s) → evalClause c a = Some true) →
             dpll s (S fuel) a = Some (true, a)) ∧
  (clauses s = [] → solve s = Some (Some (replicate (S (numVars s)) None))).
Proof.
  assert (∀ fuel a, (∀ c, In c (clauses s) → evalClause c a = Some true) →
                    dpll s (S fuel) a = Some (true, a)) as H.
  { intros fuel a Hall. simpl.
    assert (scanClauses (clauses s) a true = Scanned true) as ->; [|done].
    by apply scanClauses_all_satisfied. }
  split; [done|]. intros Hnil. unfold solve.
  rewrite H; [done|]. rewrite Hnil. intros c [].
Qed.

Lemma satisfied_returned_untouched_witness :
  dpll (mk [[1; -2]]%Z 2) 1 [None; None; Some false]
    = Some (true, [None; None; Some false]) ∧
  solve (mk [] 3) = Some (Some [None; None; None; None]).
Proof.
  destruct (satisfied_returned_untouched (mk [[1; -2]]%Z 2)) as [H _].
  destruct (satisfied_returned_untouched (mk [] 3)) as [_ H'].
  split.
  - apply H. intros c [<- | []]. reflexivity.
  - by apply H'.
Defined.

(** What the search may write: only variables [1..numVars] that are
    unassigned when it is called. *)
Lemma dpll_run_writes s a r a' :
  dpll_run s a r a' →
  (∀ i b, js_get a i = Some b → js_get a' i = Some b) ∧
  (∀ i, i = 0 ∨ numVars s < i → js_get a' i = js_get a i).
Proof.
  induction 1 as [a|a|a|a v a1 _ Hv _ IH1|a v a1 a2 _ Hv H1 _ _ IH2
                 |a v a1 a2 Hs Hv H1 _ H2 _]; try done.
  - apply chooseVar_Some in Hv as (Hr & Hund & _). destruct IH1 as [IHa IHb].
    split.
    + intros i b Hi. apply IHa. rewrite js_get_set_ne; [done | congruence].
    + intros i Hi. rewrite IHb by done. apply js_get_set_ne. lia.
  - apply chooseVar_Some in Hv as (Hr & Hund & _). destruct IH2 as [IHa IHb].
    pose proof (dpll_run_fail_same_reads _ _ _ _ H1 eq_refl) as Hsame.
    split.
    + intros i b Hi. apply IHa.
      assert (v ≠ i) by congruence.
      by rewrite js_get_set_ne, Hsame, js_get_set_ne.
    + intros i Hi. rewrite IHb by done.
      assert (v ≠ i) by lia.
      by rewrite js_get_set_ne, Hsame, js_get_set_ne.
  - assert (same_reads (js_set a2 v None) a) as Hsame.
    { eapply (dpll_run_fail_same_reads s a false); [|done].
      by apply (run_backtrack s a v a1 a2). }
    split; intros i; intros; by rewrite Hsame.
Qed.

(** X5.  The search writes only to variables that were unassigned when it
    was called: whatever [dpll] returns, an entry that held a boolean on
    entry holds the same boolean on return, and index 0 and the indices above
    [numVars] read as they did on entry. *)
Theorem dpll_keeps_assigned (s : t) (fuel : nat) (a a' : Assignment) (r : bool) :
  dpll s fuel a = Some (r, a') →
  (∀ i b, js_get a i = Some b → js_get a' i = Some b) ∧
  (∀ i, i = 0 ∨ numVars s < i → js_get a' i = js_get a i).
Proof. intros H. by eapply dpll_run_writes, dpll_run_of_fuel. Qed.

Lemma dpll_keeps_assigned_witness :
  dpll (mk [[-1; 2]; [-2; 3]]%Z 3) 3 [None; Some true; None; None]
    = Some (true, [None; Some true; Some true; Some true]) ∧
  (∀ i b, js_get [None; Some true; None; None] i = Some b →
          js_get [None; Some true; Some true; Some true] i = Some b) ∧
  (∀ i, i = 0 ∨ 3 < i →
        js_get [None; Some true; Some true; Some true] i
        = js_get [None; Some true; None; None] i).
Proof.
  split; [reflexivity|].
  apply (dpll_keeps_assigned (mk [[-1; 2]; [-2; 3]]%Z 3) 3
           [None; Some true; None; None] [None; Some true; Some true; Some true]
           true).
  reflexivity.
Defined.

Lemma dpll_run_unallocated s a r a' :
  (∀ c, In c (clauses s) →
        ∃ lit, In lit c ∧ (Z.abs_nat lit = 0 ∨ numVars s < Z.abs_nat lit)) →
  dpll_run s a r a' →
  (∀ i, i = 0 ∨ numVars s < i → js_get a i = None) →
  r = true.
Proof.
  intros Hopen.
  induction 1 as [a Hs|a|a|a v a1 _ Hv _ IH1|a v a1 a2 _ Hv H1 IH1 _ IH2
                 |a v a1 a2 _ Hv H1 IH1 _ IH2]; intros Hout; try done.
  - apply scanClauses_conflict in Hs as (c & Hc & Hf).
    destruct (Hopen c Hc) as (lit & Hin & Hlit).
    destruct (proj1 (evalClause_false c a) Hf lit Hin) as (val & Hval & _).
    rewrite Hout in Hval; done.
  - apply chooseVar_Some in Hv as (Hr & _).
    apply IH1. intros i Hi. rewrite js_get_set_ne by lia. by apply Hout.
Qed.

(** X6.  Literals that name no allocated variable (0, or a number above
    [numVars]) are never assigned, so a clause that contains one is never
    found violated: a formula in which every clause contains such a literal is
    always reported satisfiable. *)
Theorem unallocated_literals_never_fail (s : t) :
  (∀ c, In c (clauses s) →
        ∃ lit, In lit c ∧ (Z.abs_nat lit = 0 ∨ numVars s < Z.abs_nat lit)) →
  ∃ a, solve s = Some (Some a).
Proof.
  intros Hopen. destruct (solve_returns s) as [[a|] Hs]; [by exists a|].
  apply solve_None_run in Hs as [a' Hrun].
  apply (dpll_run_unallocated s _ _ _ Hopen) in Hrun; [done|].
  intros i _. unfold freshAssignment. apply js_get_fresh.
Qed.

Lemma unallocated_literals_never_fail_witness :
  ∃ a, solve (mk [[1; 7]; [-1; 0]; [9]]%Z 1) = Some (Some a).
Proof.
  apply (unallocated_literals_never_fail (mk [[1; 7]; [-1; 0]; [9]]%Z 1)).
  intros c Hc. simpl in Hc.
  destruct Hc as [<- | [<- | [<- | []]]].
  - exists 7%Z. split; [simpl; tauto | right; simpl; lia].
  - exists 0%Z. split; [simpl; tauto | left; reflexivity].
  - exists 9%Z. split; [simpl; tauto | right; simpl; lia].
Defined.

(** ** The encoder *)

Lemma concat_rows_from {A} n (candidates : list (list A)) :
  concat (rows_from n candidates) = seq (S n) (total_length candidates).
Proof.
  revert n. induction candidates as [|positions rest IH]; intros n; [done|].
  unfold total_length in *. simpl. by rewrite IH, seq_app.
Qed.

Lemma map_length_rows_from {A} n (candidates : list (list A)) :
  map length (rows_from n candidates) = map length candidates.
Proof.
  revert n. induction candidates as [|positions rest IH]; intros n; [done|].
  simpl. by rewrite length_seq, IH.
Qed.

Lemma length_rows_from {A} n (candidates : list (list A)) :
  length (rows_from n candidates) = length candidates.
Proof.
  rewrite <- (length_map length), map_length_rows_from. apply length_map.
Qed.

(** X7.  [encodeSAT] on a fresh solver hands out one selector per candidate:
    read entity by entity, organisations first, the selectors are the numbers
    1, 2, ..., N in this order, where N, the final variable count, is the
    total number of candidates; the rows of selectors have the lengths of the
    candidate lists. *)
Theorem encodeSAT_selectors (data : Data) (analysis : list Analysis)
    (circleCandidates : list (list Circle))
    (orgCandidates : list (list Position))
    (labelCandidates : list (list LabelPosition))
    (sat : t) (enc : Encoding) :
  encodeSAT SATSolver.new data analysis circleCandidates orgCandidates
    labelCandidates = Some (sat, enc) →
  numVars sat = list_sum (map length orgCandidates)
                + list_sum (map length labelCandidates) ∧
  concat (orgVars enc) ++ concat (labelVars enc) = seq 1 (numVars sat) ∧
  map length (orgVars enc) = map length orgCandidates ∧
  map length (labelVars enc) = map length labelCandidates ∧
  circleCandidates !! 0 = Some (enc_circles enc).
Proof.
  intros Henc.
  apply encodeSAT_phases in Henc
    as (circles & s1 & s2 & s3 & Hc & -> & E1 & E2 & E3 & E4).
  simpl in *.
  assert (numVars sat = total_length orgCandidates + total_length labelCandidates)
    as HN.
  { apply noOverlaps_grows in E4 as [-> _]. apply noOverlaps_grows in E3 as [-> _].
    apply exactlyOneEach_grows in E2 as [-> _].
    by apply exactlyOneEach_grows in E1 as [-> _]. }
  split; [done|]. split; [|by rewrite !map_length_rows_from].
  rewrite !concat_rows_from, HN. by rewrite seq_app.
Qed.

Lemma encodeSAT_selectors_witness :
  numVars demo_formula = 3 + 3 ∧
  concat (orgVars demo_encoding) ++ concat (labelVars demo_encoding)
    = seq 1 (numVars demo_formula) ∧
  map length (orgVars demo_encoding) = [2; 1] ∧
  map length (labelVars demo_encoding) = [2; 1] ∧
  [demo_circles] !! 0 = Some (enc_circles demo_encoding).
Proof.
  apply (encodeSAT_selectors demo_data [] [demo_circles] demo_orgCandidates
           demo_labelCandidates demo_formula demo_encoding).
  vm_compute. reflexivity.
Defined.

Lemma for_range_Some start count body s :
  (∀ i s0, start ≤ i < start + count → is_Some (body i s0)) →
  is_Some (for_range start count body s).
Proof.
  revert start s. induction count as [|count IH]; intros start s Hbody; simpl.
  - by eexists.
  - destruct (Hbody start s) as [s1 ->]; [lia|].
    apply IH. intros i s0 Hi. apply Hbody. lia.
Qed.

Lemma exactlyOneEach_Some count vars s :
  count ≤ length vars → is_Some (exactlyOneEach count vars s).
Proof.
  intros Hle. apply for_range_Some. intros i s0 Hi.
  destruct (lookup_lt_is_Some_2 vars i) as [row ->]; [lia | by eexists].
Qed.

Lemma exactlyOneEach_bound count vars s s' :
  exactlyOneEach count vars s = Some s' → count ≤ length vars.
Proof.
  intros H. destruct (decide (count ≤ length vars)) as [|Hgt]; [done|].
  destruct (exactlyOneEach_In _ _ _ _ (length vars) H) as (row & Hrow & _); [lia|].
  apply lookup_lt_Some in Hrow. lia.
Qed.

Lemma noOverlaps_Some {A} count n (candidates : list (list A)) overlap s :
  count ≤ length candidates →
  (∀ i j a b, i < count → j < count → is_Some (overlap i a j b)) →
  is_Some (noOverlaps count candidates (rows_from n candidates) overlap s).
Proof.
  intros Hle Hov.
  apply for_range_Some. intros i s0 Hi.
  apply for_range_Some. intros j s1 Hj.
  destruct (lookup_lt_is_Some_2 candidates i) as [ci Eci]; [lia|]. rewrite Eci.
  apply for_range_Some. intros pi s2 Hpi.
  destruct (lookup_lt_is_Some_2 candidates j) as [cj Ecj]; [lia|]. rewrite Ecj.
  apply for_range_Some. intros pj s3 Hpj.
  destruct (lookup_lt_is_Some_2 ci pi) as [ai ->]; [lia|].
  destruct (lookup_lt_is_Some_2 cj pj) as [aj ->]; [lia|].
  destruct (Hov i j ai aj) as [[] ->]; [lia | lia | | by eexists].
  destruct (rows_from_lookup n candidates i ci Eci) as (ri & -> & Hli).
  destruct (rows_from_lookup n candidates j cj Ecj) as (rj & -> & Hlj).
  simpl.
  destruct (lookup_lt_is_Some_2 ri pi) as [vi ->]; [lia|].
  destruct (lookup_lt_is_Some_2 rj pj) as [vj ->]; [lia|].
  by eexists.
Qed.

Lemma labelCircleBlock_Some circles labelCandidates s :
  length circles ≤ length labelCandidates →
  is_Some (labelCircleBlock circles labelCandidates s).
Proof.
  intros Hle. apply for_range_Some. intros i s0 Hi.
  destruct (lookup_lt_is_Some_2 circles i) as [c ->]; [lia|].
  destruct (lookup_lt_is_Some_2 labelCandidates i) as [l ->]; [lia|].
  by eexists.
Qed.

Lemma encodeSAT_is_Some data analysis circleCandidates circles
    (orgCandidates : list (list Position))
    (labelCandidates : list (list LabelPosition)) :
  circleCandidates !! 0 = Some circles →
  length (organizations data) ≤ length orgCandidates →
  length circles ≤ length labelCandidates →
  is_Some (encodeSAT SATSolver.new data analysis circleCandidates orgCandidates
             labelCandidates).
Proof.
  intros Hc Horg Hlab.
  unfold encodeSAT. rewrite allocVars_spec. simpl. rewrite allocVars_spec. simpl.
  match goal with |- context [exactlyOneEach ?n ?v ?s] =>
    destruct (exactlyOneEach_Some n v s) as [s1 ->] end;
    [by rewrite length_rows_from|]. simpl.
  rewrite Hc. simpl.
  match goal with |- context [exactlyOneEach ?n ?v ?s] =>
    destruct (exactlyOneEach_Some n v s) as [s2 ->] end;
    [by rewrite length_rows_from|]. simpl.
  match goal with |- context [noOverlaps ?c ?cands (rows_from ?n _) ?ov ?s] =>
    destruct (noOverlaps_Some c n cands ov s) as [s3 ->] end;
    [done | by eexists |]. simpl.
  match goal with |- context [noOverlaps ?c ?cands (rows_from ?n _) ?ov ?s] =>
    destruct (noOverlaps_Some c n cands ov s) as [s4 ->] end; [done | |].
  { intros i j a b Hi Hj.
    destruct (lookup_lt_is_Some_2 circles i) as [ci ->]; [lia|].
    destruct (lookup_lt_is_Some_2 circles j) as [cj ->]; [lia|].
    by eexists. }
  simpl.
  destruct (labelCircleBlock_Some circles labelCandidates s4) as [s5 ->]; [done|].
  by eexists.
Qed.

Lemma encodeSAT_bounds data analysis circleCandidates
    (orgCandidates : list (list Position))
    (labelCandidates : list (list LabelPosition)) sat enc :
  encodeSAT SATSolver.new data analysis circleCandidates orgCandidates
    labelCandidates = Some (sat, enc) →
  circleCandidates !! 0 = Some (enc_circles enc) ∧
  length (organizations data) ≤ length orgCandidates ∧
  length (enc_circles enc) ≤ length labelCandidates.
Proof.
  intros Henc.
  apply encodeSAT_phases in Henc
    as (circles & s1 & s2 & s3 & Hc & -> & E1 & E2 & _ & _).
  simpl in *. split; [done|].
  apply exactlyOneEach_bound in E1, E2.
  rewrite length_rows_from in E1. rewrite length_rows_from in E2. done.
Qed.

(** X8.  When [encodeSAT] throws: it completes exactly when there is a
    first circle layout, a candidate list for every organisation and a
    candidate list for every circle of that layout; in every other case a
    property is read on [undefined]. *)
Theorem encodeSAT_completes (data : Data) (analysis : list Analysis)
    (circleCandidates : list (list Circle))
    (orgCandidates : list (list Position))
    (labelCandidates : list (list LabelPosition)) :
  is_Some (encodeSAT SATSolver.new data analysis circleCandidates orgCandidates
             labelCandidates) ↔
  ∃ circles, circleCandidates !! 0 = Some circles ∧
             length (organizations data) ≤ length orgCandidates ∧
             length circles ≤ length labelCandidates.
Proof.
  split.
  - intros [[sat enc] Henc]. exists (enc_circles enc).
    by eapply encodeSAT_bounds.
  - intros (circles & Hc & Horg & Hlab). by eapply encodeSAT_is_Some.
Qed.

(** ** The decoder *)

Lemma firstTrue_Some a row start count p :
  firstTrue a row start count = Some p →
  start ≤ p < start + count ∧
  ∃ v, row !! p = Some v ∧ js_get a v = Some true.
Proof.
  revert start. induction count as [|count IH]; intros start; simpl; [done|].
  destruct (row !! start) as [v|] eqn:Ev.
  - destruct (bool_decide (js_get a v = Some true)) eqn:Eb.
    + intros [= <-]. split; [lia|]. exists v. split; [done|].
      by apply bool_decide_eq_true_1 in Eb.
    + intros H. apply IH in H as [Hr Hv]. split; [lia | done].
  - intros H. apply IH in H as [Hr Hv]. split; [lia | done].
Qed.

Lemma chosen_Some {A} a vars (candidates : list (list A)) i c :
  chosen a vars candidates i = Some (Some c) →
  ∃ p v, candidates !! i ≫= (.!! p) = Some c ∧
         vars !! i ≫= (.!! p) = Some v ∧ js_get a v = Some true.
Proof.
  unfold chosen. destruct (candidates !! i) as [[|c0 cands]|]; [done| |done].
  destruct (vars !! i) as [row|]; [|done].
  destruct (firstTrue a row 0 _) as [p|] eqn:E; [|done].
  intros [= Hc]. apply firstTrue_Some in E as (_ & v & Hv & Ht).
  by exists p, v.
Qed.

(** X9.  The decoded placement is free of conflicts: on the formula built by
    [encodeSAT], the candidates the decoder picks from a returned assignment
    for two different organisations are never closer than the threshold 60,
    and the candidates it picks for the labels of two different circles never
    have overlapping padded text boxes. *)
Theorem decoded_placement_conflict_free (data : Data)
    (analysis : list Analysis) (circleCandidates : list (list Circle))
    (orgCandidates : list (list Position))
    (labelCandidates : list (list LabelPosition))
    (sat : t) (enc : Encoding) (a : Assignment) :
  encodeSAT SATSolver.new data analysis circleCandidates orgCandidates
    labelCandidates = Some (sat, enc) →
  solve sat = Some (Some a) →
  (∀ i j ci cj, i < j < length (organizations data) →
     chosen a (orgVars enc) orgCandidates i = Some (Some ci) →
     chosen a (orgVars enc) orgCandidates j = Some (Some cj) →
     positionsOverlap ci cj 60 = false) ∧
  (∀ i j li lj circle_i circle_j, i < j →
     enc_circles enc !! i = Some circle_i →
     enc_circles enc !! j = Some circle_j →
     chosen a (labelVars enc) labelCandidates i = Some (Some li) →
     chosen a (labelVars enc) labelCandidates j = Some (Some lj) →
     labelsOverlap li (c_name circle_i) lj (c_name circle_j) = false).
Proof.
  intros Henc Hsol.
  pose proof (solve_satisfies sat a (encodeSAT_well_formed _ _ _ _ _ _ _ Henc) Hsol)
    as Hsat.
  apply encodeSAT_phases in Henc
    as (circles & s1 & s2 & s3 & _ & -> & E1 & E2 & E3 & E4).
  simpl in *.
  pose proof (noOverlaps_grows _ _ _ _ _ _ E4) as G4.
  split.
  - intros i j ci cj Hij Hi Hj.
    apply chosen_Some in Hi as (pi & vi & Hci & Hvi & Hti).
    apply chosen_Some in Hj as (pj & vj & Hcj & Hvj & Htj).
    destruct (positionsOverlap ci cj 60) eqn:Hov; [exfalso | done].
    destruct (noOverlaps_In _ _ _ _ _ _ i j pi pj ci cj E3 Hij Hci Hcj)
      as (vi' & vj' & Hvi' & Hvj' & Hin); [by rewrite Hov|].
    assert (vi' = vi) as -> by congruence.
    assert (vj' = vj) as -> by congruence.
    apply (not_both_true a vi vj); [|done].
    apply Hsat. by eapply grows_In.
  - intros i j li lj circle_i circle_j Hij Hi Hj Hchi Hchj.
    apply chosen_Some in Hchi as (pi & vi & Hci & Hvi & Hti).
    apply chosen_Some in Hchj as (pj & vj & Hcj & Hvj & Htj).
    destruct (labelsOverlap li _ lj _) eqn:Hov; [exfalso | done].
    destruct (noOverlaps_In _ _ _ _ _ _ i j pi pj li lj E4)
      as (vi' & vj' & Hvi' & Hvj' & Hin); try done.
    + split; [lia|]. by apply lookup_lt_Some in Hj.
    + by rewrite Hi, Hj, Hov.
    + assert (vi' = vi) as -> by congruence.
      assert (vj' = vj) as -> by congruence.
      apply (not_both_true a vi vj); [|done]. by apply Hsat.
Qed.

Lemma decoded_placement_conflict_free_witness :
  positionsOverlap (at_point 100 0) (at_point 10 0) 60 = false ∧
  labelsOverlap (label_at 0 100) "A" (label_at 5 0) "B" = false.
Proof.
  destruct (decoded_placement_conflict_free demo_data [] [demo_circles]
              demo_orgCandidates demo_labelCandidates demo_formula
              demo_encoding demo_solution) as [Horg Hlabel].
  - vm_compute. reflexivity.
  - vm_compute. reflexivity.
  - split.
    + apply (Horg 0 1); [simpl; lia | vm_compute; reflexivity
                        | vm_compute; reflexivity].
    + apply (Hlabel 0 1 _ _ (demo_circle "A") (demo_circle "B"));
        [lia | reflexivity | reflexivity | vm_compute; reflexivity
        | vm_compute; reflexivity].
Defined.

Lemma forEach_from_Some {A} k (f : nat → A → option A) (l l' : list A) :
  forEach_from k f l = Some l' →
  length l' = length l ∧
  ∀ i x, l !! i = Some x → ∃ x', f (k + i) x = Some x' ∧ l' !! i = Some x'.
Proof.
  revert k l'. induction l as [|y rest IH]; intros k l'; simpl.
  - intros [= <-]. by split.
  - destruct (f k y) as [y'|] eqn:Ey; [|done].
    destruct (forEach_from (S k) f rest) as [rest'|] eqn:Er; [|done].
    intros [= <-]. destruct (IH _ _ Er) as [Hlen Hrest]. split; [simpl; lia|].
    intros [|i] x; simpl.
    + intros [= <-]. exists y'. by rewrite Nat.add_0_r.
    + intros Hx. destruct (Hrest i x Hx) as (x' & Hf & Hx').
      exists x'. split; [|done]. by replace (k + S i) with (S k + i) by lia.
Qed.

Lemma forEach_from_is_Some {A} k (f : nat → A → option A) (l : list A) :
  (∀ i x, l !! i = Some x → is_Some (f (k + i) x)) →
  is_Some (forEach_from k f l).
Proof.
  revert k. induction l as [|y rest IH]; intros k Hf; simpl; [by eexists|].
  destruct (Hf 0 y eq_refl) as [y' Hy]. rewrite Nat.add_0_r in Hy. rewrite Hy.
  destruct (IH (S k)) as [rest' ->]; [|by eexists].
  intros i x Hx. replace (S k + i) with (k + S i) by lia. by apply Hf.
Qed.

Lemma chosen_is_Some {A} a n (candidates : list (list A)) i :
  i < length candidates →
  is_Some (chosen a (rows_from n candidates) candidates i).
Proof.
  intros Hi. unfold chosen.
  destruct (lookup_lt_is_Some_2 candidates i Hi) as [cands Hc]. rewrite Hc.
  destruct cands as [|c0 cands]; [by eexists|].
  destruct (rows_from_lookup n candidates i _ Hc) as (row & -> & _).
  destruct (firstTrue a row 0 _); by eexists.
Qed.

Lemma extractSolution_is_Some data analysis circleCandidates
    (orgCandidates : list (list Position))
    (labelCandidates : list (list LabelPosition)) sat enc a :
  encodeSAT SATSolver.new data analysis circleCandidates orgCandidates
    labelCandidates = Some (sat, enc) →
  is_Some (extractSolution a enc data circleCandidates orgCandidates
             labelCandidates).
Proof.
  intros Henc.
  destruct (encodeSAT_bounds _ _ _ _ _ _ _ Henc) as (_ & Horg & Hlab).
  apply encodeSAT_phases in Henc as (circles & s1 & s2 & s3 & _ & -> & _).
  simpl in *. unfold extractSolution. simpl.
  destruct (forEach_from_is_Some 0
              (λ i org, placeOrg org <$>
                 chosen a (rows_from 0 orgCandidates) orgCandidates i)
              (organizations data)) as [orgs ->].
  { intros i org Hi. apply lookup_lt_Some in Hi. simpl.
    destruct (chosen_is_Some a 0 orgCandidates i) as [c ->]; [lia | by eexists]. }
  simpl.
  match goal with |- context [forEach_from 0 ?f circles] =>
    destruct (forEach_from_is_Some 0 f circles) as [cs ->] end; [|by eexists].
  intros i circle Hi. apply lookup_lt_Some in Hi. simpl.
  destruct (chosen_is_Some a (total_length orgCandidates) labelCandidates i)
    as [c ->]; [lia | by eexists].
Qed.

(** What the decoder does with one family of entities. *)
Lemma decode_family {A B} (a : Assignment) (sat s0 s1 : t) n
    (candidates : list (list A)) (place : B → option A → B)
    (f : nat → B → option B) (entities decoded : list B) :
  (∀ i x, f i x = place x <$> chosen a (rows_from n candidates) candidates i) →
  satisfies a (clauses sat) →
  exactlyOneEach (length entities) (rows_from n candidates) s0 = Some s1 →
  grows s1 sat →
  forEach_from 0 f entities = Some decoded →
  ∀ i x, entities !! i = Some x →
  ∃ cands, candidates !! i = Some cands ∧
    match cands with
    | [] => decoded !! i = Some (place x None)
    | _ :: _ =>
        ∃ p c v, cands !! p = Some c ∧
                 rows_from n candidates !! i ≫= (.!! p) = Some v ∧
                 js_get a v = Some true ∧
                 decoded !! i = Some (place x (Some c))
    end.
Proof.
  intros Hfeq Hsat E Hg Hdec i x Hx.
  pose proof (lookup_lt_Some _ _ _ Hx) as Hi.
  destruct (forEach_from_Some _ _ _ _ Hdec) as [_ Hall].
  destruct (Hall i x Hx) as (x' & Hf & Hx'). simpl in Hf. rewrite Hfeq in Hf.
  pose proof (exactlyOneEach_bound _ _ _ _ E) as Hb.
  rewrite length_rows_from in Hb.
  destruct (lookup_lt_is_Some_2 candidates i) as [cands Hc]; [lia|].
  exists cands. split; [done|].
  destruct cands as [|c0 cands].
  - unfold chosen in Hf. rewrite Hc in Hf. simpl in Hf. congruence.
  - destruct (family_exactly_one a sat s0 s1 _ n candidates Hsat E Hg i
                (c0 :: cands) Hi Hc) as (row & p & Hrow & Hlen & Hp & Hone & Hch);
      [done|].
    destruct (lookup_lt_is_Some_2 (c0 :: cands) p Hp) as [c Hcp].
    destruct Hone as [(v & Hv & Hvt) _].
    exists p, c, v. split; [done|]. rewrite Hrow. simpl. split; [done|].
    split; [done|]. rewrite Hch, Hcp in Hf. simpl in Hf. congruence.
Qed.

(** X10.  Encoding, solving and decoding compose: after a successful
    [encodeSAT] and [solve], [extractSolution] does not throw and returns as
    many organisations and circles as it was given; an organisation with
    candidates is returned with the coordinates of one of its candidates, the
    one whose selector is [true], and otherwise unchanged; an organisation
    without candidates is returned as it was; and likewise for the label
    coordinates of each circle. *)
Theorem extractSolution_decodes (data : Data) (analysis : list Analysis)
    (circleCandidates : list (list Circle))
    (orgCandidates : list (list Position))
    (labelCandidates : list (list LabelPosition))
    (sat : t) (enc : Encoding) (a : Assignment) :
  encodeSAT SATSolver.new data analysis circleCandidates orgCandidates
    labelCandidates = Some (sat, enc) →
  solve sat = Some (Some a) →
  ∃ layout,
    extractSolution a enc data circleCandidates orgCandidates labelCandidates
      = Some layout ∧
    length (lay_organizations layout) = length (organizations data) ∧
    length (lay_circles layout) = length (enc_circles enc) ∧
    (∀ i org, organizations data !! i = Some org →
       ∃ cands, orgCandidates !! i = Some cands ∧
         match cands with
         | [] => lay_organizations layout !! i = Some org
         | _ :: _ =>
             ∃ p c v, cands !! p = Some c ∧
                      orgVars enc !! i ≫= (.!! p) = Some v ∧
                      js_get a v = Some true ∧
                      lay_organizations layout !! i =
                      Some {| org_name := org_name org;
                              org_categories := org_categories org;
                              org_x := Some (pos_x c);
                              org_y := Some (pos_y c) |}
         end) ∧
    (∀ i circle, enc_circles enc !! i = Some circle →
       ∃ cands, labelCandidates !! i = Some cands ∧
         match cands with
         | [] => lay_circles layout !! i = Some circle
         | _ :: _ =>
             ∃ p c v, cands !! p = Some c ∧
                      labelVars enc !! i ≫= (.!! p) = Some v ∧
                      js_get a v = Some true ∧
                      lay_circles layout !! i =
                      Some (placeLabel circle (lp_x c) (lp_y c))
         end).
Proof.
  intros Henc Hsol.
  pose proof (solve_satisfies sat a (encodeSAT_well_formed _ _ _ _ _ _ _ Henc) Hsol)
    as Hsat.
  destruct (extractSolution_is_Some _ _ _ _ _ _ _ a Henc) as [layout Hex].
  exists layout. split; [done|].
  apply encodeSAT_phases in Henc
    as (circles & s1 & s2 & s3 & _ & -> & E1 & E2 & E3 & E4).
  simpl in *.
  pose proof (noOverlaps_grows _ _ _ _ _ _ E3) as G3.
  pose proof (noOverlaps_grows _ _ _ _ _ _ E4) as G4.
  pose proof (exactlyOneEach_grows _ _ _ _ E2) as G2.
  unfold extractSolution in Hex. simpl in Hex.
  destruct (forEach_from 0 _ (organizations data)) as [orgs|] eqn:Eo; [|done].
  simpl in Hex.
  destruct (forEach_from 0 _ circles) as [cs|] eqn:Ec; [|done].
  injection Hex as <-. simpl.
  split; [by apply forEach_from_Some in Eo as [? _]|].
  split; [by apply forEach_from_Some in Ec as [? _]|].
  split.
  - assert (grows s1 sat) as G1.
    { eapply grows_trans; [exact G2|]. by eapply grows_trans. }
    exact (decode_family a sat _ s1 0 orgCandidates placeOrg _ _ orgs
             (λ _ _, eq_refl) Hsat E1 G1 Eo).
  - assert (grows s2 sat) as G2' by (by eapply grows_trans).
    set (place := λ (circle : Circle) (p : option LabelPosition),
           match p with
           | None => circle
           | Some p => placeLabel circle (lp_x p) (lp_y p)
           end).
    refine (decode_family a sat s1 s2 (total_length orgCandidates)
              labelCandidates place _ _ cs _ Hsat E2 G2' Ec).
    intros i x. simpl. by destruct (chosen a _ labelCandidates i).
Qed.

Lemma extractSolution_decodes_witness :
  ∃ layout,
    extractSolution demo_solution demo_encoding demo_data [demo_circles]
      demo_orgCandidates demo_labelCandidates = Some layout ∧
    length (lay_organizations layout) = 2 ∧
    length (lay_circles layout) = 2 ∧
    (∃ p c v, [at_point 0 0; at_point 100 0] !! p = Some c ∧
              orgVars demo_encoding !! 0 ≫= (.!! p) = Some v ∧
              js_get demo_solution v = Some true ∧
              lay_organizations layout !! 0 =
              Some {| org_name := "first"; org_categories := ["A"%string];
                      org_x := Some (pos_x c); org_y := Some (pos_y c) |}) ∧
    (∃ p c v, [label_at 5 0] !! p = Some c ∧
              labelVars demo_encoding !! 1 ≫= (.!! p) = Some v ∧
              js_get demo_solution v = Some true ∧
              lay_circles layout !! 1 =
              Some (placeLabel (demo_circle "B") (lp_x c) (lp_y c))).
Proof.
  destruct (extractSolution_decodes demo_data [] [demo_circles]
              demo_orgCandidates demo_labelCandidates demo_formula
              demo_encoding demo_solution)
    as (layout & Hex & Hlo & Hlc & Horg & Hlab).
  - vm_compute. reflexivity.
  - vm_compute. reflexivity.
  - exists layout. split; [done|]. split; [done|]. split; [done|]. split.
    + destruct (Horg 0 (demo_org "first") eq_refl) as (cands & Hc & H).
      injection Hc as <-. exact H.
    + destruct (Hlab 1 (demo_circle "B") eq_refl) as (cands & Hc & H).
      injection Hc as <-. exact H.
Defined.

(** ** The optimizer *)

Lemma forEach_from_map {A B} k (f : nat → A → option A) (g : A → B)
    (l l' : list A) :
  (∀ i x x', f i x = Some x' → g x' = g x) →
  forEach_from k f l = Some l' → map g l' = map g l.
Proof.
  intros Hg. revert k l'. induction l as [|y rest IH]; intros k l'; simpl.
  - by intros [= <-].
  - destruct (f k y) as [y'|] eqn:Ey; [|done].
    destruct (forEach_from (S k) f rest) as [rest'|] eqn:Er; [|done].
    intros [= <-]. simpl. by rewrite (Hg _ _ _ Ey), (IH _ _ Er).
Qed.

Lemma extractSolution_frame a enc data circleCandidates orgCandidates
    labelCandidates layout :
  extractSolution a enc data circleCandidates orgCandidates labelCandidates
    = Some layout →
  map org_identity (lay_organizations layout)
    = map org_identity (organizations data) ∧
  map circle_geometry (lay_circles layout)
    = map circle_geometry (enc_circles enc).
Proof.
  unfold extractSolution.
  destruct (forEach_from 0 _ (organizations data)) as [orgs|] eqn:Eo; [|done].
  simpl.
  destruct (forEach_from 0 _ (enc_circles enc)) as [cs|] eqn:Ec; [|done].
  intros [= <-]. simpl. split.
  - eapply forEach_from_map; [|exact Eo]. intros i org org'. simpl.
    destruct (chosen a (orgVars enc) orgCandidates i) as [[p|]|]; simpl;
      by intros [= <-].
  - eapply forEach_from_map; [|exact Ec]. intros i c c'. simpl.
    destruct (chosen a (labelVars enc) labelCandidates i) as [[p|]|]; simpl;
      by intros [= <-].
Qed.

Lemma fallbackLayout_frame `{this : Optimizer} data analysis :
  map org_identity (lay_organizations (fallbackLayout data analysis))
    = map org_identity (organizations data) ∧
  map circle_geometry (lay_circles (fallbackLayout data analysis))
    = map circle_geometry
        (createCircleLayout analysis (width / 2)%float (height / 2)%float).
Proof.
  unfold fallbackLayout. simpl. split.
  - rewrite map_map. apply map_ext. intros org.
    by destruct (0 <? length _).
  - rewrite map_map. by apply map_ext.
Qed.

(** X11.  Whichever way [optimize] produces its layout, through the decoder
    or through the fallback, the layout lists the organisations of the input
    in their order with names and categories unchanged, and its circles are
    those of the default circle layout (centred on the drawing area) with
    index, name, colour, centre and radius unchanged: only coordinates of
    organisations and of labels are written. *)
Theorem optimize_frame `{this : Optimizer} (data : Data) (calls : list Call)
    (layout : Layout) :
  optimize data = Some (calls, layout) →
  map org_identity (lay_organizations layout)
    = map org_identity (organizations data) ∧
  map circle_geometry (lay_circles layout)
    = map circle_geometry
        (createCircleLayout (analyzeRelationships data)
           (width / 2)%float (height / 2)%float).
Proof.
  unfold optimize.
  destruct (encodeSAT _ _ _ _ _ _) as [[sat enc]|] eqn:Henc; [|done]. simpl.
  destruct (solve sat) as [[a|]|]; [| |done]; simpl.
  - destruct (extractSolution _ _ _ _ _ _) as [l|] eqn:Hex; [|done].
    intros [= <- <-].
    destruct (extractSolution_frame _ _ _ _ _ _ _ Hex) as [Ho Hc].
    split; [done|]. rewrite Hc.
    by destruct (encodeSAT_bounds _ _ _ _ _ _ _ Henc) as ([= <-] & _).
  - intros [= <- <-]. apply fallbackLayout_frame.
Qed.

Lemma optimize_frame_witness :
  ∃ layout,
    @optimize (demo_optimizer demo_orgCandidates) demo_data
      = Some ([CallExtractSolution], layout) ∧
    map org_identity (lay_organizations layout)
      = map org_identity (organizations demo_data) ∧
    map circle_geometry (lay_circles layout) = map circle_geometry demo_circles.
Proof.
  destruct (@optimize (demo_optimizer demo_orgCandidates) demo_data)
    as [[calls layout]|] eqn:E; [|vm_compute in E; discriminate E].
  exists layout.
  pose proof (@optimize_frame (demo_optimizer demo_orgCandidates) demo_data
                calls layout E) as H.
  split; [|exact H].
  vm_compute in E. injection E as <- <-. reflexivity.
Defined.

(** X12.  [optimize] does not throw when the candidate suppliers keep their
    shape: if [generateOrgCandidates] returns a list for every organisation
    and [generateLabelCandidates] a list for every circle of the default
    layout, then [optimize] returns a layout, produced by exactly one call of
    [fallbackLayout] or of [extractSolution]. *)
Theorem optimize_completes `{this : Optimizer} (data : Data) :
  let analysis := analyzeRelationships data in
  let circleCandidates := generateCircleCandidates analysis in
  length (organizations data)
    ≤ length (generateOrgCandidates (organizations data) circleCandidates) →
  length (createCircleLayout analysis (width / 2)%float (height / 2)%float)
    ≤ length (generateLabelCandidates circleCandidates) →
  ∃ calls layout,
    optimize data = Some (calls, layout) ∧
    (calls = [CallFallbackLayout] ∨ calls = [CallExtractSolution]).
Proof.
  intros analysis circleCandidates Horg Hlab.
  destruct (encodeSAT_is_Some data analysis circleCandidates
              (createCircleLayout analysis (width / 2)%float (height / 2)%float)
              (generateOrgCandidates (organizations data) circleCandidates)
              (generateLabelCandidates circleCandidates))
    as [[sat enc] Henc]; [done..|].
  unfold optimize. fold analysis. fold circleCandidates. rewrite Henc. simpl.
  destruct (solve_returns sat) as [[a|] ->]; simpl.
  - destruct (extractSolution_is_Some _ _ _ _ _ _ _ a Henc) as [layout ->].
    simpl. exists [CallExtractSolution], layout. split; [done | by right].
  - eexists _, _. split; [done | by left].
Qed.

Lemma optimize_completes_witness :
  ∃ calls layout,
    @optimize (demo_optimizer clash_orgCandidates) demo_data
      = Some (calls, layout) ∧
    (calls = [CallFallbackLayout] ∨ calls = [CallExtractSolution]).
Proof.
  apply (@optimize_completes (demo_optimizer clash_orgCandidates) demo_data).
  - simpl. lia.
  - simpl. lia.
Defined.

(** ** The formula of [encodeSAT], clause by clause *)

Lemma fold_pairs_only v1 row s c :
  In c (clauses (fold_left (λ sat v, addClause sat [neg v1; neg v]) row s)) →
  In c (clauses s) ∨ ∃ q v2, row !! q = Some v2 ∧ c = [neg v1; neg v2].
Proof.
  revert s. induction row as [|v rest IH]; intros s; simpl; [by left|].
  intros H. apply IH in H as [H | (q & v2 & Hq & ->)].
  - simpl in H. apply in_app_iff in H as [H | [<- | []]]; [by left|].
    right. by exists 0, v.
  - right. by exists (S q), v2.
Qed.

Lemma atMostOne_only row s c :
  In c (clauses (atMostOne row s)) →
  In c (clauses s) ∨
  ∃ p1 p2 v1 v2, p1 < p2 ∧ row !! p1 = Some v1 ∧ row !! p2 = Some v2 ∧
                 c = [neg v1; neg v2].
Proof.
  revert s. induction row as [|v rest IH]; intros s; simpl; [by left|].
  intros H. apply IH in H as [H | (p1 & p2 & v1 & v2 & Hlt & H1 & H2 & ->)].
  - apply fold_pairs_only in H as [H | (q & v2 & Hq & ->)]; [by left|].
    right. exists 0, (S q), v, v2. split; [lia | done].
  - right. exists (S p1), (S p2), v1, v2. split; [lia | done].
Qed.

Lemma exactlyOneEach_only count vars s s' c :
  exactlyOneEach count vars s = Some s' →
  In c (clauses s') → In c (clauses s) ∨ exactly_one_clause count vars c.
Proof.
  intros H. revert c.
  apply (for_range_inv
           (λ x, ∀ c, In c (clauses x) →
                      In c (clauses s) ∨ exactly_one_clause count vars c)
           _ _ _ _ _) with (3 := H); [|by left].
  intros i s0 s1 Hi Hs0. destruct (vars !! i) as [row|] eqn:Er; [|done].
  intros [= <-] c Hc. destruct row as [|v rest]; [by apply Hs0|].
  unfold exactlyOne in Hc.
  apply atMostOne_only in Hc as [Hc | (p1 & p2 & v1 & v2 & Hlt & H1 & H2 & ->)].
  - simpl in Hc. apply in_app_iff in Hc as [Hc | [<- | []]]; [by apply Hs0|].
    right. by apply (at_least_one_clause count vars i (v :: rest)); [lia|..].
  - right. by apply (at_most_one_clause count vars i (v :: rest) p1 p2);
      [lia|..].
Qed.

Lemma noOverlaps_only {A} count (candidates : list (list A)) vars overlap
    s s' c :
  noOverlaps count candidates vars overlap s = Some s' →
  In c (clauses s') →
  In c (clauses s) ∨ overlap_clause count candidates vars overlap c.
Proof.
  intros H. revert c.
  set (P := λ x : t, ∀ c, In c (clauses x) →
              In c (clauses s) ∨ overlap_clause count candidates vars overlap c).
  apply (for_range_inv P _ _ _ _ _) with (3 := H); [|by left].
  intros i s0 s1 Hi Hs0.
  apply for_range_inv; [|done]. intros j s2 s3 Hj Hs2.
  destruct (candidates !! i) as [ci|] eqn:Eci; [|done].
  apply for_range_inv; [|done]. intros pi s4 s5 Hpi Hs4.
  destruct (candidates !! j) as [cj|] eqn:Ecj; [|done].
  apply for_range_inv; [|done]. intros pj s6 s7 Hpj Hs6.
  destruct (ci !! pi) as [ai|] eqn:Eai; [|done].
  destruct (cj !! pj) as [aj|] eqn:Eaj; [|done].
  destruct (overlap i ai j aj) as [[]|] eqn:Eov; [| |done].
  2: { by intros [= <-]. }
  destruct (vars !! i ≫= (.!! pi)) as [vi|] eqn:Evi; [|done].
  destruct (vars !! j ≫= (.!! pj)) as [vj|] eqn:Evj; [|done].
  intros [= <-] c Hc. simpl in Hc.
  apply in_app_iff in Hc as [Hc | [<- | []]]; [by apply Hs6|].
  right. apply (flagged_pair_clause count candidates vars overlap
                  i j pi pj ai aj vi vj); try done.
  - lia.
  - by rewrite Eci.
  - by rewrite Ecj.
Qed.

Lemma encodeSAT_clause_origin data analysis circleCandidates
    (orgCandidates : list (list Position))
    (labelCandidates : list (list LabelPosition)) sat enc c :
  encodeSAT SATSolver.new data analysis circleCandidates orgCandidates
    labelCandidates = Some (sat, enc) →
  In c (clauses sat) →
  exactly_one_clause (length (organizations data)) (orgVars enc) c ∨
  exactly_one_clause (length (enc_circles enc)) (labelVars enc) c ∨
  overlap_clause (length (organizations data)) orgCandidates
    (orgVars enc) orgTest c ∨
  overlap_clause (length (enc_circles enc)) labelCandidates
    (labelVars enc) (labelTest (enc_circles enc)) c.
Proof.
  intros Henc Hc.
  apply encodeSAT_phases in Henc
    as (circles & s1 & s2 & s3 & _ & -> & E1 & E2 & E3 & E4).
  simpl in *.
  apply (noOverlaps_only _ _ _ _ _ _ _ E4) in Hc as [Hc | Hc]; [|by auto].
  apply (noOverlaps_only _ _ _ _ _ _ _ E3) in Hc as [Hc | Hc]; [|by auto].
  apply (exactlyOneEach_only _ _ _ _ _ E2) in Hc as [Hc | Hc]; [|by auto].
  apply (exactlyOneEach_only _ _ _ _ _ E1) in Hc as [[] | Hc]. by auto.
Qed.

(** X13.  The formula built by [encodeSAT] on a fresh solver consists of
    exactly these clauses: for every organisation and every circle with
    candidates, the clause of all its selectors and a clause [[-v1, -v2]] for
    every two of its selectors; and a clause [[-vi, -vj]] for every two
    candidates of different organisations that [positionsOverlap] flags, and
    of different circles whose labels [labelsOverlap] flags. *)
Theorem encodeSAT_clauses_exact (data : Data) (analysis : list Analysis)
    (circleCandidates : list (list Circle))
    (orgCandidates : list (list Position))
    (labelCandidates : list (list LabelPosition))
    (sat : t) (enc : Encoding) :
  encodeSAT SATSolver.new data analysis circleCandidates orgCandidates
    labelCandidates = Some (sat, enc) →
  ∀ c, In c (clauses sat) ↔
       exactly_one_clause (length (organizations data)) (orgVars enc) c ∨
       exactly_one_clause (length (enc_circles enc)) (labelVars enc) c ∨
       overlap_clause (length (organizations data)) orgCandidates
         (orgVars enc) orgTest c ∨
       overlap_clause (length (enc_circles enc)) labelCandidates
         (labelVars enc) (labelTest (enc_circles enc)) c.
Proof.
  intros Henc c. split; [by eapply encodeSAT_clause_origin|].
  apply encodeSAT_phases in Henc
    as (circles & s1 & s2 & s3 & _ & -> & E1 & E2 & E3 & E4).
  simpl in *.
  pose proof (noOverlaps_grows _ _ _ _ _ _ E3) as G3.
  pose proof (noOverlaps_grows _ _ _ _ _ _ E4) as G4.
  pose proof (exactlyOneEach_grows _ _ _ _ E2) as G2.
  - intros [Hc | [Hc | [Hc | Hc]]].
    + eapply grows_In; [exact G4|]. eapply grows_In; [exact G3|].
      eapply grows_In; [exact G2|].
      destruct Hc as [i row Hi Hrow Hne | i row p1 p2 v1 v2 Hi Hrow Hlt H1 H2];
        destruct (exactlyOneEach_In _ _ _ _ i E1 Hi) as (row' & Hrow' & Hp & Hn);
        assert (row' = row) as -> by congruence; eauto.
    + eapply grows_In; [exact G4|]. eapply grows_In; [exact G3|].
      destruct Hc as [i row Hi Hrow Hne | i row p1 p2 v1 v2 Hi Hrow Hlt H1 H2];
        destruct (exactlyOneEach_In _ _ _ _ i E2 Hi) as (row' & Hrow' & Hp & Hn);
        assert (row' = row) as -> by congruence; eauto.
    + eapply grows_In; [exact G4|].
      destruct Hc as [i j pi pj ai aj vi vj Hij Hai Haj Hov Hvi Hvj].
      destruct (noOverlaps_In _ _ _ _ _ _ i j pi pj ai aj E3 Hij Hai Haj Hov)
        as (vi' & vj' & Hvi' & Hvj' & Hin).
      assert (vi' = vi) as -> by congruence.
      by assert (vj' = vj) as -> by congruence.
    + destruct Hc as [i j pi pj ai aj vi vj Hij Hai Haj Hov Hvi Hvj].
      destruct (noOverlaps_In _ _ _ _ _ _ i j pi pj ai aj E4 Hij Hai Haj Hov)
        as (vi' & vj' & Hvi' & Hvj' & Hin).
      assert (vi' = vi) as -> by congruence.
      by assert (vj' = vj) as -> by congruence.
Qed.

Lemma encodeSAT_clauses_exact_witness :
  In [neg 1; neg 3] (clauses demo_formula) ↔
  exactly_one_clause 2 (orgVars demo_encoding) [neg 1; neg 3] ∨
  exactly_one_clause 2 (labelVars demo_encoding) [neg 1; neg 3] ∨
  overlap_clause 2 demo_orgCandidates (orgVars demo_encoding) orgTest
    [neg 1; neg 3] ∨
  overlap_clause 2 demo_labelCandidates (labelVars demo_encoding)
    (labelTest demo_circles) [neg 1; neg 3].
Proof.
  apply (encodeSAT_clauses_exact demo_data [] [demo_circles] demo_orgCandidates
           demo_labelCandidates demo_formula demo_encoding).
  vm_compute. reflexivity.
Defined.

(** ** A conflict-free choice satisfies the formula *)

Lemma elem_of_picked count vars sel v :
  v ∈ picked count vars sel ↔
  ∃ i, i < count ∧ vars !! i ≫= (.!! sel i) = Some v.
Proof.
  unfold picked. rewrite list_elem_of_omap. split.
  - intros (i & Hi & Hv). apply elem_of_seq in Hi. exists i. split; [lia | done].
  - intros (i & Hi & Hv). exists i. split; [|done]. apply elem_of_seq. lia.
Qed.

Lemma rows_from_selector_range {A} n (candidates : list (list A)) i p v :
  rows_from n candidates !! i ≫= (.!! p) = Some v →
  n < v ≤ n + total_length candidates.
Proof.
  intros H.
  by apply (rows_lookup_Forall _ _ i p v (rows_from_range n candidates)).
Qed.

Lemma rows_from_injective {A} n (candidates : list (list A)) i p i' p' v :
  rows_from n candidates !! i ≫= (.!! p) = Some v →
  rows_from n candidates !! i' ≫= (.!! p') = Some v →
  i = i' ∧ p = p'.
Proof.
  revert n i i'. induction candidates as [|positions rest IH]; intros n i i';
    [by destruct i|].
  assert (∀ q w, seq (S n) (length positions) !! q = Some w →
                 w = S n + q ∧ w ≤ n + length positions) as Hfirst.
  { intros q w Hq. apply lookup_seq in Hq as [-> Hlt]. lia. }
  destruct i as [|i], i' as [|i']; simpl.
  - intros H1 H2. apply Hfirst in H1 as [H1 _], H2 as [H2 _]. split; [done | lia].
  - intros H1 H2. apply Hfirst in H1 as [_ H1].
    apply rows_from_selector_range in H2. lia.
  - intros H1 H2. apply Hfirst in H2 as [_ H2].
    apply rows_from_selector_range in H1. lia.
  - intros H1 H2. destruct (IH _ _ _ H1 H2) as [-> ->]. done.
Qed.

Lemma choice_model_picks (orgCandidates : list (list Position))
    (labelCandidates : list (list LabelPosition)) circles nOrgs nCircles
    selO selL :
  let enc := {| orgVars := rows_from 0 orgCandidates;
                labelVars := rows_from (total_length orgCandidates)
                               labelCandidates;
                enc_circles := circles |} in
  let m := choice_model enc nOrgs nCircles selO selL in
  picks m nOrgs (orgVars enc) selO ∧ picks m nCircles (labelVars enc) selL.
Proof.
  simpl. split; intros i p v Hi Hv; unfold choice_model; simpl;
    rewrite bool_decide_eq_true, elem_of_app, !elem_of_picked.
  - split.
    + intros [(i' & Hi' & Hv') | (i' & Hi' & Hv')].
      * by destruct (rows_from_injective _ _ _ _ _ _ _ Hv Hv') as [-> ->].
      * apply rows_from_selector_range in Hv, Hv'. lia.
    + intros ->. left. by exists i.
  - split.
    + intros [(i' & Hi' & Hv') | (i' & Hi' & Hv')].
      * apply rows_from_selector_range in Hv, Hv'. lia.
      * by destruct (rows_from_injective _ _ _ _ _ _ _ Hv Hv') as [-> ->].
    + intros ->. right. by exists i.
Qed.

Lemma holds_pos (m : Valuation) v : 0 < v → m v = true → holds m (pos v).
Proof.
  intros Hv Hm. unfold holds, litVal. rewrite abs_nat_pos, Hm. unfold pos.
  by destruct (Z.ltb_spec 0 (Z.of_nat v)); [|lia].
Qed.

Lemma holds_neg (m : Valuation) v : m v = false → holds m (neg v).
Proof.
  intros Hm. unfold holds, litVal. rewrite abs_nat_neg, Hm. unfold neg.
  by destruct (Z.ltb_spec 0 (- Z.of_nat v)); [lia|].
Qed.

Lemma one_of_two_false (m : Valuation) v1 v2 :
  ¬ (m v1 = true ∧ m v2 = true) →
  ∃ lit, In lit [neg v1; neg v2] ∧ holds m lit.
Proof.
  intros H. destruct (m v1) eqn:E1.
  - destruct (m v2) eqn:E2; [by destruct H|].
    exists (neg v2). split; [simpl; tauto | by apply holds_neg].
  - exists (neg v1). split; [simpl; tauto | by apply holds_neg].
Qed.

Lemma exactly_one_clause_holds (m : Valuation) count vars sel c :
  picks m count vars sel →
  Forall (Forall (λ v, 0 < v)) vars →
  (∀ i row, i < count → vars !! i = Some row → row ≠ [] → sel i < length row) →
  exactly_one_clause count vars c →
  ∃ lit, In lit c ∧ holds m lit.
Proof.
  intros Hpicks Hpos Hsel [i row Hi Hrow Hne | i row p1 p2 v1 v2 Hi Hrow Hlt H1 H2].
  - destruct (lookup_lt_is_Some_2 row (sel i)) as [v Hv]; [by eapply Hsel|].
    exists (pos v). split.
    + apply in_map, list_elem_of_In. by eapply list_elem_of_lookup_2.
    + apply holds_pos.
      * eapply (rows_lookup_Forall _ vars i (sel i)); [done|]. by rewrite Hrow.
      * apply (Hpicks i (sel i)); [done | by rewrite Hrow | done].
  - apply one_of_two_false. intros [Hm1 Hm2].
    apply (Hpicks i p1) in Hm1; [|done | by rewrite Hrow].
    apply (Hpicks i p2) in Hm2; [|done | by rewrite Hrow]. lia.
Qed.

Lemma overlap_clause_holds {A} (m : Valuation) count
    (candidates : list (list A)) vars overlap sel c :
  picks m count vars sel →
  (∀ i j ai aj, i < j < count →
     candidates !! i ≫= (.!! sel i) = Some ai →
     candidates !! j ≫= (.!! sel j) = Some aj →
     overlap i ai j aj ≠ Some true) →
  overlap_clause count candidates vars overlap c →
  ∃ lit, In lit c ∧ holds m lit.
Proof.
  intros Hpicks Hfree [i j pi pj ai aj vi vj Hij Hai Haj Hov Hvi Hvj].
  apply one_of_two_false. intros [Hmi Hmj].
  apply (Hpicks i pi) in Hmi; [|lia | done].
  apply (Hpicks j pj) in Hmj; [|lia | done]. subst pi pj.
  by apply (Hfree i j ai aj).
Qed.

Lemma rows_from_lookup_inv {A} n (candidates : list (list A)) i row :
  rows_from n candidates !! i = Some row →
  ∃ cands, candidates !! i = Some cands ∧ length row = length cands.
Proof.
  intros Hrow. pose proof (lookup_lt_Some _ _ _ Hrow) as Hi.
  rewrite length_rows_from in Hi.
  destruct (lookup_lt_is_Some_2 candidates i Hi) as [cands Hc].
  destruct (rows_from_lookup n candidates i cands Hc) as (row' & Hrow' & Hlen).
  exists cands. split; [done | congruence].
Qed.

Lemma rows_from_all_positive {A} n (candidates : list (list A)) :
  Forall (Forall (λ v, 0 < v)) (rows_from n candidates).
Proof.
  eapply Forall_impl; [|apply rows_from_range]. intros row Hrow. simpl in Hrow.
  eapply Forall_impl; [|apply Hrow]. intros v Hv. simpl in Hv. lia.
Qed.

(** X14.  The encoding is complete for the placement problem: if some choice
    of one candidate for every organisation and every label that has
    candidates is free of flagged pairs, the formula built by [encodeSAT] has
    a model, [solve] returns an assignment, and [optimize] never needs the
    fallback for such an input. *)
Theorem conflict_free_choice_is_found (data : Data) (analysis : list Analysis)
    (circleCandidates : list (list Circle))
    (orgCandidates : list (list Position))
    (labelCandidates : list (list LabelPosition))
    (sat : t) (enc : Encoding) (selO selL : nat → nat) :
  encodeSAT SATSolver.new data analysis circleCandidates orgCandidates
    labelCandidates = Some (sat, enc) →
  conflict_free_choice data (enc_circles enc) orgCandidates labelCandidates
    selO selL →
  models (choice_model enc (length (organizations data))
            (length (enc_circles enc)) selO selL) (clauses sat) ∧
  ∃ a, solve sat = Some (Some a).
Proof.
  intros Henc (HselO & HselL & HfreeO & HfreeL).
  set (m := choice_model enc (length (organizations data))
              (length (enc_circles enc)) selO selL).
  assert (models m (clauses sat)) as Hm.
  { intros c Hc.
    pose proof (encodeSAT_clause_origin _ _ _ _ _ _ _ c Henc Hc) as Horigin.
    apply encodeSAT_phases in Henc as (circles & s1 & s2 & s3 & _ & -> & _).
    simpl in *.
    destruct (choice_model_picks orgCandidates labelCandidates circles
                (length (organizations data)) (length circles) selO selL)
      as [HpO HpL].
    fold m in HpO, HpL. simpl in HpO, HpL.
    destruct Horigin as [Ho | [Ho | [Ho | Ho]]].
    - eapply exactly_one_clause_holds;
        [exact HpO | apply rows_from_all_positive | | exact Ho].
      intros i row Hi Hrow Hne.
      destruct (rows_from_lookup_inv _ _ _ _ Hrow) as (cands & Hcands & Hlen).
      rewrite Hlen. apply (HselO i cands Hi Hcands).
      intros ->. by destruct row.
    - eapply exactly_one_clause_holds;
        [exact HpL | apply rows_from_all_positive | | exact Ho].
      intros i row Hi Hrow Hne.
      destruct (rows_from_lookup_inv _ _ _ _ Hrow) as (cands & Hcands & Hlen).
      rewrite Hlen. apply (HselL i cands Hi Hcands).
      intros ->. by destruct row.
    - eapply overlap_clause_holds; [exact HpO | | exact Ho].
      intros i j ai aj Hij Hai Haj. unfold orgTest.
      by rewrite (HfreeO i j ai aj Hij Hai Haj).
    - eapply overlap_clause_holds; [exact HpL | | exact Ho].
      intros i j ai aj Hij Hai Haj. unfold labelTest.
      destruct (circles !! i) as [ci|] eqn:Eci; [|done].
      destruct (circles !! j) as [cj|] eqn:Ecj; [|done].
      rewrite (HfreeL i j ai aj ci cj); [done | lia | done..]. }
  split; [done|].
  destruct (solve_returns sat) as [[a|] Hs]; [by exists a|].
  by destruct (solve_None_no_model sat Hs m).
Qed.

Lemma conflict_free_choice_is_found_witness :
  models (choice_model demo_encoding 2 2
            (λ i, if Nat.eqb i 0 then 1 else 0)
            (λ i, if Nat.eqb i 0 then 1 else 0)) (clauses demo_formula) ∧
  ∃ a, solve demo_formula = Some (Some a).
Proof.
  apply (conflict_free_choice_is_found demo_data [] [demo_circles]
           demo_orgCandidates demo_labelCandidates demo_formula demo_encoding
           (λ i, if Nat.eqb i 0 then 1 else 0)
           (λ i, if Nat.eqb i 0 then 1 else 0)).
  - vm_compute. reflexivity.
  - split; [|split; [|split]].
    + intros [|[|i]] cands Hi; simpl in *; try lia; intros [= <-] _; simpl; lia.
    + intros [|[|i]] cands Hi; simpl in *; try lia; intros [= <-] _; simpl; lia.
    + intros [|[|i]] [|[|j]] ci cj Hij; simpl in *; try lia.
      intros [= <-] [= <-]. vm_compute. reflexivity.
    + intros [|[|i]] [|[|j]] li lj circle_i circle_j Hij; simpl; try lia;
        try done.
      intros [= <-] [= <-] [= <-] [= <-]. vm_compute. reflexivity.
Defined.

(** ** The candidate suppliers and the analysis *)

Lemma lookup_map_Some {A B} (f : A → B) (l : list A) i y :
  map f l !! i = Some y → ∃ x, l !! i = Some x ∧ y = f x.
Proof.
  revert i. induction l as [|x l IH]; intros [|i]; simpl; try done.
  - intros [= <-]. by exists x.
  - apply IH.
Qed.

(** X15.  [generateLabelCandidates] throws only when there is no circle
    layout; otherwise it returns one candidate list per circle of the first
    layout, each with exactly 24 candidates whose [angle] fields are 0, 15,
    30, ..., 345, whatever [Math.cos] and [Math.sin] compute. *)
Theorem generateLabelCandidates_shape (cos sin : float → float)
    (circleCandidates : list (list Circle)) :
  (Suppliers.generateLabelCandidates cos sin circleCandidates = None ↔
   circleCandidates = []) ∧
  (∀ referenceCircles labelCandidates,
     circleCandidates !! 0 = Some referenceCircles →
     Suppliers.generateLabelCandidates cos sin circleCandidates
       = Some labelCandidates →
     length labelCandidates = length referenceCircles ∧
     ∀ i cands, labelCandidates !! i = Some cands →
       length cands = 24 ∧
       map lp_angle cands
         = map (λ k, float_of_nat (15 * k)) (seq 0 24)).
Proof.
  unfold Suppliers.generateLabelCandidates. split.
  - destruct circleCandidates as [|c0 rest]; simpl; [done|]. by split.
  - intros referenceCircles labelCandidates -> [= <-].
    split; [apply length_map|].
    intros i cands Hi. apply lookup_map_Some in Hi as (circle & _ & ->).
    split; [reflexivity|]. vm_compute. reflexivity.
Qed.

Lemma generateLabelCandidates_shape_witness :
  ∃ labelCandidates,
    Suppliers.generateLabelCandidates (λ _, 1%float) (λ _, 0%float)
      [demo_circles] = Some labelCandidates ∧
    length labelCandidates = 2 ∧
    ∀ i cands, labelCandidates !! i = Some cands →
      length cands = 24 ∧
      map lp_angle cands = map (λ k, float_of_nat (15 * k)) (seq 0 24).
Proof.
  destruct (generateLabelCandidates_shape (λ _, 1%float) (λ _, 0%float)
              [demo_circles]) as [_ H].
  eexists. split; [reflexivity|].
  apply (H demo_circles); reflexivity.
Defined.

Lemma filter_andb_length {A} (p q : A → bool) (l : list A) :
  length (List.filter (λ x, p x && q x) l) ≤ length (List.filter p l).
Proof.
  induction l as [|x l IH]; simpl; [done|].
  destruct (p x), (q x); simpl; lia.
Qed.

Lemma analyzeRelationships_lookup data i ai :
  analyzeRelationships data !! i = Some ai →
  ∃ cat, categories data !! i = Some cat ∧
    an_index ai = i ∧ an_name ai = cat_name cat ∧ an_color ai = cat_color cat ∧
    an_orgCount ai
      = countOrgs data (λ org, includes (org_categories org) (cat_name cat)) ∧
    ∀ j, an_overlaps ai !! j =
         (λ other,
            if Nat.eqb i j then 0
            else countOrgs data (λ org,
                   includes (org_categories org) (cat_name cat)
                   && includes (org_categories org) (cat_name other)))
         <$> categories data !! j.
Proof.
  unfold analyzeRelationships. rewrite list_lookup_imap.
  destruct (categories data !! i) as [cat|]; [|done]. simpl.
  intros [= <-]. exists cat. simpl. do 5 (split; [done|]).
  intros j. by rewrite list_lookup_imap.
Qed.

(** X16.  [analyzeRelationships] returns one record per category, in order,
    carrying its position, name and colour; the [overlaps] rows form a square
    matrix over the categories that is symmetric with a zero diagonal, and no
    entry of a row exceeds that category's [orgCount]. *)
Theorem analyzeRelationships_matrix (data : Data) :
  length (analyzeRelationships data) = length (categories data) ∧
  ∀ i ai, analyzeRelationships data !! i = Some ai →
    an_index ai = i ∧
    Some (an_name ai) = cat_name <$> categories data !! i ∧
    Some (an_color ai) = cat_color <$> categories data !! i ∧
    length (an_overlaps ai) = length (categories data) ∧
    an_overlaps ai !! i = Some 0 ∧
    (∀ j n, an_overlaps ai !! j = Some n → n ≤ an_orgCount ai) ∧
    (∀ j aj, analyzeRelationships data !! j = Some aj →
             an_overlaps ai !! j = an_overlaps aj !! i).
Proof.
  split; [apply length_imap|].
  intros i ai Hai.
  destruct (analyzeRelationships_lookup data i ai Hai)
    as (cat & Hcat & Hidx & Hname & Hcolor & Hcount & Hrow).
  split; [done|]. rewrite Hcat. simpl.
  split; [by rewrite Hname|]. split; [by rewrite Hcolor|].
  split.
  { unfold analyzeRelationships in Hai. rewrite list_lookup_imap, Hcat in Hai.
    injection Hai as <-. simpl. apply length_imap. }
  split; [by rewrite Hrow, Hcat, Nat.eqb_refl|].
  split.
  - intros j n. rewrite Hrow.
    destruct (categories data !! j) as [other|]; [|done]. simpl.
    destruct (Nat.eqb i j); intros [= <-]; [lia|].
    rewrite Hcount. apply filter_andb_length.
  - intros j aj Haj.
    destruct (analyzeRelationships_lookup data j aj Haj)
      as (catj & Hcatj & _ & _ & _ & _ & Hrowj).
    rewrite Hrow, Hrowj, Hcat, Hcatj. simpl. f_equal.
    rewrite (Nat.eqb_sym j i). destruct (Nat.eqb i j); [done|].
    unfold countOrgs. f_equal. apply List.filter_ext. intros org.
    apply andb_comm.
Qed.

Lemma analyzeRelationships_matrix_witness :
  ∃ ai aj,
    analyzeRelationships demo_data !! 0 = Some ai ∧
    analyzeRelationships demo_data !! 1 = Some aj ∧
    an_index ai = 0 ∧ an_overlaps ai !! 0 = Some 0 ∧
    an_overlaps ai !! 1 = an_overlaps aj !! 0.
Proof.
  destruct (analyzeRelationships_matrix demo_data) as [_ H].
  eexists _, _. split; [reflexivity|]. split; [reflexivity|].
  match goal with |- an_index ?a = _ ∧ _ =>
    destruct (H 0 a eq_refl) as (Hi & _ & _ & _ & Hd & _ & Hs) end.
  split; [exact Hi|]. split; [exact Hd|].
  by apply (Hs 1).
Defined.

Lemma map_alter_inv {A B} (g : A → B) (f : A → A) i (l : list A) :
  (∀ x, g (f x) = g x) → map g (alter f i l) = map g l.
Proof.
  intros Hg. revert i. induction l as [|x l IH]; intros [|i]; simpl; try done.
  - by rewrite Hg.
  - f_equal. apply IH.
Qed.

Lemma lookup_map {A B} (f : A → B) (l : list A) i x :
  l !! i = Some x → map f l !! i = Some (f x).
Proof.
  revert i. induction l as [|y l IH]; intros [|i]; simpl; try done.
  - by intros [= <-].
  - apply IH.
Qed.

Lemma pairForce_static analysis i j sims :
  map (λ s, circle_static (Suppliers.sim_circle s))
      (Suppliers.pairForce analysis i j sims)
  = map (λ s, circle_static (Suppliers.sim_circle s)) sims.
Proof.
  unfold Suppliers.pairForce.
  destruct (sims !! i) as [si|]; [|done].
  destruct (sims !! j) as [sj|]; [|done]. simpl.
  destruct (match analysis !! i ≫= _ with Some n => _ | None => _ end).
  - unfold Suppliers.subForce, Suppliers.addForce.
    by rewrite !map_alter_inv.
  - destruct (_ <? _)%float; [|done].
    unfold Suppliers.subForce, Suppliers.addForce.
    by rewrite !map_alter_inv.
Qed.

Lemma simulate_static analysis sims :
  map (λ s, circle_static (Suppliers.sim_circle s))
      (Suppliers.simulate analysis sims)
  = map (λ s, circle_static (Suppliers.sim_circle s)) sims.
Proof.
  unfold Suppliers.simulate. rewrite map_map. simpl.
  change (λ x, circle_static
                 (Suppliers.moveTo (Suppliers.sim_circle x) _ _))
    with (λ x, circle_static (Suppliers.sim_circle x)).
  generalize (Suppliers.pairs (length sims)). intros ps.
  transitivity (map (λ s, circle_static (Suppliers.sim_circle s))
                  (map (λ s, {| Suppliers.sim_circle := Suppliers.sim_circle s;
                                Suppliers.sim_fx := 0;
                                Suppliers.sim_fy := 0 |}) sims));
    [|by rewrite map_map].
  generalize (map (λ s, {| Suppliers.sim_circle := Suppliers.sim_circle s;
                           Suppliers.sim_fx := 0;
                           Suppliers.sim_fy := 0 |}) sims).
  induction ps as [|ij ps IH]; intros l; simpl; [done|].
  by rewrite IH, pairForce_static.
Qed.

Lemma simulate_iter_static analysis n sims :
  map (λ s, circle_static (Suppliers.sim_circle s))
      (Nat.iter n (Suppliers.simulate analysis) sims)
  = map (λ s, circle_static (Suppliers.sim_circle s)) sims.
Proof.
  induction n as [|n IH]; simpl; [done|]. by rewrite simulate_static.
Qed.

Lemma map_imap_ext {A B C} (g1 g2 : B → C) (f1 f2 : nat → A → B) (l : list A) :
  (∀ i x, g1 (f1 i x) = g2 (f2 i x)) →
  map g1 (imap f1 l) = map g2 (imap f2 l).
Proof.
  revert f1 f2. induction l as [|x l IH]; intros f1 f2 H; simpl; [done|].
  rewrite H. f_equal. apply IH. intros i y. apply H.
Qed.

Lemma map_imap {A B C} (g : B → C) (f1 : nat → A → B) (f2 : nat → A → C)
    (l : list A) :
  (∀ i x, g (f1 i x) = f2 i x) → map g (imap f1 l) = imap f2 l.
Proof.
  revert f1 f2. induction l as [|x l IH]; intros f1 f2 H; simpl; [done|].
  rewrite H. f_equal. apply IH. intros i y. apply H.
Qed.

Lemma createCircleLayout_static cos sin analysis centerX centerY :
  map circle_static
    (Suppliers.createCircleLayout cos sin analysis centerX centerY)
  = imap (λ i cat, (i, an_name cat, an_color cat,
                    Suppliers.radiusOf analysis cat, None, None)) analysis.
Proof.
  unfold Suppliers.createCircleLayout.
  rewrite map_map, simulate_iter_static, map_map. simpl.
  by apply map_imap.
Qed.

(** X17.  [createCircleLayout] returns one circle per analysed category, in
    order, with the category's position, name and colour, without label
    coordinates, and with radius [80 + orgCount / max * 80]: the 200
    iterations of the force simulation move circles but never add, drop,
    reorder, rename or resize one. *)
Theorem createCircleLayout_shape (cos sin : float → float)
    (analysis : list Analysis) (centerX centerY : float) :
  length (Suppliers.createCircleLayout cos sin analysis centerX centerY)
    = length analysis ∧
  ∀ i c,
    Suppliers.createCircleLayout cos sin analysis centerX centerY !! i = Some c →
    ∃ cat, analysis !! i = Some cat ∧
           c_index c = i ∧ c_name c = an_name cat ∧ c_color c = an_color cat ∧
           c_r c = Suppliers.radiusOf analysis cat ∧
           c_labelX c = None ∧ c_labelY c = None.
Proof.
  pose proof (createCircleLayout_static cos sin analysis centerX centerY) as Hst.
  split.
  - rewrite <- (length_map circle_static), Hst. apply length_imap.
  - intros i c Hc. apply (lookup_map circle_static) in Hc. rewrite Hst in Hc.
    rewrite list_lookup_imap in Hc.
    destruct (analysis !! i) as [cat|]; [|done].
    exists cat. split; [done|].
    unfold circle_static in Hc. simpl in Hc.
    by injection Hc as <- <- <- <- <- <-.
Qed.

Lemma createCircleLayout_shape_witness :
  length (Suppliers.createCircleLayout (λ _, 1%float) (λ _, 0%float)
            (analyzeRelationships demo_data) 500 400)
    = length (analyzeRelationships demo_data) ∧
  ∃ c cat,
    Suppliers.createCircleLayout (λ _, 1%float) (λ _, 0%float)
      (analyzeRelationships demo_data) 500 400 !! 1 = Some c ∧
    analyzeRelationships demo_data !! 1 = Some cat ∧
    c_index c = 1 ∧ c_name c = an_name cat ∧ c_color c = an_color cat ∧
    c_r c = Suppliers.radiusOf (analyzeRelationships demo_data) cat ∧
    c_labelX c = None ∧ c_labelY c = None.
Proof.
  destruct (createCircleLayout_shape (λ _, 1%float) (λ _, 0%float)
              (analyzeRelationships demo_data) 500 400) as [Hlen H].
  split; [exact Hlen|].
  assert (length (analyzeRelationships demo_data) = 2) as H2 by reflexivity.
  revert Hlen H.
  generalize (Suppliers.createCircleLayout (λ _, 1%float) (λ _, 0%float)
                (analyzeRelationships demo_data) 500 400).
  intros circles Hlen H.
  destruct (circles !! 1) as [c|] eqn:E.
  - destruct (H 1 c E) as (cat & Hcat & Hrest). exists c, cat.
    exact (conj eq_refl (conj Hcat Hrest)).
  - apply lookup_ge_None in E. lia.
Defined.

Lemma generateLabelCandidates_rows cos sin (circles : list Circle) rest
    labelCandidates :
  Suppliers.generateLabelCandidates cos sin (circles :: rest)
    = Some labelCandidates →
  length labelCandidates = length circles ∧
  ∀ i cands, labelCandidates !! i = Some cands → length cands = 24.
Proof.
  unfold Suppliers.generateLabelCandidates. simpl. intros [= <-].
  split; [apply length_map|].
  intros i cands Hi. by apply lookup_map_Some in Hi as (circle & _ & ->).
Qed.

Lemma imap_ignore_index {A B} (f : nat → A → B) (g : A → B) (l : list A) :
  (∀ i x, f i x = g x) → imap f l = map g l.
Proof.
  revert f. induction l as [|x l IH]; intros f H; simpl; [done|].
  rewrite H. f_equal. apply IH. intros i y. apply H.
Qed.

Lemma analyzeRelationships_names data :
  map an_name (analyzeRelationships data) = map cat_name (categories data) ∧
  map an_color (analyzeRelationships data) = map cat_color (categories data).
Proof.
  unfold analyzeRelationships. split.
  - rewrite (map_imap an_name _ (λ _ cat, cat_name cat)) by done.
    by apply imap_ignore_index.
  - rewrite (map_imap an_color _ (λ _ cat, cat_color cat)) by done.
    by apply imap_ignore_index.
Qed.

Lemma names_of_geometry (l1 l2 : list Circle) :
  map circle_geometry l1 = map circle_geometry l2 →
  map c_name l1 = map c_name l2 ∧ map c_color l1 = map c_color l2.
Proof.
  intros H. split.
  - assert (∀ l, map c_name l
                 = map (λ g, snd (fst (fst (fst (fst g))))) (map circle_geometry l))
      as Hproj by (intros l; by rewrite map_map).
    by rewrite (Hproj l1), (Hproj l2), H.
  - assert (∀ l, map c_color l
                 = map (λ g, snd (fst (fst (fst g)))) (map circle_geometry l))
      as Hproj by (intros l; by rewrite map_map).
    by rewrite (Hproj l1), (Hproj l2), H.
Qed.

Lemma createCircleLayout_names cos sin analysis centerX centerY :
  map c_name (Suppliers.createCircleLayout cos sin analysis centerX centerY)
    = map an_name analysis ∧
  map c_color (Suppliers.createCircleLayout cos sin analysis centerX centerY)
    = map an_color analysis.
Proof.
  pose proof (createCircleLayout_static cos sin analysis centerX centerY) as Hst.
  revert Hst.
  generalize (Suppliers.createCircleLayout cos sin analysis centerX centerY).
  intros circles Hst. split.
  - transitivity (map (λ g, snd (fst (fst (fst (fst g)))))
                    (map circle_static circles)); [by rewrite map_map|].
    rewrite Hst. rewrite (map_imap _ _ (λ _ cat, an_name cat)) by done.
    by apply imap_ignore_index.
  - transitivity (map (λ g, snd (fst (fst (fst g))))
                    (map circle_static circles)); [by rewrite map_map|].
    rewrite Hst. rewrite (map_imap _ _ (λ _ cat, an_color cat)) by done.
    by apply imap_ignore_index.
Qed.

Lemma fallbackLayout_labelled `{this : Optimizer} data analysis :
  Forall (λ c, is_Some (c_labelX c) ∧ is_Some (c_labelY c))
         (lay_circles (fallbackLayout data analysis)).
Proof.
  unfold fallbackLayout. simpl. apply List.Forall_forall. intros c Hc.
  apply in_map_iff in Hc as (c0 & <- & _). simpl. split; by eexists.
Qed.

(** Decoding labels when every circle has candidates. *)
Lemma extractSolution_labelled data analysis circleCandidates
    (orgCandidates : list (list Position))
    (labelCandidates : list (list LabelPosition)) sat enc a layout :
  encodeSAT SATSolver.new data analysis circleCandidates orgCandidates
    labelCandidates = Some (sat, enc) →
  solve sat = Some (Some a) →
  (∀ i cands, labelCandidates !! i = Some cands → cands ≠ []) →
  extractSolution a enc data circleCandidates orgCandidates labelCandidates
    = Some layout →
  Forall (λ c, is_Some (c_labelX c) ∧ is_Some (c_labelY c))
         (lay_circles layout).
Proof.
  intros Henc Hsol Hne Hex.
  pose proof (solve_satisfies sat a (encodeSAT_well_formed _ _ _ _ _ _ _ Henc) Hsol)
    as Hsat.
  apply encodeSAT_phases in Henc
    as (circles & s1 & s2 & s3 & _ & -> & E1 & E2 & E3 & E4).
  simpl in *.
  assert (grows s2 sat) as G2.
  { eapply grows_trans; by eapply noOverlaps_grows. }
  unfold extractSolution in Hex. simpl in Hex.
  destruct (forEach_from 0 _ (organizations data)) as [orgs|]; [|done].
  simpl in Hex.
  destruct (forEach_from 0 _ circles) as [cs|] eqn:Ec; [|done].
  injection Hex as <-. simpl.
  set (place := λ (circle : Circle) (p : option LabelPosition),
         match p with
         | None => circle
         | Some p => placeLabel circle (lp_x p) (lp_y p)
         end).
  assert (∀ i x, circles !! i = Some x →
            ∃ cands, labelCandidates !! i = Some cands ∧
              match cands with
              | [] => cs !! i = Some (place x None)
              | _ :: _ =>
                  ∃ p c v, cands !! p = Some c ∧
                    rows_from (total_length orgCandidates) labelCandidates !! i
                      ≫= (.!! p) = Some v ∧
                    js_get a v = Some true ∧
                    cs !! i = Some (place x (Some c))
              end) as Hdec.
  { refine (decode_family a sat s1 s2 (total_length orgCandidates)
              labelCandidates place _ _ cs _ Hsat E2 G2 Ec).
    intros i x. simpl. by destruct (chosen a _ labelCandidates i). }
  apply Forall_lookup. intros i c Hc.
  destruct (forEach_from_Some _ _ _ _ Ec) as [Hlen _].
  destruct (lookup_lt_is_Some_2 circles i) as [circle Hcircle].
  { apply lookup_lt_Some in Hc. lia. }
  destruct (Hdec i circle Hcircle) as (cands & Hcands & Hrow).
  destruct cands as [|c0 cands]; [by destruct (Hne i [] Hcands)|].
  destruct Hrow as (p & cand & v & _ & _ & _ & Hplaced).
  assert (c = place circle (Some cand)) as -> by congruence.
  simpl. split; by eexists.
Qed.

(** X18.  With the circles of [createCircleLayout] and the label candidates
    of [generateLabelCandidates] (for any [Math.cos] and [Math.sin]), and an
    organisation supplier that returns a list per organisation, [optimize]
    returns a layout with exactly one circle per category of the input, in
    order, carrying the category's name and colour, and every circle of the
    layout has label coordinates, whether the solver succeeded or not. *)
Theorem optimize_with_code_suppliers `{this : Optimizer}
    (cos sin : float → float) (data : Data) :
  (∀ analysis x y,
     createCircleLayout analysis x y
     = Suppliers.createCircleLayout cos sin analysis x y) →
  (∀ circleCandidates labelCandidates,
     Suppliers.generateLabelCandidates cos sin circleCandidates
       = Some labelCandidates →
     generateLabelCandidates circleCandidates = labelCandidates) →
  length (organizations data)
    ≤ length (generateOrgCandidates (organizations data)
                (generateCircleCandidates (analyzeRelationships data))) →
  ∃ calls layout,
    optimize data = Some (calls, layout) ∧
    map c_name (lay_circles layout) = map cat_name (categories data) ∧
    map c_color (lay_circles layout) = map cat_color (categories data) ∧
    Forall (λ c, is_Some (c_labelX c) ∧ is_Some (c_labelY c))
           (lay_circles layout).
Proof.
  intros Hcircles Hlabels Horg.
  set (analysis := analyzeRelationships data) in *.
  set (circles0 := createCircleLayout analysis (width / 2)%float (height / 2)%float).
  assert (∃ rest, generateCircleCandidates analysis = circles0 :: rest) as [rest Hcc]
    by (by eexists).
  destruct (Suppliers.generateLabelCandidates cos sin (circles0 :: rest))
    as [labels|] eqn:Elab; [|done].
  destruct (generateLabelCandidates_rows _ _ _ _ _ Elab) as [Hlen H24].
  assert (map c_name circles0 = map cat_name (categories data) ∧
          map c_color circles0 = map cat_color (categories data))
    as [Hnames Hcolors].
  { unfold circles0. rewrite Hcircles.
    destruct (createCircleLayout_names cos sin analysis (width / 2)%float
                (height / 2)%float) as [-> ->].
    apply analyzeRelationships_names. }
  unfold optimize. fold analysis. rewrite Hcc in *.
  rewrite (Hlabels _ _ Elab).
  destruct (encodeSAT_is_Some data analysis (circles0 :: rest) circles0
              (generateOrgCandidates (organizations data) (circles0 :: rest))
              labels) as [[sat enc] Henc]; [done | done | lia |].
  rewrite Henc. simpl.
  destruct (encodeSAT_bounds _ _ _ _ _ _ _ Henc) as ([= Hc0] & _).
  destruct (solve_returns sat) as [[a|] Hs]; rewrite Hs; simpl.
  - destruct (extractSolution_is_Some _ _ _ _ _ _ _ a Henc) as [layout Hex].
    rewrite Hex. simpl. exists [CallExtractSolution], layout. split; [done|].
    destruct (extractSolution_frame _ _ _ _ _ _ _ Hex) as [_ Hgeo].
    rewrite <- Hc0 in Hgeo. apply names_of_geometry in Hgeo as [-> ->].
    split; [done|]. split; [done|].
    eapply extractSolution_labelled; [exact Henc | exact Hs | | exact Hex].
    intros i cands Hi ->. by specialize (H24 i [] Hi).
  - exists [CallFallbackLayout], (fallbackLayout data analysis).
    split; [done|].
    destruct (fallbackLayout_frame data analysis) as [_ Hgeo].
    apply names_of_geometry in Hgeo as [-> ->].
    split; [done|]. split; [done|]. apply fallbackLayout_labelled.
Qed.

Lemma optimize_with_code_suppliers_witness :
  ∃ calls layout,
    @optimize (code_optimizer (λ _, 1%float) (λ _, 0%float) 1000 800
                 (λ orgs _, map (λ _, []) orgs)) demo_data
      = Some (calls, layout) ∧
    map c_name (lay_circles layout) = map cat_name (categories demo_data) ∧
    map c_color (lay_circles layout) = map cat_color (categories demo_data) ∧
    Forall (λ c, is_Some (c_labelX c) ∧ is_Some (c_labelY c))
           (lay_circles layout).
Proof.
  apply (@optimize_with_code_suppliers
           (code_optimizer (λ _, 1%float) (λ _, 0%float) 1000 800
              (λ orgs _, map (λ _, []) orgs))
           (λ _, 1%float) (λ _, 0%float) demo_data).
  - intros analysis x y. reflexivity.
  - intros circleCandidates labelCandidates H.
    change (default [] (Suppliers.generateLabelCandidates (λ _, 1%float)
                          (λ _, 0%float) circleCandidates) = labelCandidates).
    by rewrite H.
  - change (2 ≤ 2). lia.
Defined.

(** X19.  The loop of the decoder stops at the first selector that is
    [true]: for any array, it returns the least position in range whose
    selector reads [true], and nothing exactly when no selector in range
    does. *)
Theorem firstTrue_least (a : Assignment) (row : list nat) (count : nat) :
  match firstTrue a row 0 count with
  | Some p =>
      p < count ∧
      (∃ v, row !! p = Some v ∧ js_get a v = Some true) ∧
      ∀ q v, q < p → row !! q = Some v → js_get a v ≠ Some true
  | None =>
      ∀ q v, q < count → row !! q = Some v → js_get a v ≠ Some true
  end.
Proof.
  assert (∀ start,
    match firstTrue a row start count with
    | Some p =>
        start ≤ p < start + count ∧
        (∃ v, row !! p = Some v ∧ js_get a v = Some true) ∧
        ∀ q v, start ≤ q < p → row !! q = Some v → js_get a v ≠ Some true
    | None =>
        ∀ q v, start ≤ q < start + count → row !! q = Some v →
               js_get a v ≠ Some true
    end) as H.
  { induction count as [|count IH]; intros start; simpl; [intros; lia|].
    destruct (row !! start) as [w|] eqn:Ew.
    - destruct (bool_decide (js_get a w = Some true)) eqn:Eb.
      + apply bool_decide_eq_true_1 in Eb. split; [lia|].
        split; [by exists w|]. intros; lia.
      + apply bool_decide_eq_false_1 in Eb. specialize (IH (S start)).
        destruct (firstTrue a row (S start) count) as [p|].
        * destruct IH as (Hr & Hv & Hlow). split; [lia|]. split; [done|].
          intros q v Hq Hqv. destruct (decide (q = start)) as [->|];
            [congruence | apply (Hlow q); [lia | done]].
        * intros q v Hq Hqv. destruct (decide (q = start)) as [->|];
            [congruence | apply (IH q); [lia | done]].
    - specialize (IH (S start)).
      destruct (firstTrue a row (S start) count) as [p|].
      + destruct IH as (Hr & Hv & Hlow). split; [lia|]. split; [done|].
        intros q v Hq Hqv. destruct (decide (q = start)) as [->|];
          [congruence | apply (Hlow q); [lia | done]].
      + intros q v Hq Hqv. destruct (decide (q = start)) as [->|];
          [congruence | apply (IH q); [lia | done]]. }
  specialize (H 0). destruct (firstTrue a row 0 count) as [p|].
  - destruct H as (Hr & Hv & Hlow). split; [lia|]. split; [done|].
    intros q v Hq. apply Hlow. lia.
  - intros q v Hq. apply H. lia.
Qed.

Lemma encodeSAT_completes_witness :
  is_Some (encodeSAT SATSolver.new demo_data [] [demo_circles]
             demo_orgCandidates demo_labelCandidates) ∧
  ¬ is_Some (encodeSAT SATSolver.new demo_data [] [demo_circles]
               [[at_point 0 0]] demo_labelCandidates).
Proof.
  split.
  - apply (encodeSAT_completes demo_data [] [demo_circles] demo_orgCandidates
             demo_labelCandidates).
    exists demo_circles. split; [reflexivity|]. simpl. lia.
  - intros H.
    apply (encodeSAT_completes demo_data [] [demo_circles] [[at_point 0 0]]
             demo_labelCandidates) in H as (circles & _ & Hlen & _).
    simpl in Hlen. lia.
Defined.
